(** * The sub-step workflow editor of the task detail modal

    A shallow embedding of the graph-editing core of [TaskDetailModal]
    (src/services/geminiService.ts, second document of the file): the
    sub-step graph, the local undo/redo history, the connection gesture,
    the drop positioner, the action-item toggle and the auto layout.

    Conventions.
    - A JavaScript number is a [Z]: every number the modelled code computes
      on is a pixel count or a counter, and the only operations used are
      [+], [-], [*], comparison, [Math.max] and [Math.min].
    - An optional field [f?: T] is an [option T]; [x || []] and [x?.m()]
      are written out where they occur.
    - A React state cell is a field of [EditorState]; a handler is a function
      from the state (and the measured DOM values it reads) to the state. *)

From stdpp Require Import gmap strings list.
From Stdlib Require Import ZArith QArith Lia.

Open Scope Z_scope.

(** ** Data model (imported by the component from '../types') *)

Inductive SubStepStatus := NOT_STARTED | IN_PROGRESS | COMPLETED.

Record Position := { pos_x : Z; pos_y : Z }.

Record ActionItem := {
  ai_id : string;
  ai_text : string;
  completed : bool;
}.

Record Attachment := {
  att_id : string;
  att_name : string;
  att_type : string;
  dataUrl : string;
}.

Record SubStep := {
  ss_id : string;
  ss_text : string;
  notes : option string;
  status : option SubStepStatus;
  actionItems : option (list ActionItem);
  ss_attachments : option (list Attachment);
  position : option Position;
  nextSubStepIds : option (list string);
}.

(** [EditableExtendedTaskDetails]: the component only touches [subSteps],
    [attachments] and [reportDeck]; the slide deck is opaque here. *)
Record EditableExtendedTaskDetails := {
  subSteps : option (list SubStep);
  attachments : option (list Attachment);
  reportDeck : option string;
}.

(** [ProjectTask].  The component dereferences [extendedDetails!] in every
    update, so the field is carried as present. *)
Record ProjectTask := {
  task_id : string;
  title : string;
  description : string;
  extendedDetails : EditableExtendedTaskDetails;
}.

(** [x || []] on an optional array. *)
Definition orEmpty {A} (o : option (list A)) : list A := default [] o.

(** ** Component state *)

Record EditorState := {
  editableTask : ProjectTask;
  localHistory : list ProjectTask;
  localRedoHistory : list ProjectTask;
  selectedSubStepId : option string;
  connectingState : option (string * Position);
  draggedSubStepIdRef : option string;
  subStepDragOffsetRef : Position;
}.

Definition with_task (st : EditorState) (t : ProjectTask)
    (h r : list ProjectTask) : EditorState :=
  {| editableTask := t; localHistory := h; localRedoHistory := r;
     selectedSubStepId := selectedSubStepId st;
     connectingState := connectingState st;
     draggedSubStepIdRef := draggedSubStepIdRef st;
     subStepDragOffsetRef := subStepDragOffsetRef st |}.

Definition with_selected (st : EditorState) (s : option string) : EditorState :=
  {| editableTask := editableTask st; localHistory := localHistory st;
     localRedoHistory := localRedoHistory st;
     selectedSubStepId := s;
     connectingState := connectingState st;
     draggedSubStepIdRef := draggedSubStepIdRef st;
     subStepDragOffsetRef := subStepDragOffsetRef st |}.

Definition with_connecting (st : EditorState) (c : option (string * Position))
    : EditorState :=
  {| editableTask := editableTask st; localHistory := localHistory st;
     localRedoHistory := localRedoHistory st;
     selectedSubStepId := selectedSubStepId st;
     connectingState := c;
     draggedSubStepIdRef := draggedSubStepIdRef st;
     subStepDragOffsetRef := subStepDragOffsetRef st |}.

Definition with_drag (st : EditorState) (d : option string) (off : Position)
    : EditorState :=
  {| editableTask := editableTask st; localHistory := localHistory st;
     localRedoHistory := localRedoHistory st;
     selectedSubStepId := selectedSubStepId st;
     connectingState := connectingState st;
     draggedSubStepIdRef := d;
     subStepDragOffsetRef := off |}.

(** ** History (lines 636-666) *)

(** [updateEditableTaskWithHistory]: push the current task on the undo
    stack, empty the redo stack, install [updater currentTask]. *)
Definition updateEditableTaskWithHistory
    (updater : ProjectTask → ProjectTask) (st : EditorState) : EditorState :=
  let currentTask := editableTask st in
  with_task st (updater currentTask) (localHistory st ++ [currentTask]) [].

(** [updateTask] with a function argument: [{...prev, ...updates(prev)}];
    the only key ever supplied by this component's graph commands is
    [extendedDetails]. *)
Definition set_extendedDetails (t : ProjectTask)
    (d : EditableExtendedTaskDetails) : ProjectTask :=
  {| task_id := task_id t; title := title t; description := description t;
     extendedDetails := d |}.

(** [updateExtended] specialised to updates of the shape [{ subSteps: ... }],
    the shape every graph command passes. *)
Definition set_subSteps (d : EditableExtendedTaskDetails)
    (l : list SubStep) : EditableExtendedTaskDetails :=
  {| subSteps := Some l; attachments := attachments d;
     reportDeck := reportDeck d |}.

Definition updateExtended_subSteps
    (f : EditableExtendedTaskDetails → list SubStep) (st : EditorState)
    : EditorState :=
  updateEditableTaskWithHistory
    (λ prev, set_extendedDetails prev
               (set_subSteps (extendedDetails prev) (f (extendedDetails prev))))
    st.

(** [handleLocalUndo]. [prev.slice(0, -1)] is [removelast]. *)
Definition handleLocalUndo (st : EditorState) : EditorState :=
  match last (localHistory st) with
  | None => st
  | Some previousState =>
      with_task st previousState
        (removelast (localHistory st))
        (editableTask st :: localRedoHistory st)
  end.

(** [handleLocalRedo]. [prev.slice(1)] is [tail]. *)
Definition handleLocalRedo (st : EditorState) : EditorState :=
  match localRedoHistory st with
  | [] => st
  | nextState :: rest =>
      with_task st nextState (localHistory st ++ [editableTask st]) rest
  end.

(** A history operation, for statements over sequences of operations. *)
Inductive HistoryOp :=
  | OpCommit (updater : ProjectTask → ProjectTask)
  | OpUndo
  | OpRedo.

Definition run_op (st : EditorState) (o : HistoryOp) : EditorState :=
  match o with
  | OpCommit u => updateEditableTaskWithHistory u st
  | OpUndo => handleLocalUndo st
  | OpRedo => handleLocalRedo st
  end.

Definition run_ops (ops : list HistoryOp) (st : EditorState) : EditorState :=
  foldl run_op st ops.

(** ** Graph commands *)

Definition set_nextSubStepIds (ss : SubStep) (n : option (list string)) : SubStep :=
  {| ss_id := ss_id ss; ss_text := ss_text ss; notes := notes ss;
     status := status ss; actionItems := actionItems ss;
     ss_attachments := ss_attachments ss; position := position ss;
     nextSubStepIds := n |}.

Definition set_position (ss : SubStep) (p : option Position) : SubStep :=
  {| ss_id := ss_id ss; ss_text := ss_text ss; notes := notes ss;
     status := status ss; actionItems := actionItems ss;
     ss_attachments := ss_attachments ss; position := p;
     nextSubStepIds := nextSubStepIds ss |}.

Definition set_items_status (ss : SubStep) (items : option (list ActionItem))
    (s : option SubStepStatus) : SubStep :=
  {| ss_id := ss_id ss; ss_text := ss_text ss; notes := notes ss;
     status := s; actionItems := items;
     ss_attachments := ss_attachments ss; position := position ss;
     nextSubStepIds := nextSubStepIds ss |}.

(** [handleUpdateSubStep] (line 720); [updates] is the merged object
    [{...ss, ...updates(ss)}]. *)
Definition handleUpdateSubStep (subStepId : string) (updates : SubStep → SubStep)
    (st : EditorState) : EditorState :=
  updateExtended_subSteps
    (λ d, map (λ ss, if decide (ss_id ss = subStepId) then updates ss else ss)
              (orEmpty (subSteps d)))
    st.

(** [handleRemoveSubStep] (line 724). *)
Definition removeSubStep (idToRemove : string) (l : list SubStep) : list SubStep :=
  map (λ ss, set_nextSubStepIds ss
               (filter (λ i, i ≠ idToRemove) <$> nextSubStepIds ss))
      (filter (λ ss, ss_id ss ≠ idToRemove) l).

Definition handleRemoveSubStep (idToRemove : string) (st : EditorState)
    : EditorState :=
  let st1 :=
    with_selected st
      (match selectedSubStepId st with
       | Some s => if decide (s = idToRemove) then None else Some s
       | None => None
       end) in
  updateExtended_subSteps (λ d, removeSubStep idToRemove (orEmpty (subSteps d))) st1.

(** [Array.from(new Set(l))]: the elements of [l] in order of first
    occurrence. *)
Definition array_from_set (l : list string) : list string :=
  foldl (λ acc x, if decide (x ∈ acc) then acc else acc ++ [x]) [] l.

(** [handleStartConnection] (line 912); [pointer] is the canvas-local
    coordinate the handler computes from the event. *)
Definition handleStartConnection (fromId : string) (pointer : Position)
    (st : EditorState) : EditorState :=
  with_connecting st (Some (fromId, pointer)).

(** [handleEndConnection] (line 922). *)
Definition handleEndConnection (targetId : string) (st : EditorState)
    : EditorState :=
  match connectingState st with
  | None => st
  | Some (fromId, _) =>
      if decide (fromId = targetId) then with_connecting st None
      else
        with_connecting
          (handleUpdateSubStep fromId
             (λ ss, set_nextSubStepIds ss
                      (Some (array_from_set
                               (orEmpty (nextSubStepIds ss) ++ [targetId]))))
             st)
          None
  end.

(** [handleCanvasMouseUp] (line 953). *)
Definition handleCanvasMouseUp (st : EditorState) : EditorState :=
  match connectingState st with
  | Some _ => with_connecting st None
  | None => st
  end.

(** [handleToggleActionItem] (line 970). *)
Definition toggleItem (itemId : string) (item : ActionItem) : ActionItem :=
  if decide (ai_id item = itemId)
  then {| ai_id := ai_id item; ai_text := ai_text item;
          completed := negb (completed item) |}
  else item.

Definition toggleInSubStep (itemId : string) (ss : SubStep) : SubStep :=
  let newActionItems := map (toggleItem itemId) <$> actionItems ss in
  let allCompleted := forallb completed <$> newActionItems in
  let someInProgress := existsb completed <$> newActionItems in
  let newStatus :=
    match newActionItems with
    | Some (_ :: _) =>
        if default false allCompleted then COMPLETED
        else if default false someInProgress then IN_PROGRESS
        else NOT_STARTED
    | _ => NOT_STARTED
    end in
  set_items_status ss newActionItems (Some newStatus).

Definition handleToggleActionItem (subStepId itemId : string) (st : EditorState)
    : EditorState :=
  updateExtended_subSteps
    (λ d, map (λ ss, if decide (ss_id ss ≠ subStepId) then ss
                     else toggleInSubStep itemId ss)
              (orEmpty (subSteps d)))
    st.

(** ** The measured DOM *)

(** What the handlers read from [.substep-inner-canvas]. *)
Record InnerCanvas := { scrollWidth : Z; scrollHeight : Z }.

(** What the handlers read from the element behind [subStepCanvasRef]. *)
Record Canvas := {
  rect_left : Z;
  rect_top : Z;
  scrollLeft : Z;
  scrollTop : Z;
  clientWidth : Z;
  innerCanvas : option InnerCanvas;
}.

(** A card element: [offsetWidth], [offsetHeight]. *)
Record Card := { offsetWidth : Z; offsetHeight : Z }.

Record Dom := {
  subStepCanvasRef : option Canvas;
  subStepCardRefs : gmap string Card;
}.

Record PointerEvent := { clientX : Z; clientY : Z }.

(** ** Dragging (lines 828-865) *)

(** Coordinates are whole numbers here. The handlers compute on JavaScript
    numbers, and a bounding rectangle can have fractional sides, so sums are
    rounded there; what is stated about these handlers below uses only the
    comparisons and the clamping, which rounding leaves as they are, and
    never rearranges a sum. *)

(** [handleSubStepDragStart]; [cardRect] is the dragged card's bounding
    rectangle origin. *)
Definition handleSubStepDragStart (event : PointerEvent) (cardRect : Position)
    (subStepId : string) (st : EditorState) : EditorState :=
  with_drag st (Some subStepId)
    {| pos_x := clientX event - pos_x cardRect;
       pos_y := clientY event - pos_y cardRect |}.

(** The position [handleSubStepDrop] computes, before it is stored. *)
Definition dropPosition (event : PointerEvent) (canvas : Canvas) (card : Card)
    (offset : Position) : Position :=
  let cardWidth := offsetWidth card in
  let cardHeight := offsetHeight card in
  let newX := clientX event - rect_left canvas - pos_x offset + scrollLeft canvas in
  let newY := clientY event - rect_top canvas - pos_y offset + scrollTop canvas in
  match innerCanvas canvas with
  | Some ic =>
      {| pos_x := Z.max 0 (Z.min newX (scrollWidth ic - cardWidth));
         pos_y := Z.max 0 (Z.min newY (scrollHeight ic - cardHeight)) |}
  | None => {| pos_x := newX; pos_y := newY |}
  end.

(** [handleSubStepDrop]. The empty string is falsy, so [!ref.current]
    also rejects it. *)
Definition handleSubStepDrop (event : PointerEvent) (dom : Dom) (st : EditorState)
    : EditorState :=
  match draggedSubStepIdRef st, subStepCanvasRef dom with
  | Some dragged, Some canvas =>
      if decide (dragged = "") then st
      else
        match subStepCardRefs dom !! dragged with
        | None => st
        | Some card =>
            let p := dropPosition event canvas card (subStepDragOffsetRef st) in
            with_drag
              (handleUpdateSubStep dragged (λ ss, set_position ss (Some p)) st)
              None (subStepDragOffsetRef st)
        end
  | _, _ => st
  end.

(** ** Auto layout (lines 729-825) *)

Module Layout.

(** *** 1. Topological sort *)

(** [adj.get(k)!] and [inDegree.get(k)!]: the keys read are keys the first
    loop has set. *)
Definition adjOf (adj : gmap string (list string)) (k : string) : list string :=
  default [] (adj !! k).

Definition degOf (inDegree : gmap string Z) (k : string) : Z :=
  default 0 (inDegree !! k).

(** First [forEach]: [adj.set(ss.id, [])], [inDegree.set(ss.id, 0)]. *)
Definition initMaps (subSteps : list SubStep)
    : gmap string (list string) * gmap string Z :=
  foldl (λ '(adj, inDegree) ss, (<[ss_id ss := []]> adj, <[ss_id ss := 0]> inDegree))
        (∅, ∅) subSteps.

(** Body of the inner [forEach] of the second loop. *)
Definition addEdge (src : string)
    (maps : gmap string (list string) * gmap string Z) (nextId : string)
    : gmap string (list string) * gmap string Z :=
  let '(adj, inDegree) := maps in
  if decide (is_Some (adj !! nextId))
  then (<[src := adjOf adj src ++ [nextId]]> adj,
        <[nextId := degOf inDegree nextId + 1]> inDegree)
  else (adj, inDegree).

(** Second [forEach]. *)
Definition buildMaps (subSteps : list SubStep)
    : gmap string (list string) * gmap string Z :=
  foldl (λ maps ss, foldl (addEdge (ss_id ss)) maps (orEmpty (nextSubStepIds ss)))
        (initMaps subSteps) subSteps.

(** Body of [(adj.get(u) || []).forEach(v => ...)]: decrement, and push
    on reaching zero. *)
Definition relax (s : gmap string Z * list string) (v : string)
    : gmap string Z * list string :=
  let '(inDegree, queue) := s in
  let inDegree' := <[v := degOf inDegree v - 1]> inDegree in
  (inDegree', if decide (degOf inDegree' v = 0) then queue ++ [v] else queue).

(** The state of the [while] loop. *)
Record Kahn := {
  queue : list string;
  inDegree : gmap string Z;
  visitedCount : nat;
}.

(** The [for (let i = 0; i < levelSize; i++)] loop: [n] iterations left,
    [currentLevel] collected so far. [queue.shift()] on an empty queue does
    not occur, since [levelSize] is the queue's length on entry and the body
    only appends. *)
Fixpoint forLoop (adj : gmap string (list string)) (n : nat) (k : Kahn)
    (currentLevel : list string) : Kahn * list string :=
  match n with
  | O => (k, currentLevel)
  | S n' =>
      match queue k with
      | [] => (k, currentLevel)
      | u :: rest =>
          let '(deg', queue') := foldl relax (inDegree k, rest) (adjOf adj u) in
          forLoop adj n'
            {| queue := queue'; inDegree := deg';
               visitedCount := S (visitedCount k) |}
            (currentLevel ++ [u])
      end
  end.

(** The [while (queue.length > 0)] loop, with a bound on the number of
    iterations; [None] when the bound is hit with the queue non-empty. *)
Fixpoint whileLoop (fuel : nat) (adj : gmap string (list string)) (k : Kahn)
    (levels : list (list string)) : option (list (list string) * nat) :=
  match queue k with
  | [] => Some (levels, visitedCount k)
  | _ :: _ =>
      match fuel with
      | O => None
      | S fuel' =>
          let '(k', currentLevel) := forLoop adj (length (queue k)) k [] in
          whileLoop fuel' adj k' (levels ++ [currentLevel])
      end
  end.

Definition ids (subSteps : list SubStep) : list string := map ss_id subSteps.

Definition initialQueue (inDegree : gmap string Z) (subSteps : list SubStep)
    : list string :=
  map ss_id (filter (λ ss, inDegree !! ss_id ss = Some 0) subSteps).

(** The levels the [while] loop produces, and [visitedCount]. Each
    iteration but the last empties at least one positive in-degree, so
    [length subSteps + 1] iterations are enough (see [kahnLevels_total]). *)
Definition kahnLevels (subSteps : list SubStep)
    : option (list (list string) * nat) :=
  let '(adj, inDegree) := buildMaps subSteps in
  whileLoop (S (length subSteps)) adj
    {| queue := initialQueue inDegree subSteps; inDegree := inDegree;
       visitedCount := 0 |}
    [].

(** The cycle fallback (lines 771-775). *)
Definition withRemaining (subSteps : list SubStep) (levels : list (list string))
    (visited : nat) : list (list string) :=
  if decide (visited < length subSteps)%nat then
    let laidOutNodes := concat levels in
    let remainingNodes :=
      map ss_id (filter (λ ss, ss_id ss ∉ laidOutNodes) subSteps) in
    match remainingNodes with
    | [] => levels
    | _ :: _ => levels ++ [remainingNodes]
    end
  else levels.

Definition topoLevels (subSteps : list SubStep) : option (list (list string)) :=
  '(levels, visited) ← kahnLevels subSteps;
  Some (withRemaining subSteps levels visited).

(** *** 2. Column packing with wrapping *)

Definition cardWidth : Z := 192.
Definition cardHeight : Z := 76.
Definition hSpacing : Z := 60.
Definition vSpacing : Z := 20.
Definition margin : Z := 10.
Definition columnWidth : Z := cardWidth + hSpacing.

Definition columnHeight (levelNodes : list string) : Z :=
  Z.of_nat (length levelNodes) * (cardHeight + vSpacing) - vSpacing.

Record Cursor := {
  currentX : Z;
  currentY : Z;
  rowMaxHeight : Z;
}.

Definition startCursor : Cursor :=
  {| currentX := margin; currentY := margin; rowMaxHeight := 0 |}.

(** The wrap test and its effect, before a column is placed. *)
Definition wrap (canvasWidth : Z) (c : Cursor) : Cursor :=
  if decide (currentX c > margin ∧ currentX c + columnWidth > canvasWidth)
  then {| currentX := margin;
          currentY := currentY c + rowMaxHeight c + vSpacing * 2;
          rowMaxHeight := 0 |}
  else c.

(** The cursor after a column has been placed. *)
Definition advance (levelNodes : list string) (c : Cursor) : Cursor :=
  {| currentX := currentX c + columnWidth;
     currentY := currentY c;
     rowMaxHeight := Z.max (rowMaxHeight c) (columnHeight levelNodes) |}.

(** [levelNodes.forEach((nodeId, nodeIndexInLevel) => newPositions.set(...))],
    from index [i] on. *)
Fixpoint placeColumn (x y : Z) (i : nat) (levelNodes : list string)
    (newPositions : gmap string Position) : gmap string Position :=
  match levelNodes with
  | [] => newPositions
  | nodeId :: rest =>
      placeColumn x y (S i) rest
        (<[nodeId := {| pos_x := x;
                        pos_y := y + Z.of_nat i * (cardHeight + vSpacing) |}]>
           newPositions)
  end.

(** Body of [levels.forEach]. *)
Definition placeLevel (canvasWidth : Z)
    (s : Cursor * gmap string Position) (levelNodes : list string)
    : Cursor * gmap string Position :=
  let c := wrap canvasWidth s.1 in
  (advance levelNodes c,
   placeColumn (currentX c) (currentY c) 0 levelNodes s.2).

Definition placeLevels (canvasWidth : Z) (levels : list (list string))
    : Cursor * gmap string Position :=
  foldl (placeLevel canvasWidth) (startCursor, ∅) levels.

(** *** 3. Required canvas size and the state update *)

Definition requiredSize (newPositions : gmap string Position) : Z * Z :=
  map_fold (λ _ pos '(w, h),
              (Z.max w (pos_x pos + cardWidth), Z.max h (pos_y pos + cardHeight)))
           (0, 0) newPositions.

Definition applyPositions (newPositions : gmap string Position)
    (l : list SubStep) : list SubStep :=
  map (λ ss, set_position ss
               (match newPositions !! ss_id ss with
                | Some p => Some p
                | None => position ss
                end)) l.

(** The cursor the loop holds when it reaches column [j], and the cursor at
    which column [j] is placed (after the wrap test). *)
Definition cursorBefore (canvasWidth : Z) (levels : list (list string)) (j : nat)
    : Cursor :=
  (placeLevels canvasWidth (take j levels)).1.

Definition columnOrigin (canvasWidth : Z) (levels : list (list string)) (j : nat)
    : Cursor :=
  wrap canvasWidth (cursorBefore canvasWidth levels j).

End Layout.

(** [handleAutoLayoutSubSteps]: the new state and, when the inner canvas
    exists, the size written to its style. [None] stands for a loop that
    did not finish within the iteration bound of [Layout.kahnLevels]. *)
Definition handleAutoLayoutSubSteps (dom : Dom) (st : EditorState)
    : option (EditorState * option InnerCanvas) :=
  match subSteps (extendedDetails (editableTask st)), subStepCanvasRef dom with
  | Some (s :: l), Some canvas =>
      levels ← Layout.topoLevels (s :: l);
      let newPositions := (Layout.placeLevels (clientWidth canvas) levels).2 in
      let '(requiredWidth, requiredHeight) := Layout.requiredSize newPositions in
      Some (updateExtended_subSteps
              (λ d, Layout.applyPositions newPositions (orEmpty (subSteps d))) st,
            (λ _, {| scrollWidth := requiredWidth + 20;
                     scrollHeight := requiredHeight + 20 |}) <$> innerCanvas canvas)
  | _, _ => Some (st, None)
  end.

(** ** The scenarios of the specification *)

Definition mkStep (i : string) (next : list string) : SubStep :=
  {| ss_id := i; ss_text := ""; notes := None; status := Some NOT_STARTED;
     actionItems := Some []; ss_attachments := Some []; position := None;
     nextSubStepIds := Some next |}.

Definition diamond : list SubStep :=
  [ mkStep "1" ["2"; "4"]; mkStep "2" ["3"]; mkStep "3" [];
    mkStep "4" ["3"]; mkStep "5" [] ].

Definition twoCycle : list SubStep :=
  [ mkStep "1" ["2"]; mkStep "2" ["1"] ].

(** ** Views and constructors used in the statements *)

(** The sub-steps of the task being edited, and a node's outgoing ids. *)
Definition stepsOf (st : EditorState) : list SubStep :=
  orEmpty (subSteps (extendedDetails (editableTask st))).

Definition outgoing (ss : SubStep) : list string := orEmpty (nextSubStepIds ss).

Definition stateOf (t : ProjectTask) : EditorState :=
  {| editableTask := t; localHistory := []; localRedoHistory := [];
     selectedSubStepId := None; connectingState := None;
     draggedSubStepIdRef := None;
     subStepDragOffsetRef := {| pos_x := 0; pos_y := 0 |} |}.

Definition taskOf (l : list SubStep) : ProjectTask :=
  {| task_id := "t"; title := ""; description := "";
     extendedDetails :=
       {| subSteps := Some l; attachments := None; reportDeck := None |} |}.

(** Number of occurrences of [v] in [l]. *)
Definition occ (v : string) (l : list string) : nat :=
  length (filter (λ x, x = v) l).

(** Number of entries of [keys] whose in-degree is positive: the measure
    that bounds the iterations of the [while] loop. *)
Definition positiveCount (keys : list string) (m : gmap string Z) : nat :=
  length (filter (λ v, 0 < Layout.degOf m v) keys).

(** The second loop of the topological sort, seen edge by edge. *)
Definition addEdgePair (maps : gmap string (list string) * gmap string Z)
    (e : string * string) : gmap string (list string) * gmap string Z :=
  Layout.addEdge e.1 maps e.2.

(** ** The layering, as the specification words it *)

(** Every (source, target) pair of the graph, in node order, with
    multiplicity. *)
Definition rawEdges (l : list SubStep) : list (string * string) :=
  l ≫= (λ ss, map (λ n, (ss_id ss, n)) (outgoing ss)).

(** The edges whose endpoints are both nodes. *)
Definition edgesOf (l : list SubStep) : list (string * string) :=
  filter (λ e, e.2 ∈ Layout.ids l) (rawEdges l).

(** In-degree of [v] counting only edges from nodes not yet peeled. *)
Definition inDegreeAfterPeeling (l : list SubStep) (peeled : list string)
    (v : string) : nat :=
  length (filter (λ e, e.2 = v ∧ (e.1 ∉ peeled)) (edgesOf l)).

(** The zero-in-degree frontier once [peeled] has been peeled off: the
    nodes not yet peeled whose remaining in-degree is zero, in node order. *)
Definition zeroInDegreeFrontier (l : list SubStep) (peeled : list string)
    : list string :=
  filter (λ v, (v ∉ peeled) ∧ inDegreeAfterPeeling l peeled v = 0%nat)
         (Layout.ids l).

(** The invariant of the peeling loop: [peeled] are the nodes already taken
    off the queue, [queue] the nodes waiting in it. *)
Record PeelInv (l : list SubStep) (peeled queue : list string)
    (inDegree : gmap string Z) : Prop := {
  inv_nodup : NoDup (peeled ++ queue);
  inv_nodes : ∀ x, x ∈ peeled ++ queue → x ∈ Layout.ids l;
  inv_deg : ∀ v, v ∈ Layout.ids l →
      Layout.degOf inDegree v = Z.of_nat (inDegreeAfterPeeling l peeled v);
  inv_zero : ∀ v, v ∈ Layout.ids l →
      (v ∈ peeled ++ queue ↔ inDegreeAfterPeeling l peeled v = 0%nat);
}.

(** The targets of node [u] that are nodes, in the order of its outgoing
    list. *)
Definition presentTargets (l : list SubStep) (u : string) : list string :=
  map snd (filter (λ e, e.1 = u) (edgesOf l)).

(** The elements of a list, each at the place of its last occurrence. *)
Fixpoint lastOccurrences (walk : list string) : list string :=
  match walk with
  | [] => []
  | x :: rest =>
      if decide (x ∈ rest) then lastOccurrences rest
      else x :: lastOccurrences rest
  end.

(** The layer after [L], [peeled] having been peeled before [L]: the
    frontier once [L] is peeled too, in the order in which the in-degrees
    reach zero while the nodes of [L] are taken in order and the targets of
    each in the order of its outgoing list. An in-degree reaches zero at the
    last edge into the node, so this is the order of the last occurrences
    among the targets walked. *)
Definition nextLayer (l : list SubStep) (peeled L : list string) : list string :=
  filter (λ v, v ∈ zeroInDegreeFrontier l (peeled ++ L))
         (lastOccurrences (L ≫= presentTargets l)).

(** The nodes no layer contains, in node order. *)
Definition unpeeled (l : list SubStep) (levels : list (list string))
    : list string :=
  filter (λ v, v ∉ concat levels) (Layout.ids l).

(** A graph in which the outgoing list of the first node lists the later
    node first. *)
Definition fanOut : list SubStep :=
  [ mkStep "A" ["C"; "B"]; mkStep "B" []; mkStep "C" [] ].

(** Two sources whose outgoing lists name the same two targets in opposite
    orders. *)
Definition crossOver : list SubStep :=
  [ mkStep "u1" ["v"; "w"]; mkStep "u2" ["w"; "v"]; mkStep "v" []; mkStep "w" [] ].

(** The status the specification assigns to a list of action items. *)
Definition statusOfItems (items : list ActionItem) (s : SubStepStatus) : Prop :=
  (items = [] → s = NOT_STARTED)
  ∧ (items ≠ [] → (∀ i, i ∈ items → completed i = true) → s = COMPLETED)
  ∧ (items ≠ [] → (∃ i, i ∈ items ∧ completed i = true) →
     (∃ i, i ∈ items ∧ completed i = false) → s = IN_PROGRESS)
  ∧ (items ≠ [] → (∀ i, i ∈ items → completed i = false) → s = NOT_STARTED).

(** Clamping to the interval from [lo] to [hi], as the specification
    words it. *)
Definition clampTo (lo hi v : Z) : Z :=
  if decide (v < lo) then lo else if decide (hi < v) then hi else v.

(** The inner canvas is at least as large as the card. The cards are
    children of the inner canvas, placed at [left: position.x || 0] and
    [top: position.y || 0] inside it (line 487), and its scroll size covers
    its children. *)
Definition holdsCard (ic : InnerCanvas) (card : Card) : Prop :=
  offsetWidth card ≤ scrollWidth ic ∧ offsetHeight card ≤ scrollHeight ic.

(** Concrete states used in the examples below. *)
Definition connectingFrom (fromId : string) (l : list SubStep) : EditorState :=
  with_connecting (stateOf (taskOf l)) (Some (fromId, {| pos_x := 0; pos_y := 0 |})).

Definition smallCanvas : Canvas :=
  {| rect_left := 0; rect_top := 0; scrollLeft := 0; scrollTop := 0;
     clientWidth := 100;
     innerCanvas := Some {| scrollWidth := 100; scrollHeight := 100 |} |}.

Definition wideCanvas : Canvas :=
  {| rect_left := 5; rect_top := 5; scrollLeft := 0; scrollTop := 0;
     clientWidth := 1000;
     innerCanvas := Some {| scrollWidth := 1000; scrollHeight := 800 |} |}.

Definition stdCard : Card := {| offsetWidth := 192; offsetHeight := 76 |}.

Definition domOf (canvas : Canvas) (l : list SubStep) : Dom :=
  {| subStepCanvasRef := Some canvas;
     subStepCardRefs := list_to_map (map (λ ss, (ss_id ss, stdCard)) l) |}.

Definition draggingState (d : string) (l : list SubStep) : EditorState :=
  with_drag (stateOf (taskOf l)) (Some d) {| pos_x := 3; pos_y := 4 |}.

(** ** Further commands of the component *)

(** [handleDeleteConnection] (line 937). *)
Definition handleDeleteConnection (sourceId targetId : string) (st : EditorState)
    : EditorState :=
  handleUpdateSubStep sourceId
    (λ ss, set_nextSubStepIds ss
             (filter (λ i, i ≠ targetId) <$> nextSubStepIds ss))
    st.

(** The default position of the [i]-th sub-step (lines 694 and 715):
    [{ x: 10 + (i % 4) * 210, y: Math.floor(i / 4) * 90 + 10 }]. *)
Definition gridPosition (i : nat) : Position :=
  {| pos_x := 10 + (Z.of_nat i mod 4) * 210;
     pos_y := (Z.of_nat i / 4) * 90 + 10 |}.

(** [handleAddSubStep] (line 713); [newId] is what
    [generateUniqueId('sub_new')] returned. *)
Definition newSubStep (newId : string) (i : nat) : SubStep :=
  {| ss_id := newId; ss_text := "新しいステップ"; notes := None;
     status := Some NOT_STARTED; actionItems := Some [];
     ss_attachments := Some []; position := Some (gridPosition i);
     nextSubStepIds := None |}.

Definition handleAddSubStep (newId : string) (st : EditorState) : EditorState :=
  let i := length (stepsOf st) in
  with_selected
    (updateExtended_subSteps
       (λ d, orEmpty (subSteps d) ++ [newSubStep newId i]) st)
    (Some newId).

(** [selectedSubStep] (line 1045): the first sub-step whose id is the
    selected one, or [null]. *)
Definition selectedSubStep (st : EditorState) : option SubStep :=
  match selectedSubStepId st with
  | None => None
  | Some s => head (filter (λ ss, ss_id ss = s) (stepsOf st))
  end.

(** [handleAddActionItem] (line 1001); [newId] is what
    [generateUniqueId('action')] returned. *)
Definition handleAddActionItem (subStepId newId : string) (st : EditorState)
    : EditorState :=
  handleUpdateSubStep subStepId
    (λ ss, set_items_status ss
             (Some (orEmpty (actionItems ss)
                    ++ [{| ai_id := newId; ai_text := "新しいアクション";
                           completed := false |}]))
             (status ss))
    st.

(** [handleRemoveActionItem] (line 1004). *)
Definition handleRemoveActionItem (subStepId itemId : string) (st : EditorState)
    : EditorState :=
  handleUpdateSubStep subStepId
    (λ ss, set_items_status ss
             (filter (λ item, ai_id item ≠ itemId) <$> actionItems ss)
             (status ss))
    st.

(** [handleActionItemUpdate] (line 966); [updates] is the merge
    [{ ...item, ...updates }]. *)
Definition handleActionItemUpdate (subStepId itemId : string)
    (updates : ActionItem → ActionItem) (st : EditorState) : EditorState :=
  handleUpdateSubStep subStepId
    (λ ss, set_items_status ss
             (map (λ item, if decide (ai_id item = itemId) then updates item
                           else item) <$> actionItems ss)
             (status ss))
    st.

(** ** Well-formed graphs and the undo timeline *)

(** The graph invariant of the data model: node ids are unique, an outgoing
    list has no duplicates, and every outgoing id is the id of another
    node. *)
Definition GraphOK (l : list SubStep) : Prop :=
  NoDup (Layout.ids l)
  ∧ ∀ ss, ss ∈ l →
      NoDup (outgoing ss)
      ∧ ∀ t, t ∈ outgoing ss → t ∈ Layout.ids l ∧ t ≠ ss_id ss.

(** Past states, the current state, and the states that can be redone, in
    chronological order. *)
Definition timeline (st : EditorState) : list ProjectTask :=
  localHistory st ++ editableTask st :: localRedoHistory st.

(** The graph of a list of sub-steps: ids and outgoing lists. *)
Definition graphOf (l : list SubStep) : list (string * list string) :=
  map (λ ss, (ss_id ss, outgoing ss)) l.

(** The user's commands on the editor, as the handlers the component binds
    to its controls. *)
Inductive Command :=
  | CmdAddSubStep (newId : string)
  | CmdRemoveSubStep (idToRemove : string)
  | CmdStartConnection (fromId : string) (pointer : Position)
  | CmdEndConnection (targetId : string)
  | CmdCanvasMouseUp
  | CmdDeleteConnection (sourceId targetId : string)
  | CmdDragStart (event : PointerEvent) (cardRect : Position) (subStepId : string)
  | CmdDrop (event : PointerEvent) (dom : Dom)
  | CmdAutoLayout (dom : Dom)
  | CmdToggleActionItem (subStepId itemId : string)
  | CmdAddActionItem (subStepId newId : string)
  | CmdRemoveActionItem (subStepId itemId : string)
  | CmdUndo
  | CmdRedo.

Definition run_command (st : EditorState) (c : Command) : EditorState :=
  match c with
  | CmdAddSubStep newId => handleAddSubStep newId st
  | CmdRemoveSubStep i => handleRemoveSubStep i st
  | CmdStartConnection a p => handleStartConnection a p st
  | CmdEndConnection b => handleEndConnection b st
  | CmdCanvasMouseUp => handleCanvasMouseUp st
  | CmdDeleteConnection a b => handleDeleteConnection a b st
  | CmdDragStart e r i => handleSubStepDragStart e r i st
  | CmdDrop e dom => handleSubStepDrop e dom st
  | CmdAutoLayout dom =>
      match handleAutoLayoutSubSteps dom st with
      | Some (st', _) => st'
      | None => st
      end
  | CmdToggleActionItem s i => handleToggleActionItem s i st
  | CmdAddActionItem s n => handleAddActionItem s n st
  | CmdRemoveActionItem s i => handleRemoveActionItem s i st
  | CmdUndo => handleLocalUndo st
  | CmdRedo => handleLocalRedo st
  end.

(** What the controls guarantee when they issue a command: a generated id
    is new, and a connection is released on the card of a node. *)
Definition admissible (st : EditorState) (c : Command) : Prop :=
  match c with
  | CmdAddSubStep newId => newId ∉ Layout.ids (stepsOf st)
  | CmdEndConnection b => b ∈ Layout.ids (stepsOf st)
  | _ => True
  end.

Definition taskSteps (t : ProjectTask) : list SubStep :=
  orEmpty (subSteps (extendedDetails t)).

(** Every state of the timeline holds a well-formed graph. *)
Definition TimelineOK (st : EditorState) : Prop :=
  ∀ t, t ∈ timeline st → GraphOK (taskSteps t).

(** Commands issued one after the other, each admissible when issued. *)
Fixpoint admissibleRun (st : EditorState) (cs : list Command) : Prop :=
  match cs with
  | [] => True
  | c :: cs' => admissible st c ∧ admissibleRun (run_command st c) cs'
  end.

(** The commands that move nodes, lay them out or edit action items; they
    are not meant to touch the node set or the edges. *)
Definition keepsGraph (c : Command) : Prop :=
  match c with
  | CmdStartConnection _ _ | CmdCanvasMouseUp | CmdDragStart _ _ _
  | CmdDrop _ _ | CmdAutoLayout _ | CmdToggleActionItem _ _
  | CmdAddActionItem _ _ | CmdRemoveActionItem _ _ => True
  | _ => False
  end.

(** ** Placement facts *)

(** Two card positions that leave at least the layout's spacing between the
    cards: one column width apart horizontally, or a card height plus the
    vertical spacing apart vertically. *)
Definition apart (p q : Position) : Prop :=
  pos_x p + Layout.columnWidth ≤ pos_x q
  ∨ pos_x q + Layout.columnWidth ≤ pos_x p
  ∨ pos_y p + Layout.cardHeight + Layout.vSpacing ≤ pos_y q
  ∨ pos_y q + Layout.cardHeight + Layout.vSpacing ≤ pos_y p.

Definition allApart (m : gmap string Position) : Prop :=
  ∀ n1 n2 p1 p2, n1 ≠ n2 → m !! n1 = Some p1 → m !! n2 = Some p2 → apart p1 p2.

(** The invariant of the packing loop: every placed card is in the current
    row left of the cursor, or in a row above. *)
Record PackInv (canvasWidth : Z) (c : Layout.Cursor)
    (m : gmap string Position) : Prop := {
  pk_cursor : Layout.margin ≤ Layout.currentX c
              ∧ Layout.margin ≤ Layout.currentY c
              ∧ 0 ≤ Layout.rowMaxHeight c;
  pk_entries : ∀ n p, m !! n = Some p →
      Layout.margin ≤ pos_x p ∧ Layout.margin ≤ pos_y p
      ∧ (pos_x p = Layout.margin ∨ pos_x p + Layout.columnWidth ≤ canvasWidth)
      ∧ ((pos_x p + Layout.columnWidth ≤ Layout.currentX c
          ∧ pos_y p + Layout.cardHeight
            ≤ Layout.currentY c + Layout.rowMaxHeight c)
         ∨ pos_y p + Layout.cardHeight + 2 * Layout.vSpacing
           ≤ Layout.currentY c);
  pk_apart : allApart m;
}.

(** ** Connectors (lines 615-634) *)

(** The list of connectors is the value of a [useMemo]: its body runs
    during a render, when the sub-steps or the map of card refs have
    changed since the render before, and reads [ref.current] of the refs
    at that moment. React sets [ref.current] once the render that mounts
    the card is over, so the card elements the body sees, [attached]
    below, are those attached when it last ran: a card on screen now need
    not be among them, and after the first display none is. The sub-steps
    it sees are the current ones, since it runs again whenever they
    change. *)

(** A connector end point; the y coordinate is the middle of a card's
    side, [position.y + offsetHeight / 2], which need not be whole. *)
Record Point := { pt_x : Q; pt_y : Q }.

Record Connector := {
  conn_id : string;
  conn_from : Point;
  conn_to : Point;
  conn_sourceId : string;
  conn_targetId : string;
}.

(** [subSteps.find(t => t.id === targetId)]. *)
Definition findSubStep (targetId : string) (l : list SubStep) : option SubStep :=
  head (filter (λ t, ss_id t = targetId) l).

(** The connectors drawn from one source to the targets in [next]. *)
Definition connectorsFrom (attached : gmap string Card) (l : list SubStep)
    (sourceSS : SubStep) (sourcePos : Point) (next : list string)
    : list Connector :=
  next ≫= (λ targetId,
    match findSubStep targetId l, attached !! targetId with
    | Some targetSS, Some targetCardElement =>
        match position targetSS with
        | Some tpos =>
            [ {| conn_id := "subconn-" +:+ ss_id sourceSS +:+ "-" +:+ targetId;
                 conn_from := sourcePos;
                 conn_to :=
                   {| pt_x := inject_Z (pos_x tpos);
                      pt_y := (inject_Z (pos_y tpos)
                               + inject_Z (offsetHeight targetCardElement) / 2)%Q |};
                 conn_sourceId := ss_id sourceSS;
                 conn_targetId := targetId |} ]
        | None => []
        end
    | _, _ => []
    end).

(** The body of [subStepConnectors]: one connector per outgoing id whose
    source and target both have a card element among [attached] and a
    position. *)
Definition subStepConnectors (attached : gmap string Card) (st : EditorState)
    : list Connector :=
  stepsOf st ≫= (λ sourceSS,
    match nextSubStepIds sourceSS with
    | Some (t :: ts) =>
        match attached !! ss_id sourceSS, position sourceSS with
        | Some sourceCardElement, Some spos =>
            connectorsFrom attached (stepsOf st) sourceSS
              {| pt_x := inject_Z (pos_x spos + offsetWidth sourceCardElement);
                 pt_y := (inject_Z (pos_y spos)
                          + inject_Z (offsetHeight sourceCardElement) / 2)%Q |}
              (t :: ts)
        | _, _ => []
        end
    | _ => []
    end).

Definition connectorEdge (c : Connector) : string * string :=
  (conn_sourceId c, conn_targetId c).

(** The node with id [i] can carry a connector end: its card element is
    among [attached] and it has a position. *)
Definition shown (attached : gmap string Card) (l : list SubStep) (i : string)
    : bool :=
  bool_decide (is_Some (attached !! i) ∧ is_Some (findSubStep i l ≫= position)).

(** The card elements of the nodes of [l], all of the standard size. *)
Definition cardsOf (l : list SubStep) : gmap string Card :=
  list_to_map (map (λ ss, (ss_id ss, stdCard)) l).

(** Three placed nodes, the first connected to the two others. *)
Definition fork : list SubStep :=
  [ set_position (mkStep "a" ["b"; "c"]) (Some {| pos_x := 10; pos_y := 10 |});
    set_position (mkStep "b" []) (Some {| pos_x := 262; pos_y := 10 |});
    set_position (mkStep "c" []) (Some {| pos_x := 262; pos_y := 106 |}) ].

(** ** Accepting proposals (lines 682-711) *)

Record Proposal := { prop_title : string; prop_description : string }.

Record ProposedActionItem := { targetSubStepId : string; item_title : string }.

Record Additions := {
  newSubSteps : list Proposal;
  newActionItems : list ProposedActionItem;
}.

Section Generator.

(** [generateUniqueId] is a function the component receives; it is taken
    here as a generator with a state of its own, called with a prefix. *)
Variable G : Type.
Variable generateUniqueId : string → G → string * G.

(** [additions.newSubSteps.map((p, index) => ...)], from index [index] on;
    [i] is the number of existing sub-steps. *)
Fixpoint createSubSteps (i index : nat) (ps : list Proposal) (g : G)
    : list SubStep * G :=
  match ps with
  | [] => ([], g)
  | p :: rest =>
      let '(newId, g1) := generateUniqueId "sub_ai" g in
      let '(created, g2) := createSubSteps i (S index) rest g1 in
      ({| ss_id := newId; ss_text := prop_title p;
          notes := Some (prop_description p);
          status := Some NOT_STARTED; actionItems := Some [];
          ss_attachments := Some [];
          position := Some (gridPosition (i + index));
          nextSubStepIds := None |} :: created, g2)
  end.

(** [itemsToAdd.map(item => ...)]. *)
Fixpoint createActionItems (items : list ProposedActionItem) (g : G)
    : list ActionItem * G :=
  match items with
  | [] => ([], g)
  | item :: rest =>
      let '(newId, g1) := generateUniqueId "action_ai" g in
      let '(created, g2) := createActionItems rest g1 in
      ({| ai_id := newId; ai_text := item_title item; completed := false |}
         :: created, g2)
  end.

(** [existingSubSteps.map(ss => ...)]. *)
Fixpoint addProposedItems (existing : list SubStep)
    (proposed : list ProposedActionItem) (g : G) : list SubStep * G :=
  match existing with
  | [] => ([], g)
  | ss :: rest =>
      let itemsToAdd :=
        filter (λ item, targetSubStepId item = ss_id ss) proposed in
      let '(ss', g1) :=
        match itemsToAdd with
        | [] => (ss, g)
        | _ :: _ =>
            let '(newItems, g1) := createActionItems itemsToAdd g in
            (set_items_status ss
               (Some (orEmpty (actionItems ss) ++ newItems)) (status ss), g1)
        end in
      let '(rest', g2) := addProposedItems rest proposed g1 in
      (ss' :: rest', g2)
  end.

(** [handleConfirmProposals]: the new state and the generator after the
    calls. *)
Definition handleConfirmProposals (additions : Additions) (g : G)
    (st : EditorState) : EditorState * G :=
  let existingSubSteps := stepsOf st in
  let i := length existingSubSteps in
  let '(createdSubSteps, g1) := createSubSteps i 0 (newSubSteps additions) g in
  let '(updatedSubSteps, g2) :=
    addProposedItems existingSubSteps (newActionItems additions) g1 in
  (updateExtended_subSteps (λ _, updatedSubSteps ++ createdSubSteps) st, g2).

End Generator.

(** * Properties *)

(** ** History *)

Lemma undo_commit (u : ProjectTask → ProjectTask) (st : EditorState) :
  handleLocalUndo (updateEditableTaskWithHistory u st)
  = with_task st (editableTask st) (localHistory st) [u (editableTask st)].
Proof.
  unfold handleLocalUndo, updateEditableTaskWithHistory; simpl.
  rewrite last_snoc, removelast_last. reflexivity.
Qed.

(** C3. For every state [st] and every committed mutation [u]: undo right
    after the commit makes the pre-mutation task current again (with the
    undo stack as it was before the commit), and redo right after that undo
    gives back exactly the state the commit had produced. *)
Theorem undo_then_redo_after_commit (u : ProjectTask → ProjectTask)
    (st : EditorState) :
  let committed := updateEditableTaskWithHistory u st in
  editableTask (handleLocalUndo committed) = editableTask st
  ∧ localHistory (handleLocalUndo committed) = localHistory st
  ∧ editableTask (handleLocalRedo (handleLocalUndo committed)) = u (editableTask st)
  ∧ handleLocalRedo (handleLocalUndo committed) = committed.
Proof.
  intros committed. unfold committed. rewrite undo_commit.
  repeat split.
Qed.

Lemma run_ops_snoc (ops : list HistoryOp) (o : HistoryOp) (st : EditorState) :
  run_ops (ops ++ [o]) st = run_op (run_ops ops st) o.
Proof. unfold run_ops. apply foldl_snoc. Qed.

(** C4. A commit appends the pre-mutation task to the undo stack and leaves
    the redo stack empty; so after any sequence of commits, undos and redos
    that ends in a commit, and in particular after undo followed by a
    commit, the redo stack is empty. *)
Theorem commit_pushes_and_clears_redo (u : ProjectTask → ProjectTask)
    (st : EditorState) (ops : list HistoryOp) :
  localHistory (updateEditableTaskWithHistory u st)
    = localHistory st ++ [editableTask st]
  ∧ localRedoHistory (updateEditableTaskWithHistory u st) = []
  ∧ localRedoHistory (updateEditableTaskWithHistory u (handleLocalUndo st)) = []
  ∧ localRedoHistory (run_ops (ops ++ [OpCommit u]) st) = [].
Proof.
  repeat split. rewrite run_ops_snoc. reflexivity.
Qed.

(** ** Node removal *)

Lemma removeSubStep_clean (idToRemove : string) (l : list SubStep) (ss : SubStep) :
  ss ∈ removeSubStep idToRemove l →
  ss_id ss ≠ idToRemove ∧ idToRemove ∉ outgoing ss.
Proof.
  unfold removeSubStep. intros Hin.
  apply list_elem_of_fmap in Hin as (ss0 & -> & Hin0).
  apply list_elem_of_filter in Hin0 as [Hne _].
  split; [exact Hne|].
  unfold outgoing; simpl. destruct (nextSubStepIds ss0) as [n|]; simpl.
  - intros Hx. apply list_elem_of_filter in Hx as [Hx _]. by apply Hx.
  - apply not_elem_of_nil.
Qed.

(** C2. After [handleRemoveSubStep id], no remaining node has the id [id]
    and no remaining node's outgoing list contains [id]; the removal and the
    purge are one state update: the undo stack gains exactly one entry, the
    task as it was before the removal. *)
Theorem remove_purges_id (idToRemove : string) (st : EditorState) :
  let st' := handleRemoveSubStep idToRemove st in
  (∀ ss, ss ∈ stepsOf st' → ss_id ss ≠ idToRemove ∧ idToRemove ∉ outgoing ss)
  ∧ stepsOf st' = removeSubStep idToRemove (stepsOf st)
  ∧ localHistory st' = localHistory st ++ [editableTask st].
Proof.
  assert (Hsteps : stepsOf (handleRemoveSubStep idToRemove st)
                   = removeSubStep idToRemove (stepsOf st)) by reflexivity.
  simpl. split; [|split; [exact Hsteps|reflexivity]].
  intros ss Hin. rewrite Hsteps in Hin. by eapply removeSubStep_clean.
Qed.

(** ** Toggling an action item *)

Lemma forallb_completed (items : list ActionItem) :
  forallb completed items = true ↔ ∀ i, i ∈ items → completed i = true.
Proof.
  rewrite forallb_forall. split; intros H i Hi; apply H.
  - by apply list_elem_of_In.
  - by apply list_elem_of_In.
Qed.

Lemma existsb_completed (items : list ActionItem) :
  existsb completed items = true ↔ ∃ i, i ∈ items ∧ completed i = true.
Proof.
  rewrite existsb_exists. split; intros (i & Hi & Hc); exists i; split; auto.
  - by apply list_elem_of_In.
  - by apply list_elem_of_In.
Qed.

Lemma status_from_items (items : list ActionItem) :
  statusOfItems items
    (match items with
     | _ :: _ =>
         if forallb completed items then COMPLETED
         else if existsb completed items then IN_PROGRESS
         else NOT_STARTED
     | [] => NOT_STARTED
     end).
Proof.
  destruct items as [|i0 rest] eqn:E.
  { repeat split; intros; congruence. }
  rewrite <- E. assert (Hne : items ≠ []) by (rewrite E; discriminate).
  clear E i0 rest.
  destruct (forallb completed items) eqn:Hall.
  - rewrite forallb_completed in Hall.
    split; [intros; congruence|]. split; [reflexivity|]. split.
    + intros _ _ (j & Hj & Hcj). rewrite (Hall j Hj) in Hcj. discriminate.
    + intros _ Hnone. destruct items as [|j r]; [congruence|].
      assert (Hj : j ∈ j :: r) by apply list_elem_of_here.
      pose proof (Hnone j Hj) as Hf. rewrite (Hall j Hj) in Hf. discriminate.
  - destruct (existsb completed items) eqn:Hex.
    + rewrite existsb_completed in Hex. destruct Hex as (i & Hi & Hc).
      split; [intros; congruence|]. split.
      * intros _ Hall'. rewrite <- forallb_completed in Hall'. congruence.
      * split; [reflexivity|]. intros _ Hnone.
        rewrite (Hnone i Hi) in Hc. discriminate.
    + split; [intros; congruence|]. split.
      * intros _ Hall'. rewrite <- forallb_completed in Hall'. congruence.
      * split; [|reflexivity]. intros _ Hsome _.
        rewrite <- existsb_completed in Hsome. congruence.
Qed.

Lemma toggleInSubStep_status (itemId : string) (ss : SubStep) :
  ∃ s, status (toggleInSubStep itemId ss) = Some s
       ∧ statusOfItems (orEmpty (actionItems (toggleInSubStep itemId ss))) s.
Proof.
  unfold toggleInSubStep; simpl.
  destruct (actionItems ss) as [items|]; simpl.
  - eexists; split; [reflexivity|].
    apply (status_from_items (map (toggleItem itemId) items)).
  - eexists; split; [reflexivity|]. repeat split; intros; congruence.
Qed.

(** C10. [handleToggleActionItem subStepId itemId] maps over the sub-steps
    in place: a sub-step with another id is returned as it is; in a sub-step
    with that id the matching items have [completed] negated, the status is
    recomputed from the resulting items (none: Not Started; all completed:
    Completed; some but not all: In Progress; none completed: Not Started),
    and every other field is kept. *)
Theorem toggle_recomputes_status (subStepId itemId : string) (st : EditorState) :
  Forall2
    (λ ss ss',
       (ss_id ss ≠ subStepId → ss' = ss)
       ∧ (ss_id ss = subStepId →
          actionItems ss' = map (toggleItem itemId) <$> actionItems ss
          ∧ (∃ s, status ss' = Some s ∧ statusOfItems (orEmpty (actionItems ss')) s)
          ∧ ss_id ss' = ss_id ss ∧ ss_text ss' = ss_text ss
          ∧ notes ss' = notes ss ∧ ss_attachments ss' = ss_attachments ss
          ∧ position ss' = position ss
          ∧ nextSubStepIds ss' = nextSubStepIds ss))
    (stepsOf st) (stepsOf (handleToggleActionItem subStepId itemId st)).
Proof.
  unfold stepsOf at 2; simpl. fold (stepsOf st).
  apply Forall2_fmap_r, Forall_Forall2_diag, Forall_forall.
  intros ss _. simpl. destruct (decide (ss_id ss ≠ subStepId)) as [Hne|Heq].
  - split; [reflexivity|]. intros; contradiction.
  - split; [intros; contradiction|]. intros _.
    split; [reflexivity|]. split; [apply toggleInSubStep_status|].
    repeat split.
Qed.

(** ** Connections *)

Lemma array_from_set_snoc (l : list string) (x : string) :
  array_from_set (l ++ [x])
  = if decide (x ∈ array_from_set l) then array_from_set l
    else array_from_set l ++ [x].
Proof. unfold array_from_set. by rewrite foldl_snoc. Qed.

Lemma elem_of_array_from_set (l : list string) (x : string) :
  x ∈ array_from_set l ↔ x ∈ l.
Proof.
  induction l as [|y l IH] using rev_ind.
  - reflexivity.
  - rewrite array_from_set_snoc. destruct (decide (y ∈ array_from_set l)) as [Hy|Hy].
    + rewrite elem_of_app, list_elem_of_singleton, IH.
      split; [tauto|]. intros [H| ->]; [exact H|]. by apply IH.
    + rewrite !elem_of_app, IH. reflexivity.
Qed.

Lemma array_from_set_NoDup_id (l : list string) :
  NoDup l → array_from_set l = l.
Proof.
  induction l as [|y l IH] using rev_ind; [reflexivity|].
  intros Hnd. apply NoDup_app in Hnd as (Hl & Hy & _).
  rewrite array_from_set_snoc, (IH Hl).
  destruct (decide (y ∈ l)) as [Hin|_]; [|reflexivity].
  exfalso. apply (Hy y Hin). apply list_elem_of_here.
Qed.

Lemma array_from_set_NoDup (l : list string) : NoDup (array_from_set l).
Proof.
  induction l as [|y l IH] using rev_ind; [constructor|].
  rewrite array_from_set_snoc.
  destruct (decide (y ∈ array_from_set l)) as [Hin|Hnin]; [exact IH|].
  apply NoDup_app. split; [exact IH|]. split; [|apply NoDup_singleton].
  intros x Hx Hx'. apply list_elem_of_singleton in Hx'. by subst.
Qed.

(** Adding [targetId] to an outgoing list, as [handleEndConnection] does. *)
Lemma add_target_present (l : list string) (targetId : string) :
  targetId ∈ l → array_from_set (l ++ [targetId]) = array_from_set l.
Proof.
  intros Hin. rewrite array_from_set_snoc.
  destruct (decide (targetId ∈ array_from_set l)) as [_|Hn]; [reflexivity|].
  exfalso. apply Hn. by apply elem_of_array_from_set.
Qed.

Lemma add_target_absent (l : list string) (targetId : string) :
  targetId ∉ l →
  array_from_set (l ++ [targetId]) = array_from_set l ++ [targetId].
Proof.
  intros Hin. rewrite array_from_set_snoc.
  destruct (decide (targetId ∈ array_from_set l)) as [Hn|_]; [|reflexivity].
  exfalso. apply Hin. by apply elem_of_array_from_set.
Qed.

Lemma outgoing_set (ss : SubStep) (l : list string) :
  outgoing (set_nextSubStepIds ss (Some l)) = l.
Proof. reflexivity. Qed.

Lemma stepsOf_update (i : string) (f : SubStep → SubStep) (st : EditorState) :
  stepsOf (handleUpdateSubStep i f st)
  = map (λ ss, if decide (ss_id ss = i) then f ss else ss) (stepsOf st).
Proof. reflexivity. Qed.

Lemma map_update_absent (i : string) (f : SubStep → SubStep) (l : list SubStep) :
  i ∉ map ss_id l →
  map (λ ss, if decide (ss_id ss = i) then f ss else ss) l = l.
Proof.
  induction l as [|ss l IH]; [reflexivity|].
  simpl. intros Hn. apply not_elem_of_cons in Hn as [Hne Hn].
  destruct (decide (ss_id ss = i)) as [Heq|_]; [congruence|].
  by rewrite (IH Hn).
Qed.

Lemma stepsOf_end_connection (targetId fromId : string) (p : Position)
    (st : EditorState) :
  connectingState st = Some (fromId, p) → fromId ≠ targetId →
  stepsOf (handleEndConnection targetId st)
  = map (λ ss, if decide (ss_id ss = fromId)
               then set_nextSubStepIds ss
                      (Some (array_from_set (outgoing ss ++ [targetId])))
               else ss) (stepsOf st).
Proof.
  intros Hc Hne. unfold handleEndConnection. rewrite Hc.
  destruct (decide (fromId = targetId)); [contradiction|]. reflexivity.
Qed.

(** C5 (as stated) fails: releasing on an id that is not a node appends it. *)
Lemma end_connection_missing_target :
  ("z" ∉ map ss_id (stepsOf (connectingFrom "a" [mkStep "a" []])))
  ∧ map outgoing (stepsOf (connectingFrom "a" [mkStep "a" []])) = [[]]
  ∧ map outgoing
      (stepsOf (handleEndConnection "z" (connectingFrom "a" [mkStep "a" []])))
    = [["z"]].
Proof.
  split; [|split; reflexivity].
  simpl. intros H. apply list_elem_of_singleton in H. discriminate.
Qed.

(** C5 (amended). Releasing a connection gesture that started at [fromId]
    on [targetId] ends the gesture and:
    - when [fromId = targetId], commits nothing: task and undo stack are
      unchanged;
    - when no node has the id [fromId], leaves the sub-steps unchanged;
    - otherwise rewrites only the nodes whose id is [fromId], and in them
      only [nextSubStepIds]: if [targetId] is already an outgoing id the
      list is only deduplicated (same elements, and the same list when it
      had no duplicates); if not, [targetId] is appended to the
      deduplicated list. Whether [targetId] is the id of a node is not
      looked at. *)
Theorem end_connection_effect (targetId fromId : string) (p : Position)
    (st : EditorState) :
  connectingState st = Some (fromId, p) →
  let st' := handleEndConnection targetId st in
  connectingState st' = None
  ∧ (fromId = targetId →
     editableTask st' = editableTask st ∧ localHistory st' = localHistory st)
  ∧ (fromId ∉ map ss_id (stepsOf st) → stepsOf st' = stepsOf st)
  ∧ (fromId ≠ targetId →
     Forall2
       (λ ss ss',
          (ss_id ss ≠ fromId → ss' = ss)
          ∧ (ss_id ss = fromId →
             ss' = set_nextSubStepIds ss (Some (outgoing ss'))
             ∧ (targetId ∈ outgoing ss →
                outgoing ss' = array_from_set (outgoing ss)
                ∧ (∀ x, x ∈ outgoing ss' ↔ x ∈ outgoing ss)
                ∧ (NoDup (outgoing ss) → outgoing ss' = outgoing ss))
             ∧ (targetId ∉ outgoing ss →
                outgoing ss' = array_from_set (outgoing ss) ++ [targetId])))
       (stepsOf st) (stepsOf st')).
Proof.
  intros Hc st'. split; [|split; [|split]].
  - unfold st', handleEndConnection. rewrite Hc.
    destruct (decide (fromId = targetId)); reflexivity.
  - intros Heq. unfold st', handleEndConnection. rewrite Hc.
    destruct (decide (fromId = targetId)); [|contradiction]. split; reflexivity.
  - intros Habs. unfold st', handleEndConnection. rewrite Hc.
    destruct (decide (fromId = targetId)); [reflexivity|].
    change (stepsOf (handleUpdateSubStep fromId
             (λ ss, set_nextSubStepIds ss
                      (Some (array_from_set (outgoing ss ++ [targetId])))) st)
            = stepsOf st).
    rewrite stepsOf_update. by apply map_update_absent.
  - intros Hne. unfold st'. rewrite (stepsOf_end_connection _ _ _ _ Hc Hne).
    apply Forall2_fmap_r, Forall_Forall2_diag, Forall_forall.
    intros ss _. unfold compose.
    destruct (decide (ss_id ss = fromId)) as [Heq|Hneq].
    + split; [intros; contradiction|]. intros _.
      split; [reflexivity|]. split.
      * intros Hin. rewrite outgoing_set, (add_target_present _ _ Hin).
        split; [reflexivity|]. split.
        -- intros x. apply elem_of_array_from_set.
        -- apply array_from_set_NoDup_id.
      * intros Hnin. rewrite outgoing_set. by apply add_target_absent.
    + split; [reflexivity|]. intros; contradiction.
Qed.

Lemma end_connection_effect_witness :
  let st := connectingFrom "a" [mkStep "a" ["b"]; mkStep "b" []; mkStep "c" []] in
  map outgoing (stepsOf (handleEndConnection "c" st)) = [["b"; "c"]; []; []]
  ∧ connectingState (handleEndConnection "c" st) = None.
Proof.
  intros st.
  destruct (end_connection_effect "c" "a" {| pos_x := 0; pos_y := 0 |} st eq_refl)
    as (Hnone & _ & _ & _).
  split; [reflexivity|exact Hnone].
Defined.

Lemma add_target_twice (l : list string) (b : string) :
  array_from_set (array_from_set (l ++ [b]) ++ [b]) = array_from_set (l ++ [b]).
Proof.
  rewrite add_target_present.
  - apply array_from_set_NoDup_id, array_from_set_NoDup.
  - apply elem_of_array_from_set, elem_of_app. right. apply list_elem_of_here.
Qed.

(** C8. Releasing a gesture from [a] on [b] a second time leaves the
    sub-steps exactly as the first release left them; and when every node
    with id [a] already has [b] among its outgoing ids, the first release
    keeps every node's id and the elements of every outgoing list. *)
Theorem add_edge_idempotent (a b : string) (p p' : Position) (st : EditorState) :
  connectingState st = Some (a, p) →
  let once := handleEndConnection b st in
  let twice := handleEndConnection b (handleStartConnection a p' once) in
  stepsOf twice = stepsOf once
  ∧ ((∀ ss, ss ∈ stepsOf st → ss_id ss = a → b ∈ outgoing ss) →
     Forall2 (λ ss ss', ss_id ss' = ss_id ss
                        ∧ ∀ x, x ∈ outgoing ss' ↔ x ∈ outgoing ss)
             (stepsOf st) (stepsOf once)).
Proof.
  intros Hc once twice.
  destruct (decide (a = b)) as [Heq|Hne].
  - assert (Honce : stepsOf once = stepsOf st).
    { unfold once, handleEndConnection. rewrite Hc.
      destruct (decide (a = b)); [reflexivity|contradiction]. }
    split.
    + unfold twice, handleEndConnection at 1. simpl.
      destruct (decide (a = b)); [reflexivity|contradiction].
    + intros _. rewrite Honce. apply Forall_Forall2_diag, Forall_forall.
      intros ss _. split; reflexivity.
  - split.
    + unfold twice.
      rewrite (stepsOf_end_connection b a p' (handleStartConnection a p' once)
                 eq_refl Hne).
      change (stepsOf (handleStartConnection a p' once)) with (stepsOf once).
      unfold once. rewrite (stepsOf_end_connection _ _ _ _ Hc Hne).
      rewrite <- list_fmap_compose. apply list_fmap_ext.
      intros i ss _. unfold compose.
      destruct (decide (ss_id ss = a)) as [Ha|Hna].
      * simpl. destruct (decide (ss_id ss = a)); [|contradiction].
        unfold set_nextSubStepIds at 1; simpl.
        rewrite outgoing_set, add_target_twice. reflexivity.
      * destruct (decide (ss_id ss = a)); [contradiction|reflexivity].
    + intros Hexists. unfold once.
      rewrite (stepsOf_end_connection _ _ _ _ Hc Hne).
      apply Forall2_fmap_r, Forall_Forall2_diag, Forall_forall.
      intros ss Hin. unfold compose.
      destruct (decide (ss_id ss = a)) as [Ha|Hna]; [|split; reflexivity].
      split; [reflexivity|]. intros x. rewrite outgoing_set.
      rewrite (add_target_present _ _ (Hexists ss Hin Ha)).
      apply elem_of_array_from_set.
Qed.

Lemma add_edge_idempotent_witness :
  let st := connectingFrom "a" [mkStep "a" ["c"]; mkStep "b" []] in
  let once := handleEndConnection "b" st in
  stepsOf (handleEndConnection "b"
             (handleStartConnection "a" {| pos_x := 7; pos_y := 9 |} once))
  = stepsOf once
  ∧ map outgoing (stepsOf once) = [["c"; "b"]; []].
Proof.
  intros st once. split; [|reflexivity].
  apply (add_edge_idempotent "a" "b" {| pos_x := 0; pos_y := 0 |}
           {| pos_x := 7; pos_y := 9 |} st eq_refl).
Defined.

(** ** Dropping a dragged node *)

Lemma stepsOf_drop (event : PointerEvent) (dom : Dom) (st : EditorState)
    (dragged : string) (canvas : Canvas) (card : Card) :
  draggedSubStepIdRef st = Some dragged → dragged ≠ "" →
  subStepCanvasRef dom = Some canvas →
  subStepCardRefs dom !! dragged = Some card →
  stepsOf (handleSubStepDrop event dom st)
  = map (λ ss, if decide (ss_id ss = dragged)
               then set_position ss
                      (Some (dropPosition event canvas card (subStepDragOffsetRef st)))
               else ss) (stepsOf st).
Proof.
  intros Hd Hne Hc Hcard. unfold handleSubStepDrop. rewrite Hd, Hc.
  destruct (decide (dragged = "")); [contradiction|].
  rewrite Hcard. reflexivity.
Qed.

(** C9. On drop, every node with the dragged id gets the position
    [pointer - dragStartOffset] (pointer taken in content coordinates:
    client coordinate minus canvas origin plus scroll), each axis clamped to
    the interval from 0 to [containerSize - nodeSize], the container being
    the inner canvas as measured at the drop; nothing measured at drag start
    is used but the offset. The inner canvas is the parent of the cards
    (lines 1197-1198), so its scroll size is at least the size of a card:
    under that condition the dropped card lies inside the scrollable content
    area on both axes, for every pointer coordinate, and a position already
    inside is kept as it is. The drop ends the drag. *)
Theorem drop_clamps_into_container (event : PointerEvent) (dom : Dom)
    (st : EditorState) (dragged : string) (canvas : Canvas) (card : Card)
    (ic : InnerCanvas) :
  draggedSubStepIdRef st = Some dragged → dragged ≠ "" →
  subStepCanvasRef dom = Some canvas →
  subStepCardRefs dom !! dragged = Some card →
  innerCanvas canvas = Some ic →
  holdsCard ic card →
  let offset := subStepDragOffsetRef st in
  let rawX := clientX event - rect_left canvas - pos_x offset + scrollLeft canvas in
  let rawY := clientY event - rect_top canvas - pos_y offset + scrollTop canvas in
  let maxX := scrollWidth ic - offsetWidth card in
  let maxY := scrollHeight ic - offsetHeight card in
  let p := {| pos_x := clampTo 0 maxX rawX; pos_y := clampTo 0 maxY rawY |} in
  stepsOf (handleSubStepDrop event dom st)
  = map (λ ss, if decide (ss_id ss = dragged) then set_position ss (Some p) else ss)
        (stepsOf st)
  ∧ draggedSubStepIdRef (handleSubStepDrop event dom st) = None
  ∧ 0 ≤ pos_x p ∧ pos_x p + offsetWidth card ≤ scrollWidth ic
  ∧ 0 ≤ pos_y p ∧ pos_y p + offsetHeight card ≤ scrollHeight ic
  ∧ (0 ≤ rawX ≤ maxX → pos_x p = rawX)
  ∧ (0 ≤ rawY ≤ maxY → pos_y p = rawY).
Proof.
  intros Hd Hne Hc Hcard Hic [Hw Hh] offset rawX rawY maxX maxY p.
  split; [|split].
  - rewrite (stepsOf_drop _ _ _ _ _ _ Hd Hne Hc Hcard).
    unfold dropPosition. rewrite Hic.
    apply list_fmap_ext. intros i ss _.
    destruct (decide (ss_id ss = dragged)); [|reflexivity].
    do 2 f_equal. unfold p, clampTo, maxX, maxY, rawX, rawY, offset.
    f_equal.
    + destruct (decide (_ < 0)); [lia|]. destruct (decide (_ < _)); lia.
    + destruct (decide (_ < 0)); [lia|]. destruct (decide (_ < _)); lia.
  - unfold handleSubStepDrop. rewrite Hd, Hc.
    destruct (decide (dragged = "")); [contradiction|].
    rewrite Hcard. reflexivity.
  - unfold p, clampTo, maxX, maxY. cbn [pos_x pos_y].
    destruct (decide (rawX < 0)); destruct (decide (rawY < 0));
      try destruct (decide (scrollWidth ic - offsetWidth card < rawX));
      try destruct (decide (scrollHeight ic - offsetHeight card < rawY));
      repeat split; lia.
Qed.

Lemma drop_clamps_into_container_witness :
  let l := [mkStep "a" []; mkStep "b" []] in
  holdsCard {| scrollWidth := 1000; scrollHeight := 800 |} stdCard
  ∧ map position
      (stepsOf (handleSubStepDrop {| clientX := 2000; clientY := 50 |}
                  (domOf wideCanvas l) (draggingState "b" l)))
    = [None; Some {| pos_x := 808; pos_y := 41 |}].
Proof.
  intros l.
  assert (Hfit : holdsCard {| scrollWidth := 1000; scrollHeight := 800 |} stdCard).
  { split; vm_compute; discriminate. }
  split; [exact Hfit|].
  destruct (drop_clamps_into_container {| clientX := 2000; clientY := 50 |}
              (domOf wideCanvas l) (draggingState "b" l) "b" wideCanvas stdCard
              {| scrollWidth := 1000; scrollHeight := 800 |}
              eq_refl ltac:(discriminate) eq_refl ltac:(vm_compute; reflexivity)
              eq_refl Hfit) as (Hsteps & _).
  rewrite Hsteps. reflexivity.
Defined.

(** ** Column packing *)

Section Packing.
Import Layout.
Variable canvasWidth : Z.

Lemma placeLevels_snoc (levels : list (list string)) (L : list string) :
  placeLevels canvasWidth (levels ++ [L])
  = placeLevel canvasWidth (placeLevels canvasWidth levels) L.
Proof. unfold placeLevels. apply foldl_snoc. Qed.

Lemma wrap_x_ge (c : Cursor) : margin ≤ currentX c → margin ≤ currentX (wrap canvasWidth c).
Proof. unfold wrap. case_decide; simpl; lia. Qed.

Lemma cursor_x_ge (levels : list (list string)) :
  margin ≤ currentX (placeLevels canvasWidth levels).1.
Proof.
  induction levels as [|L levels IH] using rev_ind; [reflexivity|].
  rewrite placeLevels_snoc. simpl.
  pose proof (wrap_x_ge _ IH). unfold columnWidth, cardWidth, hSpacing. lia.
Qed.

Lemma cursor_x_gt (levels : list (list string)) :
  levels ≠ [] → margin < currentX (placeLevels canvasWidth levels).1.
Proof.
  destruct levels as [|L levels _] using rev_ind; [congruence|]. intros _.
  rewrite placeLevels_snoc. simpl.
  pose proof (wrap_x_ge _ (cursor_x_ge levels)).
  unfold columnWidth, cardWidth, hSpacing. lia.
Qed.

Lemma placeColumn_other (x y : Z) (L : list string) (i : nat)
    (m : gmap string Position) (n : string) :
  n ∉ L → placeColumn x y i L m !! n = m !! n.
Proof.
  revert i m. induction L as [|a L IH]; intros i m Hn; [reflexivity|].
  apply not_elem_of_cons in Hn as [Hne Hn]. simpl.
  rewrite (IH _ _ Hn). by apply lookup_insert_ne.
Qed.

Lemma placeColumn_lookup (x y : Z) (L : list string) (i : nat)
    (m : gmap string Position) (k : nat) (n : string) :
  NoDup L → L !! k = Some n →
  placeColumn x y i L m !! n
  = Some {| pos_x := x;
            pos_y := y + Z.of_nat (i + k) * (cardHeight + vSpacing) |}.
Proof.
  revert i m k. induction L as [|a L IH]; intros i m k Hnd Hk; [done|].
  apply NoDup_cons in Hnd as [Ha Hnd]. destruct k as [|k]; simpl in *.
  - injection Hk as ->. rewrite (placeColumn_other _ _ _ _ _ _ Ha).
    rewrite lookup_insert_eq. do 3 f_equal. lia.
  - rewrite (IH _ _ _ Hnd Hk). do 3 f_equal. lia.
Qed.

Lemma columnOrigin_app (levels : list (list string)) (L : list string) (j : nat) :
  (j ≤ length levels)%nat →
  columnOrigin canvasWidth (levels ++ [L]) j = columnOrigin canvasWidth levels j.
Proof.
  intros Hj. unfold columnOrigin, cursorBefore.
  by rewrite take_app_le.
Qed.

Lemma elem_of_concat (x : string) (ls : list (list string)) :
  x ∈ concat ls ↔ ∃ l, l ∈ ls ∧ x ∈ l.
Proof.
  induction ls as [|l ls IH]; simpl.
  - split; [intros H; inversion H|intros (l & H & _); inversion H].
  - rewrite elem_of_app, IH. split.
    + intros [H|(l' & H1 & H2)].
      * exists l. split; [apply list_elem_of_here|exact H].
      * exists l'. split; [by apply list_elem_of_further|exact H2].
    + intros (l' & H1 & H2). apply elem_of_cons in H1 as [->|H1].
      * by left.
      * right. by exists l'.
Qed.

Lemma placed_position (levels : list (list string)) :
  NoDup (concat levels) →
  ∀ j L k n, levels !! j = Some L → L !! k = Some n →
    (placeLevels canvasWidth levels).2 !! n
    = Some {| pos_x := currentX (columnOrigin canvasWidth levels j);
              pos_y := currentY (columnOrigin canvasWidth levels j)
                       + Z.of_nat k * (cardHeight + vSpacing) |}.
Proof.
  induction levels as [|L' levels IH] using rev_ind; intros Hnd j L k n Hj Hk.
  { done. }
  rewrite concat_app in Hnd. simpl in Hnd. rewrite app_nil_r in Hnd.
  apply NoDup_app in Hnd as (Hnd1 & Hdisj & Hnd2).
  rewrite placeLevels_snoc. unfold placeLevel; simpl.
  destruct (decide (j < length levels)%nat) as [Hlt|Hge].
  - rewrite lookup_app_l in Hj by exact Hlt.
    rewrite columnOrigin_app by lia.
    rewrite placeColumn_other; [by eapply IH|].
    apply Hdisj. apply elem_of_concat. exists L. split.
    + by eapply list_elem_of_lookup_2.
    + by eapply list_elem_of_lookup_2.
  - assert (j = length levels) as ->.
    { apply lookup_lt_Some in Hj. rewrite length_app in Hj. simpl in Hj. lia. }
    rewrite list_lookup_middle in Hj by reflexivity. injection Hj as <-.
    rewrite (placeColumn_lookup _ _ _ _ _ _ _ Hnd2 Hk).
    unfold columnOrigin, cursorBefore. rewrite take_app_length. reflexivity.
Qed.

(** C7. Column packing, for every layer sequence [levels] and width:
    - a column's height is (layer size) * (card height + vertical spacing)
      - vertical spacing;
    - the first column is placed at the margin without a wrap test; the
      cursor after column [j] is the column's origin moved right by one
      column width, with the row maximum raised to the column's height;
    - before any later column the x cursor is beyond the margin, so the
      column wraps exactly when cursor + column width exceeds the width:
      x goes back to the margin, y advances by row maximum + 2 * vertical
      spacing, the row maximum is reset;
    - when no node occurs twice in the layers, node [k] of layer [j] is put
      at the column's x and at the column's y + k * (card height + vertical
      spacing), so two nodes of one layer share x and the lower one starts
      at least a card height plus the vertical spacing below the upper. *)
Theorem column_packing (levels : list (list string)) :
  (∀ L, columnHeight L
        = Z.of_nat (length L) * (cardHeight + vSpacing) - vSpacing)
  ∧ columnOrigin canvasWidth levels 0 = startCursor
  ∧ (∀ j L, levels !! j = Some L →
       cursorBefore canvasWidth levels (S j)
       = {| currentX := currentX (columnOrigin canvasWidth levels j) + columnWidth;
            currentY := currentY (columnOrigin canvasWidth levels j);
            rowMaxHeight := Z.max (rowMaxHeight (columnOrigin canvasWidth levels j))
                                  (columnHeight L) |})
  ∧ (∀ j, (0 < j ≤ length levels)%nat →
       let c := cursorBefore canvasWidth levels j in
       margin < currentX c
       ∧ (currentX c + columnWidth > canvasWidth →
          columnOrigin canvasWidth levels j
          = {| currentX := margin;
               currentY := currentY c + rowMaxHeight c + 2 * vSpacing;
               rowMaxHeight := 0 |})
       ∧ (currentX c + columnWidth ≤ canvasWidth →
          columnOrigin canvasWidth levels j = c))
  ∧ (NoDup (concat levels) →
     (∀ j L k n, levels !! j = Some L → L !! k = Some n →
        (placeLevels canvasWidth levels).2 !! n
        = Some {| pos_x := currentX (columnOrigin canvasWidth levels j);
                  pos_y := currentY (columnOrigin canvasWidth levels j)
                           + Z.of_nat k * (cardHeight + vSpacing) |})
     ∧ (∀ j L k k' n n' p p',
          levels !! j = Some L → L !! k = Some n → L !! k' = Some n' →
          (k < k')%nat →
          (placeLevels canvasWidth levels).2 !! n = Some p →
          (placeLevels canvasWidth levels).2 !! n' = Some p' →
          pos_x p = pos_x p'
          ∧ pos_y p + cardHeight + vSpacing ≤ pos_y p')).
Proof.
  split; [reflexivity|]. split; [reflexivity|]. split; [|split].
  - intros j L Hj. unfold cursorBefore at 1.
    rewrite (take_S_r _ _ _ Hj), placeLevels_snoc. reflexivity.
  - intros j Hj c.
    assert (Hgt : margin < currentX c).
    { apply cursor_x_gt. intros Hnil. apply (f_equal length) in Hnil.
      rewrite length_take in Hnil. simpl in Hnil. lia. }
    split; [exact Hgt|]. unfold columnOrigin. fold c. unfold wrap. split.
    + intros Hw. case_decide as Hd; [|lia]. f_equal; lia.
    + intros Hw. case_decide as Hd; [lia|reflexivity].
  - intros Hnd. split; [by apply placed_position|].
    intros j L k k' n n' p p' Hj Hk Hk' Hlt Hp Hp'.
    rewrite (placed_position _ Hnd _ _ _ _ Hj Hk) in Hp.
    rewrite (placed_position _ Hnd _ _ _ _ Hj Hk') in Hp'.
    injection Hp as <-. injection Hp' as <-. simpl.
    unfold cardHeight, vSpacing. split; [reflexivity|]. lia.
Qed.

End Packing.

Lemma column_packing_witness :
  NoDup (concat [["1"; "5"]; ["2"; "4"]; ["3"]])
  ∧ (Layout.placeLevels 300 [["1"; "5"]; ["2"; "4"]; ["3"]]).2 !! "4"
    = Some {| pos_x := 10; pos_y := 318 |}
  ∧ (Layout.placeLevels 1000 [["1"; "5"]; ["2"; "4"]; ["3"]]).2 !! "4"
    = Some {| pos_x := 262; pos_y := 106 |}.
Proof.
  assert (Hnd : NoDup (concat [["1"; "5"]; ["2"; "4"]; ["3"]])).
  { apply (bool_decide_unpack (NoDup _)). vm_compute. exact I. }
  split; [exact Hnd|]. split.
  - destruct (column_packing 300 [["1"; "5"]; ["2"; "4"]; ["3"]])
      as (_ & _ & _ & _ & Hpos).
    destruct (Hpos Hnd) as [Hat _].
    rewrite (Hat 1%nat ["2"; "4"] 1%nat "4" eq_refl eq_refl). reflexivity.
  - destruct (column_packing 1000 [["1"; "5"]; ["2"; "4"]; ["3"]])
      as (_ & _ & _ & _ & Hpos).
    destruct (Hpos Hnd) as [Hat _].
    rewrite (Hat 1%nat ["2"; "4"] 1%nat "4" eq_refl eq_refl). reflexivity.
Defined.

(** ** Layering: the adjacency and in-degree maps *)

Section BuildMaps.
Import Layout.

Lemma foldl_bind_edges (l : list SubStep)
    (maps : gmap string (list string) * gmap string Z) :
  foldl (λ maps ss, foldl (addEdge (ss_id ss)) maps (orEmpty (nextSubStepIds ss)))
        maps l
  = foldl addEdgePair maps (rawEdges l).
Proof.
  revert maps. induction l as [|ss l IH]; intros maps; [reflexivity|].
  unfold rawEdges. simpl. rewrite foldl_app. fold (rawEdges l).
  rewrite <- IH. f_equal.
  unfold outgoing. generalize (orEmpty (nextSubStepIds ss)). clear.
  intros ns. revert maps. induction ns as [|n ns IHn]; intros maps; [reflexivity|].
  simpl. apply IHn.
Qed.

Lemma initMaps_lookup (l : list SubStep) (k : string) :
  (initMaps l).1 !! k = (if decide (k ∈ ids l) then Some [] else None)
  ∧ (initMaps l).2 !! k = (if decide (k ∈ ids l) then Some 0 else None).
Proof.
  unfold initMaps, ids. induction l as [|ss l IH] using rev_ind.
  - simpl. rewrite !lookup_empty.
    destruct (decide (k ∈ [])) as [H|_]; [inversion H|done].
  - rewrite foldl_snoc, map_app. simpl.
    destruct IH as [IHa IHd]. revert IHa IHd.
    destruct (foldl _ _ l) as [adj deg]. simpl. intros IHa IHd.
    destruct (decide (k = ss_id ss)) as [->|Hne].
    + rewrite !lookup_insert_eq.
      destruct (decide (ss_id ss ∈ map ss_id l ++ [ss_id ss])) as [_|H]; [done|].
      exfalso. apply H. apply elem_of_app. right. apply list_elem_of_here.
    + rewrite !lookup_insert_ne by congruence. rewrite IHa, IHd.
      destruct (decide (k ∈ map ss_id l)) as [Hin|Hnin];
        destruct (decide (k ∈ map ss_id l ++ [ss_id ss])) as [Hin'|Hnin'];
        try done.
      * exfalso. apply Hnin'. apply elem_of_app. by left.
      * exfalso. apply elem_of_app in Hin' as [H0|H0]; [done|].
        apply list_elem_of_singleton in H0. congruence.
Qed.

Lemma filter_snoc {A} (P : A → Prop) `{∀ x, Decision (P x)} (l : list A) (x : A) :
  filter P (l ++ [x]) = filter P l ++ (if decide (P x) then [x] else []).
Proof. rewrite filter_app. f_equal. Qed.

Lemma build_inv (V : list string) (adj0 : gmap string (list string))
    (deg0 : gmap string Z) (R : list (string * string)) :
  (∀ k, adj0 !! k = if decide (k ∈ V) then Some [] else None) →
  (∀ k, deg0 !! k = if decide (k ∈ V) then Some 0 else None) →
  (∀ e, e ∈ R → e.1 ∈ V) →
  let E := filter (λ e, e.2 ∈ V) R in
  let r := foldl addEdgePair (adj0, deg0) R in
  (∀ k, r.1 !! k = if decide (k ∈ V)
                   then Some (map snd (filter (λ e, e.1 = k) E)) else None)
  ∧ (∀ k, r.2 !! k = if decide (k ∈ V)
                     then Some (Z.of_nat (length (filter (λ e, e.2 = k) E)))
                     else None).
Proof.
  intros Hadj Hdeg. induction R as [|e R IH] using rev_ind; intros Hsrc E r.
  - subst E r. simpl. split; intros k; [rewrite Hadj|rewrite Hdeg];
      destruct (decide (k ∈ V)); reflexivity.
  - assert (HsrcR : ∀ e0, e0 ∈ R → e0.1 ∈ V).
    { intros e0 He0. apply Hsrc, elem_of_app. by left. }
    assert (He1 : e.1 ∈ V).
    { apply Hsrc, elem_of_app. right. apply list_elem_of_here. }
    specialize (IH HsrcR). simpl in IH. destruct IH as [IHa IHd].
    subst E r. rewrite foldl_snoc, filter_snoc.
    revert IHa IHd. destruct (foldl addEdgePair (adj0, deg0) R) as [adj deg].
    simpl. intros IHa IHd. unfold addEdgePair, addEdge. simpl.
    destruct (decide (is_Some (adj !! e.2))) as [Hsome|Hnone].
    + assert (He2 : e.2 ∈ V).
      { rewrite IHa in Hsome. destruct (decide (e.2 ∈ V)); [done|].
        by destruct Hsome. }
      destruct (decide (e.2 ∈ V)); [|contradiction]. simpl. split; intros k.
      * rewrite filter_snoc. destruct (decide (e.1 = k)) as [<-|Hne].
        -- rewrite lookup_insert_eq. destruct (decide (e.1 ∈ V)); [|contradiction].
           unfold adjOf. rewrite IHa.
           destruct (decide (e.1 ∈ V)); [|contradiction]. simpl.
           by rewrite map_app.
        -- rewrite lookup_insert_ne by exact Hne. rewrite IHa.
           by rewrite app_nil_r.
      * rewrite filter_snoc. destruct (decide (e.2 = k)) as [<-|Hne].
        -- rewrite lookup_insert_eq. destruct (decide (e.2 ∈ V)); [|contradiction].
           unfold degOf. rewrite IHd.
           destruct (decide (e.2 ∈ V)); [|contradiction]. simpl.
           rewrite length_app. simpl. f_equal. lia.
        -- rewrite lookup_insert_ne by exact Hne. rewrite IHd.
           by rewrite app_nil_r.
    + assert (He2 : e.2 ∉ V).
      { intros Hin. apply Hnone. rewrite IHa.
        destruct (decide (e.2 ∈ V)); [eauto|contradiction]. }
      destruct (decide (e.2 ∈ V)); [contradiction|]. simpl.
      rewrite app_nil_r. split; [exact IHa|exact IHd].
Qed.

Lemma rawEdges_src (l : list SubStep) (e : string * string) :
  e ∈ rawEdges l → e.1 ∈ ids l.
Proof.
  unfold rawEdges. intros He. apply list_elem_of_bind in He as (ss & He & Hss).
  apply list_elem_of_fmap in He as (n & -> & _). simpl.
  apply list_elem_of_fmap. by exists ss.
Qed.

(** What the two loops build: the adjacency list of a node is its present
    targets in order, the in-degree of a node the number of present edges
    into it. *)
Lemma buildMaps_lookup (l : list SubStep) (k : string) :
  (buildMaps l).1 !! k
  = (if decide (k ∈ ids l)
     then Some (map snd (filter (λ e, e.1 = k) (edgesOf l))) else None)
  ∧ (buildMaps l).2 !! k
    = (if decide (k ∈ ids l)
       then Some (Z.of_nat (length (filter (λ e, e.2 = k) (edgesOf l))))
       else None).
Proof.
  unfold buildMaps. rewrite foldl_bind_edges.
  rewrite (surjective_pairing (initMaps l)).
  pose proof (build_inv (ids l) (initMaps l).1 (initMaps l).2 (rawEdges l)
                (λ k, proj1 (initMaps_lookup l k))
                (λ k, proj2 (initMaps_lookup l k))
                (rawEdges_src l)) as [Ha Hd].
  split; [apply Ha|apply Hd].
Qed.

End BuildMaps.

(** ** Layering: peeling *)

Section Peeling.
Import Layout.

Lemma occ_snoc (v x : string) (l : list string) :
  occ v (l ++ [x]) = (occ v l + (if decide (x = v) then 1 else 0))%nat.
Proof.
  unfold occ. rewrite filter_snoc, length_app.
  destruct (decide (x = v)); reflexivity.
Qed.

Lemma occ_pos (v : string) (l : list string) : (0 < occ v l)%nat → v ∈ l.
Proof.
  unfold occ. intros H. destruct (filter (λ x, x = v) l) as [|y r] eqn:E.
  - simpl in H. lia.
  - assert (Hy : y ∈ filter (λ x, x = v) l) by (rewrite E; apply list_elem_of_here).
    apply list_elem_of_filter in Hy as [-> Hy]. exact Hy.
Qed.

Lemma degOf_insert (m : gmap string Z) (x v : string) (d : Z) :
  degOf (<[x := d]> m) v = if decide (x = v) then d else degOf m v.
Proof.
  unfold degOf. destruct (decide (x = v)) as [->|Hne].
  - by rewrite lookup_insert_eq.
  - by rewrite lookup_insert_ne.
Qed.

(** Relaxing the targets [l] of one node: every in-degree drops by the
    number of occurrences in [l], and the nodes appended to the queue are
    those whose in-degree was positive and is used up by [l]. *)
Lemma relax_fold (m : gmap string Z) (Q l : list string) :
  (∀ v, degOf (foldl relax (m, Q) l).1 v = degOf m v - Z.of_nat (occ v l))
  ∧ ∃ pushed, (foldl relax (m, Q) l).2 = Q ++ pushed
      ∧ NoDup pushed
      ∧ pushed `sublist_of` l
      ∧ ∀ v, v ∈ pushed ↔ 0 < degOf m v ≤ Z.of_nat (occ v l).
Proof.
  induction l as [|x l IH] using rev_ind.
  - simpl. split; [intros v; unfold occ; simpl; lia|].
    exists []. rewrite app_nil_r. split; [reflexivity|]. split; [constructor|].
    split; [constructor|].
    intros v. unfold occ; simpl. split; [intros H; inversion H|lia].
  - destruct IH as (Hdeg & pushed & HQ & Hnd & Hsub & Hpushed).
    rewrite foldl_snoc. revert Hdeg HQ.
    destruct (foldl relax (m, Q) l) as [m1 Q1]. simpl. intros Hdeg ->.
    assert (Hx : degOf (<[x:=degOf m1 x - 1]> m1) x
                 = degOf m x - Z.of_nat (occ x l) - 1).
    { rewrite degOf_insert. destruct (decide (x = x)); [|congruence].
      rewrite Hdeg. reflexivity. }
    split.
    + intros v. rewrite degOf_insert, occ_snoc.
      destruct (decide (x = v)) as [<-|Hne].
      * rewrite Hdeg. lia.
      * rewrite Hdeg. lia.
    + destruct (decide (degOf (<[x:=degOf m1 x - 1]> m1) x = 0)) as [Hz|Hnz].
      * exists (pushed ++ [x]). rewrite Hx in Hz.
        split; [by rewrite app_assoc|]. split.
        -- apply NoDup_app. split; [exact Hnd|]. split; [|apply NoDup_singleton].
           intros v Hv Hv'. apply list_elem_of_singleton in Hv'. subst v.
           apply Hpushed in Hv. lia.
        -- split; [by apply sublist_app|]. intros v. rewrite elem_of_app, list_elem_of_singleton, Hpushed, occ_snoc.
           destruct (decide (x = v)) as [<-|Hne].
           ++ split; [intros _; lia|intros _; by right].
           ++ split; [intros [H|H]; [lia|congruence]|intros H; left; lia].
      * exists pushed. rewrite Hx in Hnz.
        split; [reflexivity|]. split; [exact Hnd|].
        split; [by apply sublist_inserts_r|].
        intros v. rewrite Hpushed, occ_snoc.
        destruct (decide (x = v)) as [<-|Hne]; lia.
Qed.

Lemma filter_length_split {A} (P1 P2 P3 : A → Prop)
    `{∀ x, Decision (P1 x)} `{∀ x, Decision (P2 x)} `{∀ x, Decision (P3 x)}
    (l : list A) :
  (∀ x, P1 x ↔ P2 x ∨ P3 x) → (∀ x, P2 x → P3 x → False) →
  length (filter P1 l) = (length (filter P2 l) + length (filter P3 l))%nat.
Proof.
  intros Hiff Hex. induction l as [|a l IH]; [reflexivity|].
  rewrite !filter_cons.
  pose proof (Hiff a) as Ha. pose proof (Hex a) as Hb.
  destruct (decide (P1 a)); destruct (decide (P2 a));
    destruct (decide (P3 a)); simpl; rewrite ?IH; try lia; exfalso; tauto.
Qed.

Lemma occ_targets (u v : string) (E : list (string * string)) :
  occ v (map snd (filter (λ e, e.1 = u) E))
  = length (filter (λ e, e.2 = v ∧ e.1 = u) E).
Proof.
  unfold occ. induction E as [|e E IH]; [reflexivity|].
  rewrite !filter_cons.
  destruct (decide (e.1 = u)) as [H1|H1]; simpl.
  - rewrite filter_cons.
    destruct (decide (e.2 = v)) as [H2|H2];
      destruct (decide (e.2 = v ∧ e.1 = u)) as [H3|H3]; simpl; rewrite ?IH;
      try reflexivity; exfalso; tauto.
  - destruct (decide (e.2 = v ∧ e.1 = u)) as [H3|H3]; [exfalso; tauto|exact IH].
Qed.

Variable l : list SubStep.
Hypothesis ids_unique : NoDup (ids l).

Lemma adjOf_build (u : string) :
  u ∈ ids l →
  adjOf (buildMaps l).1 u = map snd (filter (λ e, e.1 = u) (edgesOf l)).
Proof.
  intros Hu. unfold adjOf. rewrite (proj1 (buildMaps_lookup l u)).
  destruct (decide (u ∈ ids l)); [reflexivity|contradiction].
Qed.

Lemma adjOf_nodes (u v : string) :
  u ∈ ids l → v ∈ adjOf (buildMaps l).1 u → v ∈ ids l.
Proof.
  intros Hu. rewrite (adjOf_build u Hu). intros Hv.
  apply list_elem_of_fmap in Hv as (e & -> & He).
  apply list_elem_of_filter in He as [_ He].
  unfold edgesOf in He. apply list_elem_of_filter in He as [He _]. exact He.
Qed.

(** Peeling [u] lowers the remaining in-degree of [v] by the number of
    edges from [u] to [v]. *)
Lemma peel_one (P : list string) (u v : string) :
  u ∈ ids l → u ∉ P →
  inDegreeAfterPeeling l P v
  = (inDegreeAfterPeeling l (P ++ [u]) v + occ v (adjOf (buildMaps l).1 u))%nat.
Proof.
  intros Hu HuP. rewrite (adjOf_build u Hu), occ_targets.
  unfold inDegreeAfterPeeling. apply filter_length_split.
  - intros e. rewrite not_elem_of_app, list_elem_of_singleton.
    destruct (decide (e.1 = u)) as [->|Hne]; tauto.
  - intros e [_ Hn] [_ Heq]. apply Hn. rewrite Heq.
    apply elem_of_app. right. apply list_elem_of_here.
Qed.

Lemma app_snoc_cons {A} (P : list A) (u : A) (Q R : list A) :
  (P ++ [u]) ++ Q ++ R = (P ++ u :: Q) ++ R.
Proof. by rewrite <- !app_assoc. Qed.

(** One iteration of the [for] loop keeps the invariant. *)
Lemma peel_step (P Q : list string) (u : string) (m : gmap string Z) :
  PeelInv l P (u :: Q) m →
  ∃ pushed,
    (foldl relax (m, Q) (adjOf (buildMaps l).1 u)).2 = Q ++ pushed
    ∧ pushed `sublist_of` adjOf (buildMaps l).1 u
    ∧ PeelInv l (P ++ [u]) (Q ++ pushed)
        (foldl relax (m, Q) (adjOf (buildMaps l).1 u)).1.
Proof.
  intros [Hnd Hnodes Hdeg Hzero].
  destruct (relax_fold m Q (adjOf (buildMaps l).1 u))
    as (Hdeg' & pushed & HQ & Hndp & Hsubp & Hpushed).
  exists pushed. split; [exact HQ|]. split; [exact Hsubp|].
  assert (Hu : u ∈ ids l).
  { apply Hnodes, elem_of_app. right. apply list_elem_of_here. }
  assert (HuP : u ∉ P).
  { apply NoDup_app in Hnd as (_ & Hdisj & _). intros HuP.
    apply (Hdisj u HuP). apply list_elem_of_here. }
  assert (Hp_nodes : ∀ v, v ∈ pushed → v ∈ ids l).
  { intros v Hv. apply Hpushed in Hv. apply (adjOf_nodes u v Hu).
    apply occ_pos. lia. }
  assert (Hp_fresh : ∀ v, v ∈ pushed → v ∉ P ++ u :: Q).
  { intros v Hv Hin. pose proof (Hp_nodes v Hv) as Hvn.
    apply (Hzero v Hvn) in Hin. apply Hpushed in Hv.
    rewrite (Hdeg v Hvn) in Hv. lia. }
  split.
  - rewrite app_snoc_cons. apply NoDup_app. split; [exact Hnd|].
    split; [|exact Hndp]. intros x Hx Hx'. by apply (Hp_fresh x Hx').
  - intros x. rewrite app_snoc_cons, elem_of_app.
    intros [Hx|Hx]; [by apply Hnodes|by apply Hp_nodes].
  - intros v Hv. rewrite Hdeg', (Hdeg v Hv), (peel_one P u v Hu HuP). lia.
  - intros v Hv. rewrite app_snoc_cons, elem_of_app.
    pose proof (peel_one P u v Hu HuP) as Hsplit. split.
    + intros [Hin|Hin].
      * apply (Hzero v Hv) in Hin. lia.
      * apply Hpushed in Hin. rewrite (Hdeg v Hv) in Hin. lia.
    + intros Hz. destruct (decide (inDegreeAfterPeeling l P v = 0%nat)) as [H0|Hpos].
      * left. by apply (Hzero v Hv).
      * right. apply Hpushed. rewrite (Hdeg v Hv). lia.
Qed.

(** [n] iterations of the [for] loop take the first [n] nodes off the
    queue, in order, and keep the invariant. *)
Lemma forLoop_inv (n : nat) :
  ∀ (P Q : list string) (m : gmap string Z) (vc : nat) (cur : list string),
  PeelInv l P Q m → (n ≤ length Q)%nat →
  ∃ m' pushed,
    forLoop (buildMaps l).1 n {| queue := Q; inDegree := m; visitedCount := vc |} cur
    = ({| queue := drop n Q ++ pushed; inDegree := m';
          visitedCount := (vc + n)%nat |}, cur ++ take n Q)
    ∧ pushed `sublist_of` (take n Q ≫= adjOf (buildMaps l).1)
    ∧ PeelInv l (P ++ take n Q) (drop n Q ++ pushed) m'.
Proof.
  induction n as [|n IH]; intros P Q m vc cur Hinv Hn.
  - exists m, []. simpl. rewrite drop_0, take_0, !app_nil_r, Nat.add_0_r.
    split; [reflexivity|]. split; [constructor|exact Hinv].
  - destruct Q as [|u Q]; [simpl in Hn; lia|]. simpl in Hn.
    destruct (peel_step P Q u m Hinv) as (pushed1 & HQ & Hsub1 & Hinv1).
    simpl. revert HQ Hinv1.
    destruct (foldl relax (m, Q) (adjOf (buildMaps l).1 u)) as [m1 Q1].
    simpl. intros -> Hinv1.
    destruct (IH (P ++ [u]) (Q ++ pushed1) m1 (S vc) (cur ++ [u]) Hinv1)
      as (m' & pushed2 & Hrun & Hsub2 & Hinv2).
    { rewrite length_app. lia. }
    exists m', (pushed1 ++ pushed2).
    rewrite take_app_le in Hsub2 by lia.
    rewrite take_app_le, drop_app_le in Hrun, Hinv2 by lia.
    rewrite Hrun. rewrite <- !app_assoc in Hinv2. simpl in Hinv2.
    rewrite <- !app_assoc. simpl.
    split; [do 3 f_equal; lia|]. split; [|exact Hinv2].
    by apply sublist_app.
Qed.

(** Under the invariant the queue is the zero-in-degree frontier, up to
    order. *)
Lemma queue_is_frontier (P Q : list string) (m : gmap string Z) :
  PeelInv l P Q m → Q ≡ₚ zeroInDegreeFrontier l P.
Proof.
  intros [Hnd Hnodes Hdeg Hzero].
  apply NoDup_app in Hnd as (_ & Hdisj & HndQ).
  apply NoDup_Permutation; [exact HndQ|by apply NoDup_filter|].
  intros x. unfold zeroInDegreeFrontier. rewrite list_elem_of_filter. split.
  - intros Hx. assert (Hxn : x ∈ ids l).
    { apply Hnodes, elem_of_app. by right. }
    split; [split|exact Hxn].
    + intros HxP. by apply (Hdisj x HxP).
    + apply (Hzero x Hxn), elem_of_app. by right.
  - intros [[HxP Hz] Hxn]. apply (Hzero x Hxn) in Hz.
    apply elem_of_app in Hz as [Hz|Hz]; [contradiction|exact Hz].
Qed.

Lemma whileLoop_cons (fuel : nat) (adj : gmap string (list string))
    (u : string) (Q : list string) (m : gmap string Z) (vc : nat)
    (levels : list (list string)) :
  whileLoop (S fuel) adj {| queue := u :: Q; inDegree := m; visitedCount := vc |}
    levels
  = (let '(k', currentLevel) :=
       forLoop adj (length (u :: Q))
         {| queue := u :: Q; inDegree := m; visitedCount := vc |} [] in
     whileLoop fuel adj k' (levels ++ [currentLevel])).
Proof. reflexivity. Qed.

(** The [while] loop, when it returns, has appended the successive
    frontiers. *)
Lemma whileLoop_inv (fuel : nat) :
  ∀ (P Q : list string) (m : gmap string Z) (vc : nat)
    (levels lv : list (list string)) (vc' : nat),
  PeelInv l P Q m →
  whileLoop fuel (buildMaps l).1
    {| queue := Q; inDegree := m; visitedCount := vc |} levels = Some (lv, vc') →
  ∃ new, lv = levels ++ new
    ∧ vc' = (vc + length (concat new))%nat
    ∧ (∀ k L, new !! k = Some L →
         L ≠ [] ∧ L ≡ₚ zeroInDegreeFrontier l (P ++ concat (take k new)))
    ∧ (∀ L, new !! 0%nat = Some L → L = Q)
    ∧ (∀ k L L', new !! k = Some L → new !! S k = Some L' →
         L' `sublist_of` (L ≫= adjOf (buildMaps l).1))
    ∧ zeroInDegreeFrontier l (P ++ concat new) = []
    ∧ NoDup (P ++ concat new)
    ∧ (∀ x, x ∈ concat new → x ∈ ids l).
Proof.
  induction fuel as [|fuel IH]; intros P Q m vc levels lv vc' Hinv Hrun.
  - destruct Q as [|u Q]; [|discriminate]. simpl in Hrun.
    injection Hrun as <- <-. exists []. simpl. rewrite !app_nil_r.
    split; [reflexivity|]. split; [lia|]. split; [intros k L Hk; done|].
    split; [intros L HL; done|]. split; [intros k L L' HL; done|]. split.
    + symmetry. apply Permutation_nil_l. by eapply queue_is_frontier.
    + split; [|intros x Hx; inversion Hx].
      destruct Hinv as [Hnd _ _ _]. by rewrite app_nil_r in Hnd.
  - destruct Q as [|u Q].
    { simpl in Hrun. injection Hrun as <- <-. exists []. simpl.
      rewrite !app_nil_r.
      split; [reflexivity|]. split; [lia|]. split; [intros k L Hk; done|].
      split; [intros L HL; done|]. split; [intros k L L' HL; done|]. split.
      + symmetry. apply Permutation_nil_l. by eapply queue_is_frontier.
      + split; [|intros x Hx; inversion Hx].
        destruct Hinv as [Hnd _ _ _]. by rewrite app_nil_r in Hnd. }
    destruct (forLoop_inv (length (u :: Q)) P (u :: Q) m vc [] Hinv (le_n _))
      as (m' & pushed & Hfor & Hsub & Hinv').
    rewrite firstn_all in Hsub.
    rewrite drop_all, firstn_all in Hfor, Hinv'.
    rewrite whileLoop_cons, Hfor in Hrun. simpl in Hrun.
    destruct (IH _ _ _ _ _ _ _ Hinv' Hrun)
      as (new & -> & -> & Hlayers & Hhead & Hnext & Hlast & Hnd & Hnodes).
    exists ((u :: Q) :: new). cbn [concat].
    split; [by rewrite <- app_assoc|].
    split; [rewrite length_app; simpl; lia|].
    split; [|split; [|split; [|split; [|split]]]].
    + intros [|k] L Hk.
      * injection Hk as <-. split; [discriminate|]. simpl. rewrite app_nil_r.
        by eapply queue_is_frontier.
      * simpl in Hk. destruct (Hlayers k L Hk) as [Hne Hperm].
        split; [exact Hne|]. cbn [take concat]. by rewrite app_assoc.
    + intros L HL. by injection HL as <-.
    + intros [|k] L L' HL HL'.
      * injection HL as <-. simpl in HL'. by rewrite (Hhead L' HL').
      * simpl in HL, HL'. by eapply Hnext.
    + by rewrite app_assoc.
    + by rewrite app_assoc.
    + intros x Hx. apply elem_of_app in Hx as [Hx|Hx]; [|by apply Hnodes].
      destruct Hinv as [_ Hn _ _]. apply Hn, elem_of_app. by right.
Qed.

Lemma deg_build (v : string) :
  v ∈ ids l →
  (buildMaps l).2 !! v = Some (Z.of_nat (inDegreeAfterPeeling l [] v)).
Proof.
  intros Hv. rewrite (proj2 (buildMaps_lookup l v)).
  destruct (decide (v ∈ ids l)); [|contradiction].
  do 2 f_equal. unfold inDegreeAfterPeeling. f_equal.
  apply list_filter_iff. intros ed. split; [|tauto].
  intros He. split; [exact He|apply not_elem_of_nil].
Qed.

(** Layer 0 in the making: the initial queue is the frontier of the
    untouched graph, in node order. *)
Lemma initialQueue_frontier :
  initialQueue (buildMaps l).2 l = zeroInDegreeFrontier l [].
Proof.
  unfold initialQueue, zeroInDegreeFrontier.
  assert (Hgen : ∀ l0, (∀ ss, ss ∈ l0 → ss_id ss ∈ ids l) →
    map ss_id (filter (λ ss, (buildMaps l).2 !! ss_id ss = Some 0) l0)
    = filter (λ v, (v ∉ []) ∧ inDegreeAfterPeeling l [] v = 0%nat) (map ss_id l0)).
  { induction l0 as [|ss l0 IH]; intros Hin; [reflexivity|].
    assert (Hss : ss_id ss ∈ ids l) by (apply Hin, list_elem_of_here).
    assert (Hrest : ∀ s, s ∈ l0 → ss_id s ∈ ids l).
    { intros s Hs. by apply Hin, list_elem_of_further. }
    simpl. rewrite !filter_cons, (deg_build _ Hss).
    destruct (decide (Some (Z.of_nat (inDegreeAfterPeeling l [] (ss_id ss))) = Some 0))
      as [Hz|Hnz];
      destruct (decide ((ss_id ss ∉ []) ∧ inDegreeAfterPeeling l [] (ss_id ss) = 0%nat))
      as [Hf|Hnf].
    - simpl. f_equal. by apply IH.
    - exfalso. apply Hnf. split; [apply not_elem_of_nil|]. injection Hz. lia.
    - exfalso. apply Hnz. destruct Hf as [_ ->]. reflexivity.
    - by apply IH. }
  apply Hgen. intros ss Hss. apply list_elem_of_fmap. by exists ss.
Qed.

Lemma initial_inv :
  PeelInv l [] (initialQueue (buildMaps l).2 l) (buildMaps l).2.
Proof.
  rewrite initialQueue_frontier. split; simpl.
  - by apply NoDup_filter.
  - intros x Hx. by apply list_elem_of_filter in Hx as [_ Hx].
  - intros v Hv. unfold degOf. by rewrite (deg_build v Hv).
  - intros v Hv. unfold zeroInDegreeFrontier. rewrite list_elem_of_filter. split.
    + by intros [[_ Hz] _].
    + intros Hz. split; [split; [apply not_elem_of_nil|exact Hz]|exact Hv].
Qed.

End Peeling.

(** ** Layering: the loop ends *)

Section Termination.
Import Layout.

Lemma filter_length_le {A} (P P' : A → Prop)
    `{∀ x, Decision (P x)} `{∀ x, Decision (P' x)} (keys : list A) :
  (∀ x, P' x → P x) →
  (length (filter P' keys) ≤ length (filter P keys))%nat.
Proof.
  intros Himp. induction keys as [|a keys IH]; [reflexivity|].
  rewrite !filter_cons. pose proof (Himp a) as Ha.
  destruct (decide (P' a)); destruct (decide (P a)); simpl; try lia.
  exfalso. tauto.
Qed.

Lemma filter_length_lt {A} (P P' : A → Prop)
    `{∀ x, Decision (P x)} `{∀ x, Decision (P' x)} (keys : list A) (v : A) :
  (∀ x, P' x → P x) → v ∈ keys → P v → ¬ P' v →
  (length (filter P' keys) < length (filter P keys))%nat.
Proof.
  intros Himp Hv HP HP'. induction keys as [|a keys IH]; [inversion Hv|].
  rewrite !filter_cons. pose proof (Himp a) as Ha.
  pose proof (filter_length_le P P' keys Himp) as Hle.
  apply elem_of_cons in Hv as [<-|Hv].
  - destruct (decide (P' v)); [contradiction|].
    destruct (decide (P v)); [|contradiction]. simpl. lia.
  - specialize (IH Hv).
    destruct (decide (P' a)); destruct (decide (P a)); simpl; try lia.
    exfalso. tauto.
Qed.

Variable keys : list string.

Lemma relax_potential (m : gmap string Z) (Q : list string) (v : string) :
  v ∈ keys →
  (length (relax (m, Q) v).2 + positiveCount keys (relax (m, Q) v).1
   ≤ length Q + positiveCount keys m)%nat
  ∧ (length Q ≤ length (relax (m, Q) v).2)%nat.
Proof.
  intros Hv. unfold relax. simpl.
  assert (Hmono : ∀ x, 0 < degOf (<[v:=degOf m v - 1]> m) x → 0 < degOf m x).
  { intros x. rewrite degOf_insert. destruct (decide (v = x)) as [<-|_]; lia. }
  destruct (decide (degOf (<[v:=degOf m v - 1]> m) v = 0)) as [Hz|Hnz]; simpl.
  - rewrite length_app. simpl. split; [|lia].
    assert (Nat.lt (positiveCount keys (<[v:=degOf m v - 1]> m))
                   (positiveCount keys m)); [|lia].
    unfold positiveCount. apply (filter_length_lt _ _ keys v Hmono Hv).
    + rewrite degOf_insert in Hz. destruct (decide (v = v)); [lia|congruence].
    + lia.
  - split; [|lia].
    pose proof (filter_length_le _ _ keys Hmono) as Hle.
    unfold positiveCount. lia.
Qed.

Lemma relax_fold_potential (lst : list string) (m : gmap string Z)
    (Q : list string) :
  (∀ v, v ∈ lst → v ∈ keys) →
  (length (foldl relax (m, Q) lst).2 + positiveCount keys (foldl relax (m, Q) lst).1
   ≤ length Q + positiveCount keys m)%nat
  ∧ (length Q ≤ length (foldl relax (m, Q) lst).2)%nat.
Proof.
  induction lst as [|x lst IH] using rev_ind; intros Hin; [simpl; lia|].
  rewrite foldl_snoc.
  assert (Hin' : ∀ v, v ∈ lst → v ∈ keys).
  { intros v Hv. apply Hin, elem_of_app. by left. }
  assert (Hx : x ∈ keys).
  { apply Hin, elem_of_app. right. apply list_elem_of_here. }
  specialize (IH Hin'). revert IH.
  destruct (foldl relax (m, Q) lst) as [m1 Q1]. cbn [fst snd]. intros [IH1 IH2].
  pose proof (relax_potential m1 Q1 x Hx) as [H1 H2]. lia.
Qed.

Variable adj : gmap string (list string).
Hypothesis targets_in_keys : ∀ u v, v ∈ adjOf adj u → v ∈ keys.

Lemma forLoop_potential (n : nat) :
  ∀ (k : Kahn) (cur : list string),
  (n ≤ length (queue k))%nat →
  (length (queue (forLoop adj n k cur).1)
   + positiveCount keys (inDegree (forLoop adj n k cur).1) + n
   ≤ length (queue k) + positiveCount keys (inDegree k))%nat.
Proof.
  induction n as [|n IH]; intros k cur Hn; [simpl; lia|].
  destruct k as [Q m vc]. simpl in *.
  destruct Q as [|u Q]; [simpl in Hn; lia|]. simpl in Hn.
  pose proof (relax_fold_potential (adjOf adj u) m Q (targets_in_keys u)) as Hpot.
  revert Hpot. destruct (foldl relax (m, Q) (adjOf adj u)) as [m1 Q1].
  simpl. intros [H1 H2].
  specialize (IH {| queue := Q1; inDegree := m1; visitedCount := S vc |}
                 (cur ++ [u])).
  simpl in IH. specialize (IH ltac:(lia)). lia.
Qed.

(** With more iterations allowed than there are positive in-degrees, the
    [while] loop returns. *)
Lemma whileLoop_total (fuel : nat) :
  ∀ (k : Kahn) (levels : list (list string)),
  queue k = [] ∨ (positiveCount keys (inDegree k) < fuel)%nat →
  is_Some (whileLoop fuel adj k levels).
Proof.
  induction fuel as [|fuel IH]; intros k levels Hk.
  - destruct Hk as [Hq|Hlt]; [|lia]. simpl. rewrite Hq. eauto.
  - destruct k as [Q m vc]. destruct Q as [|u Q]; [simpl; eauto|].
    rewrite whileLoop_cons.
    pose proof (forLoop_potential (length (u :: Q))
                  {| queue := u :: Q; inDegree := m; visitedCount := vc |} []
                  (le_n _)) as Hpot.
    revert Hpot.
    destruct (forLoop adj (length (u :: Q))
                {| queue := u :: Q; inDegree := m; visitedCount := vc |} [])
      as [k' cur]. simpl. intros Hpot.
    apply IH. destruct Hk as [Hq|Hlt]; [discriminate|]. simpl in Hlt.
    destruct (queue k') as [|x q']; [by left|]. right. simpl in Hpot. lia.
Qed.

End Termination.

Lemma adjOf_targets (l : list SubStep) (u v : string) :
  v ∈ Layout.adjOf (Layout.buildMaps l).1 u → v ∈ Layout.ids l.
Proof.
  unfold Layout.adjOf. rewrite (proj1 (buildMaps_lookup l u)).
  destruct (decide (u ∈ Layout.ids l)) as [Hu|Hu]; simpl;
    [|intros H; inversion H].
  intros Hv. apply list_elem_of_fmap in Hv as (e & -> & He).
  apply list_elem_of_filter in He as [_ He].
  unfold edgesOf in He. apply list_elem_of_filter in He as [He _]. exact He.
Qed.

(** The peeling loop returns on every list of sub-steps. *)
Lemma kahnLevels_total (l : list SubStep) : is_Some (Layout.kahnLevels l).
Proof.
  unfold Layout.kahnLevels.
  pose proof (adjOf_targets l) as Htargets. revert Htargets.
  destruct (Layout.buildMaps l) as [adj deg]. cbn [fst snd]. intros Htargets.
  apply (whileLoop_total (Layout.ids l) adj Htargets). right. cbn [Layout.inDegree].
  unfold positiveCount.
  pose proof (length_filter (λ v, 0 < Layout.degOf deg v) (Layout.ids l)) as Hle.
  unfold Layout.ids in *. rewrite length_map in Hle. lia.
Qed.

(** ** Layering: what the loop returns *)

Section Layers.
Import Layout.
Variable l : list SubStep.
Hypothesis ids_unique : NoDup (ids l).

(** On a graph with unique ids the peeling loop returns the successive
    zero-in-degree frontiers, each up to order, the first in node order,
    until the frontier is empty. *)
Lemma kahnLevels_frontiers :
  ∃ kl, kahnLevels l = Some (kl, length (concat kl))
    ∧ (∀ k L, kl !! k = Some L →
         L ≠ [] ∧ L ≡ₚ zeroInDegreeFrontier l (concat (take k kl)))
    ∧ (∀ L, kl !! 0%nat = Some L → L = zeroInDegreeFrontier l [])
    ∧ (∀ k L L', kl !! k = Some L → kl !! S k = Some L' →
         L' `sublist_of` (L ≫= adjOf (buildMaps l).1))
    ∧ zeroInDegreeFrontier l (concat kl) = []
    ∧ NoDup (concat kl)
    ∧ (∀ x, x ∈ concat kl → x ∈ ids l).
Proof.
  destruct (kahnLevels_total l) as [[lv vc] Hrun].
  pose proof Hrun as Hrun'. unfold kahnLevels in Hrun'.
  pose proof (initial_inv l ids_unique) as Hinv.
  pose proof (initialQueue_frontier l) as Hq0.
  revert Hrun' Hinv Hq0. destruct (buildMaps l) as [adj deg] eqn:Hb.
  cbn [fst snd]. intros Hrun' Hinv Hq0.
  assert (Hadj : adj = (buildMaps l).1) by (by rewrite Hb).
  rewrite Hadj in Hrun'.
  destruct (whileLoop_inv l ids_unique (S (length l)) [] _ _ _ _ _ _ Hinv Hrun')
    as (new & Hlv & Hvc & Hlayers & Hhead & Hnext & Hlast & Hnd & Hnodes).
  simpl in Hlv, Hvc, Hlayers, Hlast, Hnd. subst lv vc.
  rewrite <- Hadj in Hnext.
  exists new. split; [exact Hrun|]. split; [exact Hlayers|].
  split; [|split; [exact Hnext|split; [exact Hlast|split; [exact Hnd|exact Hnodes]]]].
  intros L HL. rewrite (Hhead L HL). exact Hq0.
Qed.

Lemma remaining_unpeeled (levels : list (list string)) :
  map ss_id (filter (λ ss, ss_id ss ∉ concat levels) l) = unpeeled l levels.
Proof.
  clear ids_unique. unfold unpeeled, ids.
  induction l as [|ss l0 IH]; [reflexivity|].
  simpl. rewrite !filter_cons.
  destruct (decide (ss_id ss ∉ concat levels)); simpl; by rewrite IH.
Qed.

Lemma filter_none {A} (P : A → Prop) `{∀ x, Decision (P x)} (lst : list A) :
  (∀ x, x ∈ lst → ¬ P x) → filter P lst = [].
Proof.
  induction lst as [|a lst IH]; intros Hn; [reflexivity|].
  rewrite filter_cons. destruct (decide (P a)) as [Ha|_].
  - exfalso. apply (Hn a); [apply list_elem_of_here|exact Ha].
  - apply IH. intros x Hx. by apply Hn, list_elem_of_further.
Qed.

Lemma unpeeled_nil_of_length (kl : list (list string)) :
  NoDup (concat kl) → (∀ x, x ∈ concat kl → x ∈ ids l) →
  ¬ (length (concat kl) < length l)%nat → unpeeled l kl = [].
Proof.
  intros Hnd Hsub Hlen.
  assert (Hperm : ids l ≡ₚ concat kl).
  { symmetry. apply submseteq_length_Permutation.
    - by apply NoDup_submseteq.
    - unfold ids. rewrite length_map. lia. }
  unfold unpeeled. apply filter_none. intros v Hv Hn. apply Hn.
  by rewrite <- Hperm.
Qed.

End Layers.

Lemma topoLevels_total (l : list SubStep) : is_Some (Layout.topoLevels l).
Proof.
  unfold Layout.topoLevels. destruct (kahnLevels_total l) as [[lv vc] ->].
  simpl. eauto.
Qed.

Lemma peeled_and_unpeeled (l : list SubStep) (kl : list (list string)) :
  NoDup (Layout.ids l) → NoDup (concat kl) →
  (∀ x, x ∈ concat kl → x ∈ Layout.ids l) →
  concat kl ++ unpeeled l kl ≡ₚ Layout.ids l.
Proof.
  intros Hids Hnd Hsub. unfold unpeeled. apply NoDup_Permutation.
  - apply NoDup_app. split; [exact Hnd|]. split; [|by apply NoDup_filter].
    intros x Hx Hx'. apply list_elem_of_filter in Hx' as [Hn _]. by apply Hn.
  - exact Hids.
  - intros x. rewrite elem_of_app, list_elem_of_filter. split.
    + intros [Hx|[_ Hx]]; [by apply Hsub|exact Hx].
    + intros Hx. destruct (decide (x ∈ concat kl)); [by left|by right].
Qed.

Lemma topoLevels_shape (l : list SubStep) (kl : list (list string)) :
  NoDup (Layout.ids l) → NoDup (concat kl) →
  (∀ x, x ∈ concat kl → x ∈ Layout.ids l) →
  Layout.kahnLevels l = Some (kl, length (concat kl)) →
  (unpeeled l kl = [] → Layout.topoLevels l = Some kl)
  ∧ (unpeeled l kl ≠ [] → Layout.topoLevels l = Some (kl ++ [unpeeled l kl])).
Proof.
  intros Hids Hnd Hsub Hrun. unfold Layout.topoLevels. rewrite Hrun. simpl.
  unfold Layout.withRemaining. rewrite remaining_unpeeled.
  destruct (decide (length (concat kl) < length l)%nat) as [Hlt|Hge].
  - destruct (unpeeled l kl) as [|v vs]; split; intros H; congruence.
  - rewrite (unpeeled_nil_of_length l kl Hnd Hsub Hge).
    split; intros H; congruence.
Qed.

Lemma bind_presentTargets (l : list SubStep) (L : list string) :
  (∀ x, x ∈ L → x ∈ Layout.ids l) →
  L ≫= Layout.adjOf (Layout.buildMaps l).1 = L ≫= presentTargets l.
Proof.
  intros Hin. induction L as [|u L IH]; [reflexivity|].
  rewrite !bind_cons, IH.
  - f_equal. apply adjOf_build, Hin, list_elem_of_here.
  - intros x Hx. by apply Hin, list_elem_of_further.
Qed.

(** ** Layering: the order within a layer *)

Section Order.
Import Layout.

Lemma filter_iff_in {A} (P1 P2 : A → Prop)
    `{∀ x, Decision (P1 x)} `{∀ x, Decision (P2 x)} (lst : list A) :
  (∀ x, x ∈ lst → (P1 x ↔ P2 x)) → filter P1 lst = filter P2 lst.
Proof.
  induction lst as [|a lst IH]; intros Hiff; [reflexivity|].
  rewrite !filter_cons.
  pose proof (Hiff a (list_elem_of_here _ _)) as Ha.
  rewrite IH by (intros x Hx; by apply Hiff, list_elem_of_further).
  destruct (decide (P1 a)); destruct (decide (P2 a)); try reflexivity;
    exfalso; tauto.
Qed.

Lemma lastOccurrences_elem (x : string) (walk : list string) :
  x ∈ lastOccurrences walk ↔ x ∈ walk.
Proof.
  induction walk as [|y rest IH]; [reflexivity|]. simpl.
  destruct (decide (y ∈ rest)) as [Hy|Hy].
  - rewrite IH, elem_of_cons. split; [by right|].
    intros [->|Hx]; [exact Hy|exact Hx].
  - by rewrite !elem_of_cons, IH.
Qed.

Lemma occ_cons (v x : string) (lst : list string) :
  occ v (x :: lst) = ((if decide (x = v) then 1 else 0) + occ v lst)%nat.
Proof.
  unfold occ. rewrite filter_cons. by destruct (decide (x = v)).
Qed.

Lemma occ_zero (v : string) (lst : list string) : v ∉ lst → occ v lst = 0%nat.
Proof.
  intros Hv. destruct (occ v lst) as [|n] eqn:E; [reflexivity|].
  exfalso. apply Hv, occ_pos. lia.
Qed.

Lemma occ_elem (v : string) (lst : list string) : v ∈ lst → (0 < occ v lst)%nat.
Proof.
  induction lst as [|x lst IH]; intros Hv; [inversion Hv|].
  rewrite occ_cons. apply elem_of_cons in Hv as [->|Hv].
  - destruct (decide (x = x)); [lia|congruence].
  - specialize (IH Hv). lia.
Qed.

(** What [relax] appends does not depend on the queue it appends to. *)
Lemma relax_queue (lst : list string) :
  ∀ (m : gmap string Z) (Q : list string),
  foldl relax (m, Q) lst
  = ((foldl relax (m, []) lst).1, Q ++ (foldl relax (m, []) lst).2).
Proof.
  induction lst as [|x lst IH]; intros m Q.
  - simpl. by rewrite app_nil_r.
  - cbn [foldl]. unfold relax at 2 4 6.
    destruct (decide (degOf (<[x:=degOf m x - 1]> m) x = 0)).
    + rewrite (IH _ (Q ++ [x])), (IH _ ([] ++ [x])). cbn [fst snd].
      by rewrite <- !app_assoc.
    + by rewrite (IH _ Q).
Qed.

(** While the targets [lst] are walked, a node is appended when its
    in-degree reaches zero: at its last occurrence in [lst], if its
    in-degree is the number of its occurrences. *)
Lemma relax_fold_order (lst : list string) :
  ∀ (m : gmap string Z) (Q : list string),
  (∀ v, v ∈ lst → Z.of_nat (occ v lst) ≤ degOf m v) →
  (foldl relax (m, Q) lst).2
  = Q ++ filter (λ v, degOf m v = Z.of_nat (occ v lst)) (lastOccurrences lst).
Proof.
  induction lst as [|x lst IH]; intros m Q Hle.
  - simpl. by rewrite app_nil_r.
  - cbn [foldl]. unfold relax at 2.
    set (m' := <[x:=degOf m x - 1]> m).
    assert (Hm' : ∀ w, degOf m' w = if decide (x = w) then degOf m x - 1
                                     else degOf m w).
    { intros w. unfold m'. apply degOf_insert. }
    assert (Hle' : ∀ v, v ∈ lst → Z.of_nat (occ v lst) ≤ degOf m' v).
    { intros v Hv. pose proof (Hle v (list_elem_of_further _ _ _ Hv)) as H.
      rewrite occ_cons in H. rewrite Hm'.
      destruct (decide (x = v)) as [->|]; lia. }
    pose proof (Hle x (list_elem_of_here _ _)) as Hx. rewrite occ_cons in Hx.
    destruct (decide (x = x)) as [_|]; [|congruence].
    assert (Hx' : degOf m' x = degOf m x - 1).
    { rewrite Hm'. by destruct (decide (x = x)). }
    cbn [lastOccurrences].
    assert (Hrest : ∀ L : list string, (∀ v, v ∈ L → v ∈ lst) → x ∉ L →
      filter (λ v, degOf m' v = Z.of_nat (occ v lst)) L
      = filter (λ v, degOf m v = Z.of_nat (occ v (x :: lst))) L).
    { intros L HL HxL. apply filter_iff_in. intros v Hv.
      rewrite Hm', occ_cons. destruct (decide (x = v)) as [<-|]; [done|].
      reflexivity. }
    destruct (decide (x ∈ lst)) as [Hin|Hout].
    + pose proof (occ_elem x lst Hin) as Hpos.
      destruct (decide (degOf m' x = 0)) as [Hz|_]; [lia|].
      rewrite (IH m' Q Hle'). f_equal. apply filter_iff_in. intros v Hv.
      rewrite Hm', occ_cons. destruct (decide (x = v)) as [->|]; lia.
    + rewrite (occ_zero x lst Hout) in Hx.
      rewrite filter_cons, occ_cons, (occ_zero x lst Hout).
      destruct (decide (x = x)) as [_|]; [|congruence].
      assert (Htail : filter (λ v, degOf m' v = Z.of_nat (occ v lst))
                             (lastOccurrences lst)
                      = filter (λ v, degOf m v = Z.of_nat (occ v (x :: lst)))
                               (lastOccurrences lst)).
      { apply Hrest.
        - intros v Hv. by apply lastOccurrences_elem.
        - intros Hc. by apply Hout, lastOccurrences_elem. }
      destruct (decide (degOf m' x = 0)) as [Hz|Hnz];
        destruct (decide (degOf m x = Z.of_nat (1 + 0))) as [H1|H1];
        try lia.
      * rewrite (IH m' (Q ++ [x]) Hle'), Htail, <- app_assoc. reflexivity.
      * rewrite (IH m' Q Hle'), Htail. reflexivity.
Qed.

(** [n] iterations of the [for] loop, run: the nodes taken off the queue
    are its first [n], and what is appended is what walking their targets
    in order appends. *)
Lemma forLoop_run (adj : gmap string (list string)) (n : nat) :
  ∀ (Q : list string) (m : gmap string Z) (vc : nat) (cur : list string),
  (n ≤ length Q)%nat →
  forLoop adj n {| queue := Q; inDegree := m; visitedCount := vc |} cur
  = ({| queue := drop n Q ++ (foldl relax (m, []) (take n Q ≫= adjOf adj)).2;
        inDegree := (foldl relax (m, []) (take n Q ≫= adjOf adj)).1;
        visitedCount := (vc + n)%nat |}, cur ++ take n Q).
Proof.
  induction n as [|n IH]; intros Q m vc cur Hn.
  - simpl. rewrite drop_0, take_0, !app_nil_r, Nat.add_0_r. reflexivity.
  - destruct Q as [|u Q]; [simpl in Hn; lia|]. simpl in Hn.
    cbn [forLoop queue inDegree visitedCount].
    rewrite (relax_queue (adjOf adj u) m Q).
    destruct (foldl relax (m, []) (adjOf adj u)) as [m1 p1] eqn:E1.
    cbn [fst snd]. rewrite IH by (rewrite length_app; lia).
    rewrite take_app_le, drop_app_le by lia.
    cbn [take drop]. rewrite bind_cons, foldl_app, E1.
    rewrite (relax_queue (take n Q ≫= adjOf adj) m1 p1). cbn [fst snd].
    rewrite <- !app_assoc. cbn [app]. do 2 f_equal. lia.
Qed.

Variable l : list SubStep.
Hypothesis ids_unique : NoDup (ids l).

(** One pass of the [for] loop over a whole layer leaves the next layer
    in the queue, in the order in which the in-degrees reached zero. *)
Lemma level_order (P Q : list string) (m : gmap string Z) (vc : nat) :
  PeelInv l P Q m →
  ∃ m',
    forLoop (buildMaps l).1 (length Q)
      {| queue := Q; inDegree := m; visitedCount := vc |} []
    = ({| queue := nextLayer l P Q; inDegree := m';
          visitedCount := (vc + length Q)%nat |}, Q)
    ∧ PeelInv l (P ++ Q) (nextLayer l P Q) m'.
Proof.
  intros Hinv.
  destruct (forLoop_inv l (length Q) P Q m vc [] Hinv (le_n _))
    as (m' & pushed & Hfor & _ & Hinv').
  rewrite drop_all, firstn_all in Hfor, Hinv'. simpl in Hfor, Hinv'.
  pose proof (forLoop_run (buildMaps l).1 (length Q) Q m vc [] (le_n _)) as Hrun.
  rewrite drop_all, firstn_all in Hrun. simpl in Hrun.
  rewrite Hrun in Hfor. injection Hfor as Hpushed Hm'.
  set (W := Q ≫= adjOf (buildMaps l).1) in *.
  destruct (relax_fold m [] W) as [Hdeg _]. rewrite Hm' in Hdeg.
  destruct Hinv as [Hnd Hnodes Hd Hzero].
  assert (HQ : ∀ x, x ∈ Q → x ∈ ids l).
  { intros x Hx. apply Hnodes, elem_of_app. by right. }
  assert (HW : ∀ v, v ∈ W → v ∈ ids l).
  { intros v Hv. unfold W in Hv. apply list_elem_of_bind in Hv as (u & Hv & Hu).
    eapply adjOf_nodes; [by apply HQ|exact Hv]. }
  assert (Hafter : ∀ v, v ∈ ids l →
            Z.of_nat (inDegreeAfterPeeling l (P ++ Q) v)
            = degOf m v - Z.of_nat (occ v W)).
  { intros v Hv. rewrite <- Hdeg. symmetry. by apply (inv_deg _ _ _ _ Hinv'). }
  assert (Heq : pushed = nextLayer l P Q).
  { rewrite <- Hpushed.
    rewrite (relax_fold_order W m []).
    2:{ intros v Hv. pose proof (Hafter v (HW v Hv)). lia. }
    simpl. unfold nextLayer. rewrite <- (bind_presentTargets l Q HQ). fold W.
    apply filter_iff_in. intros v Hv.
    apply (proj1 (lastOccurrences_elem v W)) in Hv.
    pose proof (HW v Hv) as Hvn. pose proof (Hafter v Hvn) as Ha.
    unfold zeroInDegreeFrontier. rewrite list_elem_of_filter. split.
    - intros Hz. split; [|exact Hvn]. split; [|lia].
      intros Hin. apply (Hzero v Hvn) in Hin.
      pose proof (occ_elem v W Hv). rewrite (Hd v Hvn) in Hz. lia.
    - intros [[_ Hz] _]. lia. }
  exists m'. rewrite <- Heq. split; [|exact Hinv'].
  rewrite Hrun. by rewrite Hm', Hpushed.
Qed.

(** The [while] loop, when it returns, has appended layers each of which
    is the next layer of the one before. *)
Lemma whileLoop_order (fuel : nat) :
  ∀ (P Q : list string) (m : gmap string Z) (vc : nat)
    (levels lv : list (list string)) (vc' : nat),
  PeelInv l P Q m →
  whileLoop fuel (buildMaps l).1
    {| queue := Q; inDegree := m; visitedCount := vc |} levels = Some (lv, vc') →
  ∃ new, lv = levels ++ new
    ∧ (∀ L, new !! 0%nat = Some L → L = Q)
    ∧ (∀ k L L', new !! k = Some L → new !! S k = Some L' →
         L' = nextLayer l (P ++ concat (take k new)) L).
Proof.
  induction fuel as [|fuel IH]; intros P Q m vc levels lv vc' Hinv Hrun.
  - destruct Q as [|u Q]; [|discriminate]. simpl in Hrun.
    injection Hrun as <- <-. exists []. rewrite app_nil_r.
    split; [reflexivity|]. split; [intros L HL; done|intros k L L' HL; done].
  - destruct Q as [|u Q].
    { simpl in Hrun. injection Hrun as <- <-. exists []. rewrite app_nil_r.
      split; [reflexivity|]. split; [intros L HL; done|intros k L L' HL; done]. }
    destruct (level_order P (u :: Q) m vc Hinv) as (m' & Hfor & Hinv').
    rewrite whileLoop_cons, Hfor in Hrun. simpl in Hrun.
    destruct (IH _ _ _ _ _ _ _ Hinv' Hrun) as (new & -> & Hhead & Hnext).
    exists ((u :: Q) :: new). split; [by rewrite <- app_assoc|].
    split; [intros L HL; by injection HL as <-|].
    intros [|k] L L' HL HL'.
    + injection HL as <-. simpl in HL'. rewrite (Hhead L' HL').
      simpl. by rewrite app_nil_r.
    + simpl in HL, HL'. rewrite (Hnext k L L' HL HL').
      cbn [take concat]. by rewrite app_assoc.
Qed.

(** On a graph with unique ids every peeled layer but the first is the
    next layer of the one before it. *)
Lemma kahnLevels_order (kl : list (list string)) (vc : nat) :
  kahnLevels l = Some (kl, vc) →
  ∀ k L L', kl !! k = Some L → kl !! S k = Some L' →
    L' = nextLayer l (concat (take k kl)) L.
Proof.
  intros Hrun. unfold kahnLevels in Hrun.
  pose proof (initial_inv l ids_unique) as Hinv.
  revert Hrun Hinv. destruct (buildMaps l) as [adj deg] eqn:Hb.
  cbn [fst snd]. intros Hrun Hinv.
  assert (Hadj : adj = (buildMaps l).1) by (by rewrite Hb).
  rewrite Hadj in Hrun.
  destruct (whileLoop_order (S (length l)) [] _ _ _ _ _ _ Hinv Hrun)
    as (new & Hlv & _ & Hnext).
  simpl in Hlv. subst kl. exact Hnext.
Qed.

End Order.

(** C1 (as stated) fails: a later layer follows the order in which the
    queue was filled, here the order of the outgoing list of "A", not the
    node order. *)
Lemma later_layer_not_in_node_order :
  Layout.ids fanOut = ["A"; "B"; "C"]
  ∧ Layout.topoLevels fanOut = Some [["A"]; ["C"; "B"]]
  ∧ zeroInDegreeFrontier fanOut ["A"] = ["B"; "C"]
  ∧ ¬ (["C"; "B"] `sublist_of` Layout.ids fanOut).
Proof.
  split; [reflexivity|]. split; [vm_compute; reflexivity|].
  split; [vm_compute; reflexivity|].
  change (Layout.ids fanOut) with ["A"; "B"; "C"]. intros H.
  repeat match goal with
         | H : sublist _ _ |- _ => inversion H; clear H; subst
         end.
Qed.

Lemma diamond_positions (canvasWidth : Z) :
  766 ≤ canvasWidth →
  map (λ i, (Layout.placeLevels canvasWidth [["1"; "5"]; ["2"; "4"]; ["3"]]).2 !! i)
      ["1"; "5"; "2"; "4"; "3"]
  = [ Some {| pos_x := 10; pos_y := 10 |}; Some {| pos_x := 10; pos_y := 106 |};
      Some {| pos_x := 262; pos_y := 10 |}; Some {| pos_x := 262; pos_y := 106 |};
      Some {| pos_x := 514; pos_y := 10 |} ].
Proof.
  intros Hw. unfold Layout.placeLevels. cbn [foldl].
  unfold Layout.placeLevel at 3. cbn [fst snd].
  assert (H0 : Layout.wrap canvasWidth Layout.startCursor = Layout.startCursor)
    by reflexivity.
  rewrite H0. cbn [Layout.currentX Layout.currentY Layout.startCursor].
  set (c1 := Layout.advance ["1"; "5"] Layout.startCursor).
  unfold Layout.placeLevel at 2. cbn [fst snd].
  assert (H1 : Layout.wrap canvasWidth c1 = c1).
  { unfold Layout.wrap. case_decide as Hd; [|reflexivity].
    exfalso. revert Hd. vm_compute in c1. subst c1. simpl.
    unfold Layout.columnWidth, Layout.cardWidth, Layout.hSpacing. lia. }
  rewrite H1. set (c2 := Layout.advance ["2"; "4"] c1).
  unfold Layout.placeLevel. cbn [fst snd].
  assert (H2 : Layout.wrap canvasWidth c2 = c2).
  { unfold Layout.wrap. case_decide as Hd; [|reflexivity].
    exfalso. revert Hd. vm_compute in c1. subst c1. vm_compute in c2. subst c2.
    simpl. unfold Layout.columnWidth, Layout.cardWidth, Layout.hSpacing. lia. }
  rewrite H2. vm_compute. reflexivity.
Qed.

(** C1 (amended). On a graph with unique node ids the layering returns, and
    its layers are the layers [kl] peeled by Kahn's algorithm over the edges
    whose endpoints are both nodes, followed by at most one trailing layer:
    - layer 0 is exactly the nodes with zero in-degree, in node order;
    - every peeled layer is non-empty and consists exactly (up to order) of
      the nodes not yet peeled whose in-degree, counting only edges from
      nodes not yet peeled, is zero;
    - a later layer lists its nodes in the order in which their in-degree
      reached zero while the layer before was peeled, the nodes of that
      layer taken in its order and the targets of each in the order of its
      outgoing list: each node stands where the last edge into it was
      walked, so the layer is a subsequence of the present targets of the
      previous layer's nodes (not the node order);
    - peeling stops when that frontier is empty.
    For nodes 1..5 with edges 1→2, 2→3, 1→4, 4→3 the layers are
    [1,5], [2,4], [3], and with room for three columns they are placed at
    x = 10, 262, 514 in that order. *)
Theorem layering_follows_frontiers (l : list SubStep) (canvasWidth : Z) :
  (NoDup (Layout.ids l) →
   ∃ kl rest,
     Layout.topoLevels l = Some (kl ++ rest)
     ∧ (rest = [] ∨ rest = [unpeeled l kl])
     ∧ (∀ L, kl !! 0%nat = Some L → L = zeroInDegreeFrontier l [])
     ∧ (∀ k L, kl !! k = Some L →
          L ≠ [] ∧ L ≡ₚ zeroInDegreeFrontier l (concat (take k kl)))
     ∧ (∀ k L L', kl !! k = Some L → kl !! S k = Some L' →
          L' = nextLayer l (concat (take k kl)) L
          ∧ L' `sublist_of` (L ≫= presentTargets l))
     ∧ zeroInDegreeFrontier l (concat kl) = [])
  ∧ Layout.topoLevels diamond = Some [["1"; "5"]; ["2"; "4"]; ["3"]]
  ∧ (766 ≤ canvasWidth →
     map (λ i, (Layout.placeLevels canvasWidth
                  [["1"; "5"]; ["2"; "4"]; ["3"]]).2 !! i)
         ["1"; "5"; "2"; "4"; "3"]
     = [ Some {| pos_x := 10; pos_y := 10 |}; Some {| pos_x := 10; pos_y := 106 |};
         Some {| pos_x := 262; pos_y := 10 |}; Some {| pos_x := 262; pos_y := 106 |};
         Some {| pos_x := 514; pos_y := 10 |} ]).
Proof.
  split; [|split; [vm_compute; reflexivity|apply diamond_positions]].
  intros Hids.
  destruct (kahnLevels_frontiers l Hids)
    as (kl & Hrun & Hlayers & Hhead & Hnext & Hlast & Hnd & Hnodes).
  destruct (topoLevels_shape l kl Hids Hnd Hnodes Hrun) as [Hnil Hcons].
  assert (Hrest : ∃ rest, Layout.topoLevels l = Some (kl ++ rest)
                          ∧ (rest = [] ∨ rest = [unpeeled l kl])).
  { destruct (decide (unpeeled l kl = [])) as [Hu|Hu].
    - exists []. rewrite app_nil_r. split; [by apply Hnil|by left].
    - exists [unpeeled l kl]. split; [by apply Hcons|by right]. }
  destruct Hrest as (rest & Htopo & Hrest).
  exists kl, rest. split; [exact Htopo|]. split; [exact Hrest|].
  split; [exact Hhead|]. split; [exact Hlayers|]. split; [|exact Hlast].
  intros k L L' HL HL'. split.
  - by apply (kahnLevels_order l Hids kl _ Hrun k L L').
  - rewrite <- bind_presentTargets.
    + by eapply Hnext.
    + intros x Hx. apply Hnodes, elem_of_concat. exists L. split; [|exact Hx].
      by eapply list_elem_of_lookup_2.
Qed.

Lemma layering_follows_frontiers_witness :
  NoDup (Layout.ids crossOver)
  ∧ ∃ kl rest, Layout.topoLevels crossOver = Some (kl ++ rest)
      ∧ (∀ L, kl !! 0%nat = Some L → L = ["u1"; "u2"])
      ∧ (∀ L', kl !! 1%nat = Some L' → L' = ["w"; "v"])
      ∧ Layout.topoLevels crossOver = Some [["u1"; "u2"]; ["w"; "v"]].
Proof.
  assert (Hnd : NoDup (Layout.ids crossOver)).
  { apply (bool_decide_unpack (NoDup _)). vm_compute. exact I. }
  split; [exact Hnd|].
  destruct (layering_follows_frontiers crossOver 1000) as [Hgen _].
  destruct (Hgen Hnd) as (kl & rest & Htopo & _ & Hhead & _ & Hnext & _).
  exists kl, rest. split; [exact Htopo|].
  assert (H0 : ∀ L, kl !! 0%nat = Some L → L = ["u1"; "u2"]).
  { intros L HL. rewrite (Hhead L HL). vm_compute. reflexivity. }
  split; [exact H0|]. split; [|vm_compute; reflexivity]. intros L' HL'.
  destruct (kl !! 0%nat) as [L|] eqn:HL.
  - destruct (Hnext 0%nat L L' HL HL') as [Heq _].
    rewrite Heq, (H0 L eq_refl). vm_compute. reflexivity.
  - destruct kl as [|L0 kl0]; discriminate.
Defined.

Lemma twoCycle_layout (dom : Dom) (canvas : Canvas) :
  subStepCanvasRef dom = Some canvas →
  ∃ st' size,
    handleAutoLayoutSubSteps dom (stateOf (taskOf twoCycle)) = Some (st', size)
    ∧ map position (stepsOf st')
      = [Some {| pos_x := 10; pos_y := 10 |}; Some {| pos_x := 10; pos_y := 106 |}].
Proof.
  intros Hc. unfold handleAutoLayoutSubSteps. rewrite Hc.
  change (subSteps (extendedDetails (editableTask (stateOf (taskOf twoCycle)))))
    with (Some twoCycle).
  assert (Ht : Layout.topoLevels twoCycle = Some [["1"; "2"]])
    by (vm_compute; reflexivity).
  unfold twoCycle at 1. unfold twoCycle in Ht. cbn [mbind option_bind].
  rewrite Ht. cbn [mbind option_bind].
  assert (Hp : (Layout.placeLevels (clientWidth canvas) [["1"; "2"]]).2
               = <["2" := {| pos_x := 10; pos_y := 106 |}]>
                   (<["1" := {| pos_x := 10; pos_y := 10 |}]> ∅))
    by reflexivity.
  rewrite Hp.
  destruct (Layout.requiredSize _) as [w h]. eexists _, _. split; [reflexivity|].
  vm_compute. reflexivity.
Qed.

(** C6. The layering returns on every list of sub-steps, and so does the
    auto-layout command. On a graph with unique ids, once peeling has
    stopped (the frontier is empty), the nodes no layer contains are
    appended as one last layer, in node order, if there are any, so that
    every node is in exactly one layer. For the cycle 1→2, 2→1 peeling
    yields no layer, the only layer is the trailing layer [1,2], and the
    command stacks both nodes in the first column. *)
Theorem cycle_fallback_trailing_layer (l : list SubStep) (dom : Dom)
    (st : EditorState) :
  is_Some (Layout.topoLevels l)
  ∧ is_Some (handleAutoLayoutSubSteps dom st)
  ∧ (NoDup (Layout.ids l) →
     ∃ kl, Layout.kahnLevels l = Some (kl, length (concat kl))
       ∧ zeroInDegreeFrontier l (concat kl) = []
       ∧ (unpeeled l kl = [] → Layout.topoLevels l = Some kl)
       ∧ (unpeeled l kl ≠ [] →
          Layout.topoLevels l = Some (kl ++ [unpeeled l kl]))
       ∧ (∀ levels, Layout.topoLevels l = Some levels →
            concat levels ≡ₚ Layout.ids l))
  ∧ Layout.kahnLevels twoCycle = Some ([], 0%nat)
  ∧ Layout.topoLevels twoCycle = Some [["1"; "2"]]
  ∧ (∀ canvas, subStepCanvasRef dom = Some canvas →
     ∃ st' size,
       handleAutoLayoutSubSteps dom (stateOf (taskOf twoCycle)) = Some (st', size)
       ∧ map position (stepsOf st')
         = [Some {| pos_x := 10; pos_y := 10 |};
            Some {| pos_x := 10; pos_y := 106 |}]).
Proof.
  split; [apply topoLevels_total|].
  split; [|split; [|split; [vm_compute; reflexivity|
                    split; [vm_compute; reflexivity|apply twoCycle_layout]]]].
  - unfold handleAutoLayoutSubSteps.
    destruct (subSteps (extendedDetails (editableTask st))) as [[|s ss]|]; eauto.
    destruct (subStepCanvasRef dom) as [canvas|]; eauto.
    destruct (topoLevels_total (s :: ss)) as [levels ->]. simpl.
    destruct (Layout.requiredSize _) as [w h]. eauto.
  - intros Hids.
    destruct (kahnLevels_frontiers l Hids)
      as (kl & Hrun & _ & _ & _ & Hlast & Hnd & Hnodes).
    destruct (topoLevels_shape l kl Hids Hnd Hnodes Hrun) as [Hnil Hcons].
    exists kl. split; [exact Hrun|]. split; [exact Hlast|].
    split; [exact Hnil|]. split; [exact Hcons|].
    intros levels Hlev. pose proof (peeled_and_unpeeled l kl Hids Hnd Hnodes) as Hp.
    destruct (decide (unpeeled l kl = [])) as [Hu|Hu].
    + rewrite (Hnil Hu) in Hlev. injection Hlev as <-.
      rewrite Hu, app_nil_r in Hp. exact Hp.
    + rewrite (Hcons Hu) in Hlev. injection Hlev as <-.
      rewrite concat_app. simpl. rewrite app_nil_r. exact Hp.
Qed.

Lemma cycle_fallback_trailing_layer_witness :
  let l := [mkStep "a" ["b"]; mkStep "b" ["c"]; mkStep "c" ["b"]] in
  NoDup (Layout.ids l)
  ∧ Layout.topoLevels l = Some [["a"]; ["b"; "c"]]
  ∧ unpeeled l [["a"]] = ["b"; "c"].
Proof.
  intros l.
  assert (Hnd : NoDup (Layout.ids l)).
  { apply (bool_decide_unpack (NoDup _)). vm_compute. exact I. }
  split; [exact Hnd|]. split; [|vm_compute; reflexivity].
  destruct (cycle_fallback_trailing_layer l
              (domOf wideCanvas l) (stateOf (taskOf l)))
    as (_ & _ & Hgen & _).
  destruct (Hgen Hnd) as (kl & Hrun & _ & _ & Hcons & _).
  assert (Hkl : kl = [["a"]]).
  { assert (Hc : Layout.kahnLevels l = Some ([["a"]], 1%nat))
      by (vm_compute; reflexivity).
    rewrite Hc in Hrun. by injection Hrun as <-. }
  subst kl. rewrite Hcons; [reflexivity|]. vm_compute. discriminate.
Defined.

(** ** The commands on concrete graphs *)

Lemma remove_purges_id_witness :
  let st := stateOf (taskOf [mkStep "a" ["b"; "c"]; mkStep "b" ["c"]; mkStep "c" ["b"]]) in
  map (λ ss, (ss_id ss, outgoing ss)) (stepsOf (handleRemoveSubStep "b" st))
  = [("a", ["c"]); ("c", [])]
  ∧ ∀ ss, ss ∈ stepsOf (handleRemoveSubStep "b" st) → "b" ∉ outgoing ss.
Proof.
  intros st. split; [reflexivity|].
  intros ss Hss. by apply (remove_purges_id "b" st).
Defined.

Lemma toggle_recomputes_status_witness :
  let item i c := {| ai_id := i; ai_text := ""; completed := c |} in
  let step := {| ss_id := "s"; ss_text := ""; notes := None;
                 status := Some NOT_STARTED;
                 actionItems := Some [item "x" false; item "y" true];
                 ss_attachments := None; position := None;
                 nextSubStepIds := None |} in
  let st := stateOf (taskOf [step; mkStep "t" []]) in
  map status (stepsOf (handleToggleActionItem "s" "x" st))
  = [Some COMPLETED; Some NOT_STARTED]
  ∧ map status (stepsOf (handleToggleActionItem "s" "y" st))
    = [Some NOT_STARTED; Some NOT_STARTED]
  ∧ length (stepsOf (handleToggleActionItem "s" "x" st)) = 2%nat.
Proof.
  intros item step st. split; [reflexivity|]. split; [reflexivity|].
  pose proof (toggle_recomputes_status "s" "x" st) as H.
  apply Forall2_length in H. rewrite <- H. reflexivity.
Defined.

(** * Further properties of the component *)

(** ** The undo timeline *)

Lemma undo_snoc (st : EditorState) (h : list ProjectTask) (p : ProjectTask) :
  localHistory st = h ++ [p] →
  handleLocalUndo st
  = with_task st p h (editableTask st :: localRedoHistory st).
Proof.
  intros Hh. unfold handleLocalUndo. rewrite Hh, last_snoc, removelast_last.
  reflexivity.
Qed.

Lemma history_cases (st : EditorState) :
  localHistory st = [] ∨ ∃ h p, localHistory st = h ++ [p].
Proof.
  destruct (localHistory st) as [|x l] using rev_ind; [by left|].
  right. by exists l, x.
Qed.

Lemma undo_keeps_timeline (st : EditorState) :
  timeline (handleLocalUndo st) = timeline st.
Proof.
  destruct (history_cases st) as [Hnil|(h & p & Hh)].
  - unfold handleLocalUndo. by rewrite Hnil.
  - rewrite (undo_snoc st h p Hh). unfold timeline. simpl.
    rewrite Hh, <- app_assoc. reflexivity.
Qed.

Lemma redo_keeps_timeline (st : EditorState) :
  timeline (handleLocalRedo st) = timeline st.
Proof.
  unfold handleLocalRedo, timeline.
  destruct (localRedoHistory st) as [|n r] eqn:Hr; simpl.
  - by rewrite Hr.
  - by rewrite <- app_assoc.
Qed.

Lemma redo_after_undo (st : EditorState) :
  localHistory st ≠ [] → handleLocalRedo (handleLocalUndo st) = st.
Proof.
  intros Hne. destruct (history_cases st) as [Hnil|(h & p & Hh)]; [done|].
  rewrite (undo_snoc st h p Hh). unfold handleLocalRedo. simpl.
  rewrite <- Hh. by destruct st.
Qed.

(** X1. Undo and redo only move the cursor along the timeline: the
    sequence of past states, current state and redoable states is the same
    before and after, also when the stack concerned is empty. A commit cuts
    the timeline after the current state and appends the new state. *)
Theorem undo_redo_keep_timeline (st : EditorState)
    (u : ProjectTask → ProjectTask) :
  timeline (handleLocalUndo st) = timeline st
  ∧ timeline (handleLocalRedo st) = timeline st
  ∧ timeline (updateEditableTaskWithHistory u st)
    = localHistory st ++ [editableTask st; u (editableTask st)].
Proof.
  split; [apply undo_keeps_timeline|]. split; [apply redo_keeps_timeline|].
  unfold timeline. simpl. by rewrite <- app_assoc.
Qed.

(** X2. Redo undoes undo and undo undoes redo, on the whole editor state:
    when there is something to undo, undo followed by redo changes
    nothing, and when there is something to redo, redo followed by undo
    changes nothing. *)
Theorem undo_redo_inverse (st : EditorState) :
  (localHistory st ≠ [] → handleLocalRedo (handleLocalUndo st) = st)
  ∧ (localRedoHistory st ≠ [] → handleLocalUndo (handleLocalRedo st) = st).
Proof.
  split; [apply redo_after_undo|].
  - intros Hne. unfold handleLocalRedo.
    destruct (localRedoHistory st) as [|n r] eqn:Hr; [done|].
    rewrite (undo_snoc
               (with_task st n (localHistory st ++ [editableTask st]) r)
               (localHistory st) (editableTask st) eq_refl). simpl.
    rewrite <- Hr. by destruct st.
Qed.

Lemma undo_redo_inverse_witness :
  let t0 := taskOf [mkStep "a" []] in
  let st := updateEditableTaskWithHistory (λ _, taskOf []) (stateOf t0) in
  localHistory st ≠ []
  ∧ handleLocalRedo (handleLocalUndo st) = st
  ∧ editableTask (handleLocalUndo st) = t0.
Proof.
  intros t0 st.
  assert (Hne : localHistory st ≠ []) by (unfold st; simpl; discriminate).
  split; [exact Hne|]. split; [|reflexivity].
  by apply (undo_redo_inverse st).
Defined.

Lemma undo_length (st : EditorState) :
  length (localHistory (handleLocalUndo st)) = pred (length (localHistory st)).
Proof.
  destruct (history_cases st) as [Hnil|(h & p & Hh)].
  - unfold handleLocalUndo. rewrite Hnil. simpl. by rewrite Hnil.
  - rewrite (undo_snoc st h p Hh), Hh, length_app. simpl. lia.
Qed.

Lemma undo_iter (n : nat) :
  ∀ st, (n ≤ length (localHistory st))%nat →
  timeline (Nat.iter n handleLocalUndo st) = timeline st
  ∧ length (localHistory (Nat.iter n handleLocalUndo st))
    = (length (localHistory st) - n)%nat
  ∧ Nat.iter n handleLocalRedo (Nat.iter n handleLocalUndo st) = st.
Proof.
  induction n as [|n IH]; intros st Hn.
  - simpl. split; [reflexivity|]. split; [lia|reflexivity].
  - destruct (IH st ltac:(lia)) as (Ht & Hl & Hr). simpl.
    split; [|split].
    + by rewrite undo_keeps_timeline.
    + rewrite undo_length, Hl. lia.
    + rewrite <- Nat.iter_succ, Nat.iter_succ_r.
      rewrite redo_after_undo; [exact Hr|].
      intros Hnil. rewrite Hnil in Hl. simpl in Hl. lia.
Qed.

Lemma timeline_split (st' : EditorState) (h r : list ProjectTask)
    (c : ProjectTask) :
  timeline st' = h ++ c :: r →
  length (localHistory st') = length h →
  localHistory st' = h ∧ editableTask st' = c ∧ localRedoHistory st' = r.
Proof.
  unfold timeline. intros Ht Hl.
  apply app_inj_1 in Ht as [Hh Hrest]; [|exact Hl].
  injection Hrest as Hc Hr. done.
Qed.

Lemma commits_history (us : list (ProjectTask → ProjectTask)) (st : EditorState) :
  ∃ later,
    localHistory (run_ops (map OpCommit us) st)
      ++ [editableTask (run_ops (map OpCommit us) st)]
    = localHistory st ++ editableTask st :: later
    ∧ length later = length us.
Proof.
  induction us as [|u us IH] using rev_ind.
  - exists []. split; reflexivity.
  - destruct IH as (later & Ht & Hl).
    rewrite map_app. simpl. rewrite run_ops_snoc. simpl.
    exists (later ++ [u (editableTask (run_ops (map OpCommit us) st))]).
    split.
    + rewrite Ht, <- app_assoc. reflexivity.
    + rewrite !length_app, Hl. reflexivity.
Qed.

(** X3. After any number of commits, the same number of undos brings back
    the task and the undo stack as they were before the first commit, and
    the same number of redos then brings back the state after the last
    commit. *)
Theorem undo_all_commits (us : list (ProjectTask → ProjectTask))
    (st : EditorState) :
  let committed := run_ops (map OpCommit us) st in
  let undone := Nat.iter (length us) handleLocalUndo committed in
  editableTask undone = editableTask st
  ∧ localHistory undone = localHistory st
  ∧ Nat.iter (length us) handleLocalRedo undone = committed.
Proof.
  intros committed undone.
  destruct (commits_history us st) as (later & Ht & Hl). fold committed in Ht.
  assert (Hlen : length (localHistory committed)
                 = (length (localHistory st) + length us)%nat).
  { apply (f_equal length) in Ht. rewrite !length_app in Ht. simpl in Ht. lia. }
  destruct (undo_iter (length us) committed ltac:(lia)) as (Htl & Hhl & Hredo).
  fold undone in Htl, Hhl, Hredo.
  destruct (timeline_split undone (localHistory st) (later ++ localRedoHistory committed)
              (editableTask st)) as (Hh & Hc & _).
  - rewrite Htl. unfold timeline.
    change (localHistory committed ++ editableTask committed :: localRedoHistory committed)
      with (localHistory committed ++ [editableTask committed] ++ localRedoHistory committed).
    rewrite app_assoc, Ht, <- app_assoc. reflexivity.
  - rewrite Hhl, Hlen. lia.
  - split; [exact Hc|]. split; [exact Hh|exact Hredo].
Qed.

(** ** The graph invariant *)

Lemma ids_map_same (f : SubStep → SubStep) (l : list SubStep) :
  (∀ ss, ss_id (f ss) = ss_id ss) → Layout.ids (map f l) = Layout.ids l.
Proof.
  intros Hf. unfold Layout.ids. rewrite <- list_fmap_compose.
  apply list_fmap_ext. intros i ss _. apply Hf.
Qed.

Lemma graphOf_ids (l : list SubStep) : map fst (graphOf l) = Layout.ids l.
Proof. unfold graphOf. rewrite <- list_fmap_compose. reflexivity. Qed.

Lemma graphOf_map_same (f : SubStep → SubStep) (l : list SubStep) :
  (∀ ss, ss_id (f ss) = ss_id ss ∧ outgoing (f ss) = outgoing ss) →
  graphOf (map f l) = graphOf l.
Proof.
  intros Hf. unfold graphOf. rewrite <- list_fmap_compose.
  apply list_fmap_ext. intros i ss _. simpl.
  destruct (Hf ss) as [-> ->]. reflexivity.
Qed.

Lemma GraphOK_graphOf (l l' : list SubStep) :
  graphOf l = graphOf l' → GraphOK l → GraphOK l'.
Proof.
  intros Hg [Hnd Hout]. split.
  - by rewrite <- graphOf_ids, <- Hg, graphOf_ids.
  - intros ss' Hss'.
    assert (Hin : (ss_id ss', outgoing ss') ∈ graphOf l).
    { rewrite Hg. apply list_elem_of_fmap. by exists ss'. }
    apply list_elem_of_fmap in Hin as (ss & Heq & Hss).
    injection Heq as Hid Ho. rewrite Hid, Ho.
    destruct (Hout ss Hss) as [Hnd' Ht]. split; [exact Hnd'|].
    intros t Hin. destruct (Ht t Hin) as [Hti Hne]. split; [|exact Hne].
    by rewrite <- graphOf_ids, <- Hg, graphOf_ids.
Qed.

Lemma GraphOK_update (f : SubStep → SubStep) (i : string) (l : list SubStep) :
  (∀ ss, ss_id (f ss) = ss_id ss) →
  (∀ ss, ss ∈ l → ss_id ss = i →
         NoDup (outgoing (f ss))
         ∧ ∀ t, t ∈ outgoing (f ss) → t ∈ Layout.ids l ∧ t ≠ ss_id ss) →
  GraphOK l →
  GraphOK (map (λ ss, if decide (ss_id ss = i) then f ss else ss) l).
Proof.
  intros Hid Hf [Hnd Hout].
  assert (Hids : Layout.ids (map (λ ss, if decide (ss_id ss = i) then f ss else ss) l)
                 = Layout.ids l).
  { apply ids_map_same. intros ss. destruct (decide (ss_id ss = i)); [apply Hid|done]. }
  split; [by rewrite Hids|].
  intros ss' Hss'. rewrite Hids.
  apply list_elem_of_fmap in Hss' as (ss & -> & Hss).
  destruct (decide (ss_id ss = i)) as [Heq|Hne].
  - rewrite Hid. by apply Hf.
  - by apply Hout.
Qed.

Lemma GraphOK_remove (i : string) (l : list SubStep) :
  GraphOK l → GraphOK (removeSubStep i l).
Proof.
  intros [Hnd Hout].
  assert (Hids : ∀ x, x ∈ Layout.ids (removeSubStep i l)
                      ↔ x ∈ Layout.ids l ∧ x ≠ i).
  { intros x. unfold removeSubStep, Layout.ids.
    rewrite <- list_fmap_compose, !list_elem_of_fmap. split.
    - intros (ss & -> & Hss). apply list_elem_of_filter in Hss as [Hne Hss].
      split; [by exists ss|exact Hne].
    - intros [(ss & -> & Hss) Hne]. exists ss. split; [reflexivity|].
      by apply list_elem_of_filter. }
  split.
  - unfold removeSubStep. rewrite ids_map_same by done.
    assert (Hsub : Layout.ids (filter (λ ss, ss_id ss ≠ i) l)
                   `sublist_of` Layout.ids l).
    { apply fmap_sublist, sublist_filter. }
    by eapply sublist_NoDup.
  - intros ss' Hss'. unfold removeSubStep in Hss'.
    apply list_elem_of_fmap in Hss' as (ss & -> & Hss).
    apply list_elem_of_filter in Hss as [Hne Hss].
    destruct (Hout ss Hss) as [Hnd' Ht].
    assert (Ho : outgoing (set_nextSubStepIds ss
                             (filter (λ j, j ≠ i) <$> nextSubStepIds ss))
                 = filter (λ j, j ≠ i) (outgoing ss)).
    { unfold outgoing. simpl. by destruct (nextSubStepIds ss). }
    rewrite Ho. split; [by apply NoDup_filter|].
    intros t Hin. apply list_elem_of_filter in Hin as [Hti Hin].
    destruct (Ht t Hin) as [Hids' Hself]. split; [|exact Hself].
    apply Hids. by split.
Qed.

Lemma TimelineOK_same (st st' : EditorState) :
  timeline st' = timeline st → TimelineOK st → TimelineOK st'.
Proof. intros Ht Hok t Hin. apply Hok. by rewrite <- Ht. Qed.

Lemma TimelineOK_current (st : EditorState) :
  TimelineOK st → GraphOK (stepsOf st).
Proof.
  intros Hok. apply (Hok (editableTask st)). unfold timeline.
  apply elem_of_app. right. apply list_elem_of_here.
Qed.

Lemma TimelineOK_update_steps (f : EditableExtendedTaskDetails → list SubStep)
    (st : EditorState) :
  TimelineOK st → GraphOK (f (extendedDetails (editableTask st))) →
  TimelineOK (updateExtended_subSteps f st).
Proof.
  intros Hok Hnew t Hin. unfold timeline in Hin. simpl in Hin.
  rewrite <- app_assoc in Hin. simpl in Hin.
  apply elem_of_app in Hin as [Hin|Hin].
  - apply Hok. unfold timeline. apply elem_of_app. by left.
  - apply elem_of_cons in Hin as [->|Hin].
    + by apply TimelineOK_current.
    + apply list_elem_of_singleton in Hin as ->. exact Hnew.
Qed.

Lemma GraphOK_end_connection (a b : string) (l : list SubStep) :
  a ≠ b → b ∈ Layout.ids l → GraphOK l →
  GraphOK (map (λ ss, if decide (ss_id ss = a)
                      then set_nextSubStepIds ss
                             (Some (array_from_set (outgoing ss ++ [b])))
                      else ss) l).
Proof.
  intros Hne Hb Hok. apply GraphOK_update; [done| |exact Hok].
  intros ss Hss Hid. rewrite outgoing_set. split; [apply array_from_set_NoDup|].
  intros t Ht. apply elem_of_array_from_set, elem_of_app in Ht.
  destruct Hok as [_ Hout]. destruct Ht as [Ht|Ht].
  - by apply (Hout ss Hss).
  - apply list_elem_of_singleton in Ht as ->. split; [exact Hb|congruence].
Qed.

Lemma outgoing_filter (ss : SubStep) (b : string) :
  outgoing (set_nextSubStepIds ss (filter (λ i, i ≠ b) <$> nextSubStepIds ss))
  = filter (λ i, i ≠ b) (outgoing ss).
Proof. unfold outgoing. simpl. by destruct (nextSubStepIds ss). Qed.

Lemma GraphOK_delete_connection (a b : string) (l : list SubStep) :
  GraphOK l →
  GraphOK (map (λ ss, if decide (ss_id ss = a)
                      then set_nextSubStepIds ss
                             (filter (λ i, i ≠ b) <$> nextSubStepIds ss)
                      else ss) l).
Proof.
  intros Hok. apply GraphOK_update; [done| |exact Hok].
  intros ss Hss Hid. rewrite outgoing_filter. destruct Hok as [_ Hout].
  destruct (Hout ss Hss) as [Hnd Ht]. split; [by apply NoDup_filter|].
  intros t Hin. apply list_elem_of_filter in Hin as [_ Hin]. by apply Ht.
Qed.

Lemma GraphOK_add (newId : string) (i : nat) (l : list SubStep) :
  newId ∉ Layout.ids l → GraphOK l → GraphOK (l ++ [newSubStep newId i]).
Proof.
  intros Hfresh [Hnd Hout].
  assert (Hids : Layout.ids (l ++ [newSubStep newId i]) = Layout.ids l ++ [newId]).
  { unfold Layout.ids. by rewrite map_app. }
  split.
  - rewrite Hids. apply NoDup_app. split; [exact Hnd|].
    split; [|apply NoDup_singleton].
    intros x Hx Hx'. apply list_elem_of_singleton in Hx' as ->. contradiction.
  - intros ss Hss. rewrite Hids. apply elem_of_app in Hss as [Hss|Hss].
    + destruct (Hout ss Hss) as [Hnd' Ht]. split; [exact Hnd'|].
      intros t Hin. destruct (Ht t Hin) as [Hti Hself].
      split; [apply elem_of_app; by left|exact Hself].
    + apply list_elem_of_singleton in Hss as ->. split; [constructor|].
      intros t Hin. inversion Hin.
Qed.

Lemma stepsOf_auto_layout (dom : Dom) (st st' : EditorState)
    (size : option InnerCanvas) :
  handleAutoLayoutSubSteps dom st = Some (st', size) →
  st' = st
  ∨ ∃ newPositions,
      st' = updateExtended_subSteps
              (λ d, Layout.applyPositions newPositions (orEmpty (subSteps d))) st.
Proof.
  unfold handleAutoLayoutSubSteps.
  destruct (subSteps (extendedDetails (editableTask st))) as [[|s l]|];
    try (intros H; injection H as <- _; by left).
  destruct (subStepCanvasRef dom) as [canvas|];
    [|intros H; injection H as <- _; by left].
  destruct (Layout.topoLevels (s :: l)) as [levels|]; [|discriminate]. simpl.
  destruct (Layout.requiredSize _) as [w h]. intros H. injection H as <- _.
  right. eexists. reflexivity.
Qed.

Lemma graphOf_applyPositions (np : gmap string Position) (l : list SubStep) :
  graphOf (Layout.applyPositions np l) = graphOf l.
Proof. unfold Layout.applyPositions. by apply graphOf_map_same. Qed.

Lemma graphOf_update (f : SubStep → SubStep) (i : string) (l : list SubStep) :
  (∀ ss, ss_id (f ss) = ss_id ss ∧ outgoing (f ss) = outgoing ss) →
  graphOf (map (λ ss, if decide (ss_id ss = i) then f ss else ss) l) = graphOf l.
Proof.
  intros Hf. apply graphOf_map_same. intros ss.
  destruct (decide (ss_id ss = i)); [apply Hf|done].
Qed.

(** X4. Every command keeps the graph well formed, in the current state
    and in every state undo or redo can bring back: node ids stay unique,
    outgoing lists stay free of duplicates, and every outgoing id stays the
    id of another node. This needs the two guarantees of the controls
    (a generated node id is new; a connection is released on an existing
    node) and nothing else; it holds for every sequence of commands. *)
Theorem commands_keep_graph_well_formed (cs : list Command) (st : EditorState) :
  TimelineOK st → admissibleRun st cs →
  TimelineOK (foldl run_command st cs)
  ∧ GraphOK (stepsOf (foldl run_command st cs)).
Proof.
  revert st. induction cs as [|c cs IH]; intros st Hok Hadm.
  { split; [exact Hok|by apply TimelineOK_current]. }
  destruct Hadm as [Hc Hrest]. simpl. apply IH; [|exact Hrest]. clear IH Hrest.
  pose proof (TimelineOK_current st Hok) as Hcur.
  destruct c; simpl in *.
  - (* add *)
    apply (TimelineOK_same
             (updateExtended_subSteps
                (λ d, orEmpty (subSteps d) ++ [newSubStep newId (length (stepsOf st))])
                st)); [reflexivity|].
    apply TimelineOK_update_steps; [exact Hok|]. by apply GraphOK_add.
  - (* remove *)
    unfold handleRemoveSubStep.
    apply TimelineOK_update_steps; [by eapply TimelineOK_same|].
    by apply GraphOK_remove.
  - by eapply TimelineOK_same.
  - (* end connection *)
    unfold handleEndConnection.
    destruct (connectingState st) as [[fromId p]|]; [|exact Hok].
    destruct (decide (fromId = targetId)); [by eapply TimelineOK_same|].
    apply (TimelineOK_same
             (handleUpdateSubStep fromId
                (λ ss, set_nextSubStepIds ss
                         (Some (array_from_set (outgoing ss ++ [targetId])))) st));
      [reflexivity|].
    apply TimelineOK_update_steps; [exact Hok|].
    by apply GraphOK_end_connection.
  - unfold handleCanvasMouseUp.
    destruct (connectingState st); [by eapply TimelineOK_same|exact Hok].
  - (* delete connection *)
    apply TimelineOK_update_steps; [exact Hok|].
    by apply GraphOK_delete_connection.
  - by eapply TimelineOK_same.
  - (* drop *)
    unfold handleSubStepDrop.
    destruct (draggedSubStepIdRef st) as [dragged|]; [|exact Hok].
    destruct (subStepCanvasRef dom) as [canvas|]; [|exact Hok].
    destruct (decide (dragged = "")); [exact Hok|].
    destruct (subStepCardRefs dom !! dragged) as [card|]; [|exact Hok].
    eapply TimelineOK_same; [reflexivity|].
    apply TimelineOK_update_steps; [exact Hok|].
    eapply GraphOK_graphOf; [|exact Hcur]. symmetry. by apply graphOf_update.
  - (* auto layout *)
    destruct (handleAutoLayoutSubSteps dom st) as [[st' size]|] eqn:Hl;
      [|exact Hok].
    destruct (stepsOf_auto_layout _ _ _ _ Hl) as [->|(np & ->)]; [exact Hok|].
    apply TimelineOK_update_steps; [exact Hok|].
    eapply GraphOK_graphOf; [|exact Hcur]. symmetry. apply graphOf_applyPositions.
  - (* toggle *)
    apply TimelineOK_update_steps; [exact Hok|].
    eapply GraphOK_graphOf; [|exact Hcur]. symmetry.
    apply graphOf_map_same. intros ss.
    destruct (decide (ss_id ss ≠ subStepId)); done.
  - apply TimelineOK_update_steps; [exact Hok|].
    eapply GraphOK_graphOf; [|exact Hcur]. symmetry. by apply graphOf_update.
  - apply TimelineOK_update_steps; [exact Hok|].
    eapply GraphOK_graphOf; [|exact Hcur]. symmetry. by apply graphOf_update.
  - eapply TimelineOK_same; [|exact Hok]. apply undo_keeps_timeline.
  - eapply TimelineOK_same; [|exact Hok]. apply redo_keeps_timeline.
Qed.

Lemma commands_keep_graph_well_formed_witness :
  let st := stateOf (taskOf [mkStep "a" []; mkStep "b" []]) in
  let cs := [ CmdStartConnection "a" {| pos_x := 0; pos_y := 0 |};
              CmdEndConnection "b"; CmdAddSubStep "c";
              CmdRemoveSubStep "b"; CmdUndo ] in
  graphOf (stepsOf (foldl run_command st cs))
  = [("a", ["b"]); ("b", []); ("c", [])]
  ∧ GraphOK (stepsOf (foldl run_command st cs)).
Proof.
  intros st cs. split; [reflexivity|].
  apply (commands_keep_graph_well_formed cs st).
  - intros t Ht. apply list_elem_of_singleton in Ht as ->. split.
    + apply (bool_decide_unpack (NoDup _)). vm_compute. exact I.
    + intros ss Hss. split.
      * apply elem_of_cons in Hss as [->|Hss]; [constructor|].
        apply list_elem_of_singleton in Hss as ->. constructor.
      * intros t Ht. apply elem_of_cons in Hss as [->|Hss]; [inversion Ht|].
        apply list_elem_of_singleton in Hss as ->. inversion Ht.
  - simpl. repeat split.
    + apply list_elem_of_further, list_elem_of_here.
    + intros Hin. repeat (apply elem_of_cons in Hin as [Hin|Hin]; [discriminate|]).
      inversion Hin.
Defined.

(** ** Connections: delete *)

Lemma array_from_set_app_fresh (l : list string) (b : string) :
  NoDup l → b ∉ l →
  filter (λ i, i ≠ b) (array_from_set (l ++ [b])) = l.
Proof.
  intros Hnd Hb. rewrite (add_target_absent l b Hb), (array_from_set_NoDup_id l Hnd).
  rewrite filter_app. simpl. rewrite filter_cons.
  destruct (decide (b ≠ b)) as [Hne|_]; [by destruct Hne|].
  rewrite filter_nil, app_nil_r.
  clear Hnd. induction l as [|x l IH]; [reflexivity|].
  apply not_elem_of_cons in Hb as [Hne Hb]. rewrite filter_cons.
  destruct (decide (x ≠ b)) as [_|Hn]; [by rewrite (IH Hb)|].
  exfalso. apply Hn. congruence.
Qed.

(** X5. [handleDeleteConnection sourceId targetId] rewrites only the nodes
    with id [sourceId], and in them only the outgoing list, from which it
    takes every occurrence of [targetId] and nothing else. Deleting a
    connection that was just drawn takes the graph back: if, before the
    gesture from [a] was released on [b], the outgoing lists of [a] had no
    duplicates and did not contain [b], every node is as it was, except
    that an absent outgoing list has become the empty list. *)
Theorem delete_connection_effect (a b : string) (p : Position) (st : EditorState) :
  Forall2
    (λ ss ss',
       (ss_id ss ≠ a → ss' = ss)
       ∧ (ss_id ss = a →
          ss' = set_nextSubStepIds ss (nextSubStepIds ss')
          ∧ outgoing ss' = filter (λ i, i ≠ b) (outgoing ss)
          ∧ b ∉ outgoing ss'))
    (stepsOf st) (stepsOf (handleDeleteConnection a b st))
  ∧ (connectingState st = Some (a, p) → a ≠ b →
     (∀ ss, ss ∈ stepsOf st → ss_id ss = a →
            NoDup (outgoing ss) ∧ b ∉ outgoing ss) →
     Forall2
       (λ ss ss', ss' = set_nextSubStepIds ss (nextSubStepIds ss')
                  ∧ outgoing ss' = outgoing ss)
       (stepsOf st)
       (stepsOf (handleDeleteConnection a b (handleEndConnection b st)))).
Proof.
  split.
  - unfold handleDeleteConnection. rewrite stepsOf_update.
    apply Forall2_fmap_r, Forall_Forall2_diag, Forall_forall.
    intros ss _. unfold compose.
    destruct (decide (ss_id ss = a)) as [Heq|Hne].
    + split; [intros; contradiction|]. intros _. split; [reflexivity|].
      rewrite outgoing_filter. split; [reflexivity|].
      intros Hin. apply list_elem_of_filter in Hin as [Hne _]. congruence.
    + split; [reflexivity|]. intros; contradiction.
  - intros Hc Hne Hsrc. unfold handleDeleteConnection.
    rewrite stepsOf_update, (stepsOf_end_connection _ _ _ _ Hc Hne).
    rewrite <- list_fmap_compose.
    apply Forall2_fmap_r, Forall_Forall2_diag, Forall_forall.
    intros ss Hss. unfold compose.
    destruct (decide (ss_id ss = a)) as [Heq|Hneq].
    + simpl. destruct (decide (ss_id ss = a)); [|contradiction].
      destruct (Hsrc ss Hss Heq) as [Hnd Hb].
      split; [reflexivity|].
      rewrite outgoing_set. by apply array_from_set_app_fresh.
    + destruct (decide (ss_id ss = a)); [contradiction|].
      split; [by destruct ss|reflexivity].
Qed.

Lemma delete_connection_effect_witness :
  let st := connectingFrom "a" [mkStep "a" ["c"]; mkStep "b" []; mkStep "c" []] in
  map outgoing (stepsOf (handleEndConnection "b" st)) = [["c"; "b"]; []; []]
  ∧ stepsOf (handleDeleteConnection "a" "b" (handleEndConnection "b" st))
    = stepsOf st.
Proof.
  intros st. split; [reflexivity|].
  destruct (delete_connection_effect "a" "b" {| pos_x := 0; pos_y := 0 |} st)
    as [_ Hback].
  assert (Hpre : ∀ ss, ss ∈ stepsOf st → ss_id ss = "a" →
                       NoDup (outgoing ss) ∧ "b" ∉ outgoing ss).
  { intros ss Hss Hid. apply elem_of_cons in Hss as [->|Hss].
    - split; [apply NoDup_singleton|].
      intros Hin. apply list_elem_of_singleton in Hin. discriminate.
    - apply elem_of_cons in Hss as [->|Hss]; [discriminate|].
      apply list_elem_of_singleton in Hss as ->. discriminate. }
  specialize (Hback eq_refl ltac:(discriminate) Hpre).
  apply Forall2_length in Hback. reflexivity.
Defined.

(** ** Adding a node *)

Lemma gridPosition_coords (i : nat) :
  ∃ col row, 0 ≤ col < 4 ∧ 0 ≤ row ∧ Z.of_nat i = 4 * row + col
    ∧ pos_x (gridPosition i) = 10 + col * 210
    ∧ pos_y (gridPosition i) = row * 90 + 10.
Proof.
  exists (Z.of_nat i mod 4), (Z.of_nat i / 4).
  pose proof (Z.mod_pos_bound (Z.of_nat i) 4 ltac:(lia)).
  pose proof (Z.div_pos (Z.of_nat i) 4 ltac:(lia) ltac:(lia)).
  pose proof (Z.div_mod (Z.of_nat i) 4 ltac:(lia)).
  simpl. lia.
Qed.

(** X6. The default positions form a grid of four columns: the [i]-th
    position has x in 10, 220, 430, 640 and y = 10 + 90 * (row index), and
    two different indices never share a cell: their positions are at least
    210 apart horizontally or at least 90 apart vertically. *)
Theorem grid_positions_apart (i j : nat) :
  10 ≤ pos_x (gridPosition i) ≤ 640
  ∧ 10 ≤ pos_y (gridPosition i)
  ∧ (i ≠ j →
     210 ≤ Z.abs (pos_x (gridPosition i) - pos_x (gridPosition j))
     ∨ 90 ≤ Z.abs (pos_y (gridPosition i) - pos_y (gridPosition j))).
Proof.
  destruct (gridPosition_coords i) as (ci & ri & Hci & Hri & Hi & Hxi & Hyi).
  destruct (gridPosition_coords j) as (cj & rj & Hcj & Hrj & Hj & Hxj & Hyj).
  rewrite Hxi, Hyi, Hxj, Hyj. split; [lia|]. split; [lia|].
  intros Hne. destruct (decide (ci = cj)) as [Hc|Hc]; [right|left]; lia.
Qed.

Lemma grid_positions_apart_witness :
  gridPosition 3 = {| pos_x := 640; pos_y := 10 |}
  ∧ gridPosition 4 = {| pos_x := 10; pos_y := 100 |}
  ∧ (210 ≤ Z.abs (pos_x (gridPosition 3) - pos_x (gridPosition 4))
     ∨ 90 ≤ Z.abs (pos_y (gridPosition 3) - pos_y (gridPosition 4))).
Proof.
  split; [reflexivity|]. split; [reflexivity|].
  apply (grid_positions_apart 3 4). discriminate.
Defined.

Lemma filter_id_fresh (s : string) (l : list SubStep) :
  s ∉ Layout.ids l → filter (λ ss, ss_id ss = s) l = [].
Proof.
  intros Hs. apply filter_none. intros ss Hss Heq. apply Hs.
  apply list_elem_of_fmap. by exists ss.
Qed.

(** X7. [handleAddSubStep] appends one node and changes no other: the new
    node has the generated id, the default position of its index, status
    Not Started, no action items and no outgoing ids, and one undo takes the
    task back. When the generated id is new, the node the detail panel
    shows as selected afterwards is that new node. *)
Theorem add_sub_step_effect (newId : string) (st : EditorState) :
  let st' := handleAddSubStep newId st in
  let node := newSubStep newId (length (stepsOf st)) in
  stepsOf st' = stepsOf st ++ [node]
  ∧ position node = Some (gridPosition (length (stepsOf st)))
  ∧ outgoing node = [] ∧ status node = Some NOT_STARTED
  ∧ editableTask (handleLocalUndo st') = editableTask st
  ∧ (newId ∉ Layout.ids (stepsOf st) → selectedSubStep st' = Some node).
Proof.
  intros st' node. split; [reflexivity|]. split; [reflexivity|].
  split; [reflexivity|]. split; [reflexivity|]. split.
  - rewrite (undo_snoc st' (localHistory st) (editableTask st) eq_refl).
    reflexivity.
  - intros Hfresh. unfold selectedSubStep.
    change (selectedSubStepId st') with (Some newId).
    change (stepsOf st') with (stepsOf st ++ [node]). cbv iota beta.
    rewrite filter_app, (filter_id_fresh _ _ Hfresh). simpl.
    rewrite filter_cons. simpl.
    destruct (decide (newId = newId)); [reflexivity|contradiction].
Qed.

Lemma add_sub_step_effect_witness :
  let st := stateOf (taskOf diamond) in
  ("6" ∉ Layout.ids (stepsOf st))
  ∧ selectedSubStep (handleAddSubStep "6" st) = Some (newSubStep "6" 5)
  ∧ position (newSubStep "6" 5) = Some {| pos_x := 220; pos_y := 100 |}.
Proof.
  intros st.
  assert (Hfresh : "6" ∉ Layout.ids (stepsOf st)).
  { intros Hin. repeat (apply elem_of_cons in Hin as [Hin|Hin]; [discriminate|]).
    inversion Hin. }
  split; [exact Hfresh|]. split; [|reflexivity].
  by apply (add_sub_step_effect "6" st).
Defined.

Lemma head_filter_purge (s i : string) (l : list SubStep) :
  s ≠ i →
  head (filter (λ ss, ss_id ss = s) (removeSubStep i l))
  = (λ ss, set_nextSubStepIds ss
             (filter (λ j, j ≠ i) <$> nextSubStepIds ss))
    <$> head (filter (λ ss, ss_id ss = s) l).
Proof.
  intros Hne. unfold removeSubStep. induction l as [|ss l IH]; [reflexivity|].
  rewrite !filter_cons.
  destruct (decide (ss_id ss = s)) as [Hs|Hs].
  - destruct (decide (ss_id ss ≠ i)) as [_|Hn]; [|exfalso; apply Hn; congruence].
    simpl. rewrite filter_cons. simpl.
    destruct (decide (ss_id ss = s)); [reflexivity|contradiction].
  - destruct (decide (ss_id ss ≠ i)) as [_|_]; [|exact IH].
    simpl. rewrite filter_cons. simpl.
    destruct (decide (ss_id ss = s)); [contradiction|exact IH].
Qed.

(** X8. Removing a node keeps the selection consistent: if the removed node
    was the selected one, nothing is selected afterwards; otherwise the
    selected node is the one selected before, with the removed id taken out
    of its outgoing list. In no case is a node with the removed id
    selected. *)
Theorem remove_keeps_selection_consistent (idToRemove : string)
    (st : EditorState) :
  let st' := handleRemoveSubStep idToRemove st in
  (selectedSubStepId st = Some idToRemove → selectedSubStep st' = None)
  ∧ (∀ s, selectedSubStepId st = Some s → s ≠ idToRemove →
       selectedSubStep st'
       = (λ ss, set_nextSubStepIds ss
                  (filter (λ j, j ≠ idToRemove) <$> nextSubStepIds ss))
         <$> selectedSubStep st)
  ∧ (∀ ss, selectedSubStep st' = Some ss → ss_id ss ≠ idToRemove).
Proof.
  intros st'.
  assert (Hsel : selectedSubStepId st'
                 = match selectedSubStepId st with
                   | Some s => if decide (s = idToRemove) then None else Some s
                   | None => None
                   end) by reflexivity.
  assert (Hsteps : stepsOf st' = removeSubStep idToRemove (stepsOf st))
    by reflexivity.
  split; [|split].
  - intros Hs. unfold selectedSubStep. rewrite Hsel, Hs.
    destruct (decide (idToRemove = idToRemove)); [reflexivity|contradiction].
  - intros s Hs Hne. unfold selectedSubStep. rewrite Hsel, Hs, Hsteps.
    destruct (decide (s = idToRemove)); [contradiction|].
    by apply head_filter_purge.
  - intros ss Hss. unfold selectedSubStep in Hss.
    destruct (selectedSubStepId st') as [s|]; [|discriminate].
    apply head_Some_elem_of, list_elem_of_filter in Hss as [_ Hss].
    rewrite Hsteps in Hss. by apply (removeSubStep_clean _ _ _ Hss).
Qed.

Lemma remove_keeps_selection_consistent_witness :
  let st := with_selected (stateOf (taskOf diamond)) (Some "2") in
  selectedSubStep (handleRemoveSubStep "2" st) = None
  ∧ (outgoing <$> selectedSubStep (handleRemoveSubStep "3" st)) = Some []
  ∧ (outgoing <$> selectedSubStep st) = Some ["3"].
Proof.
  intros st. split; [|split; reflexivity].
  by apply (remove_keeps_selection_consistent "2" st).
Defined.

(** ** Action items *)

Lemma toggleItem_twice (itemId : string) (item : ActionItem) :
  toggleItem itemId (toggleItem itemId item) = item.
Proof.
  destruct item as [i t c]. unfold toggleItem. simpl.
  destruct (decide (i = itemId)) as [Heq|Hne]; simpl.
  - destruct (decide (i = itemId)); [|contradiction]. by rewrite negb_involutive.
  - destruct (decide (i = itemId)); [contradiction|reflexivity].
Qed.

Lemma toggle_items_twice (itemId : string) (items : list ActionItem) :
  map (toggleItem itemId) (map (toggleItem itemId) items) = items.
Proof.
  induction items as [|it items IH]; [reflexivity|].
  simpl. by rewrite toggleItem_twice, IH.
Qed.

Lemma toggleInSubStep_items_twice (itemId : string) (ss : SubStep) :
  actionItems (toggleInSubStep itemId (toggleInSubStep itemId ss))
  = actionItems ss.
Proof.
  unfold toggleInSubStep. simpl. destruct (actionItems ss) as [items|]; simpl.
  - by rewrite toggle_items_twice.
  - reflexivity.
Qed.

Lemma toggleInSubStep_thrice (itemId : string) (ss : SubStep) :
  toggleInSubStep itemId (toggleInSubStep itemId (toggleInSubStep itemId ss))
  = toggleInSubStep itemId ss.
Proof.
  pose proof (toggleInSubStep_items_twice itemId ss) as H2.
  unfold toggleInSubStep at 1. rewrite H2. reflexivity.
Qed.

Lemma stepsOf_toggle (subStepId itemId : string) (st : EditorState) :
  stepsOf (handleToggleActionItem subStepId itemId st)
  = map (λ ss, if decide (ss_id ss ≠ subStepId) then ss
               else toggleInSubStep itemId ss) (stepsOf st).
Proof. reflexivity. Qed.

(** X9. Toggling the same action item twice gives every action item back
    as it was and leaves sub-steps with another id untouched; the status of
    the toggled sub-step is then the one computed from its items, so a
    third toggle gives exactly the sub-steps of the first. *)
Theorem toggle_twice_restores_items (subStepId itemId : string)
    (st : EditorState) :
  let once := handleToggleActionItem subStepId itemId st in
  let twice := handleToggleActionItem subStepId itemId once in
  Forall2 (λ ss ss'', actionItems ss'' = actionItems ss
                      ∧ (ss_id ss ≠ subStepId → ss'' = ss))
          (stepsOf st) (stepsOf twice)
  ∧ stepsOf (handleToggleActionItem subStepId itemId twice) = stepsOf once.
Proof.
  intros once twice. unfold twice, once. rewrite !stepsOf_toggle.
  set (g := λ ss, if decide (ss_id ss ≠ subStepId) then ss
                  else toggleInSubStep itemId ss).
  assert (Hother : ∀ ss, ss_id ss ≠ subStepId → g ss = ss).
  { intros ss Hne. unfold g. by rewrite decide_True. }
  assert (Hsame : ∀ ss, ss_id ss = subStepId → g ss = toggleInSubStep itemId ss).
  { intros ss Heq. unfold g. rewrite decide_False; [reflexivity|]. tauto. }
  assert (Hid : ∀ ss, ss_id (g ss) = ss_id ss).
  { intros ss. unfold g. by destruct (decide (ss_id ss ≠ subStepId)). }
  rewrite <- !list_fmap_compose. split.
  - apply Forall2_fmap_r, Forall_Forall2_diag, Forall_forall.
    intros ss _. unfold compose.
    destruct (decide (ss_id ss = subStepId)) as [Heq|Hne].
    + rewrite (Hsame (g ss)) by (by rewrite Hid). rewrite (Hsame ss Heq).
      split; [apply toggleInSubStep_items_twice|intros; contradiction].
    + rewrite (Hother (g ss)) by (by rewrite Hid). rewrite (Hother ss Hne). done.
  - apply list_fmap_ext. intros i ss _. unfold compose.
    destruct (decide (ss_id ss = subStepId)) as [Heq|Hne].
    + rewrite (Hsame (g (g ss))) by (by rewrite !Hid).
      rewrite (Hsame (g ss)) by (by rewrite Hid). rewrite (Hsame ss Heq).
      apply toggleInSubStep_thrice.
    + rewrite (Hother (g (g ss))) by (by rewrite !Hid).
      rewrite (Hother (g ss)) by (by rewrite Hid). reflexivity.
Qed.

Lemma filter_items_fresh (newId : string) (items : list ActionItem) :
  newId ∉ map ai_id items →
  filter (λ item, ai_id item ≠ newId) items = items.
Proof.
  induction items as [|it items IH]; intros Hn; [reflexivity|].
  simpl in Hn. apply not_elem_of_cons in Hn as [Hne Hn].
  rewrite filter_cons. destruct (decide (ai_id it ≠ newId)) as [_|Heq].
  - by rewrite (IH Hn).
  - exfalso. apply Heq. congruence.
Qed.

(** X10. Adding an action item appends one item, not completed, to the
    sub-steps with the given id and changes neither their status nor any
    other field; removing an item takes out every item with that id. When
    the generated item id is new in those sub-steps, removing the item just
    added gives the action items back as they were (an absent list having
    become the empty list). *)
Theorem add_remove_action_item (subStepId newId : string) (st : EditorState) :
  Forall2
    (λ ss ss',
       (ss_id ss ≠ subStepId → ss' = ss)
       ∧ (ss_id ss = subStepId →
          ss' = set_items_status ss (actionItems ss') (status ss)
          ∧ orEmpty (actionItems ss')
            = orEmpty (actionItems ss)
              ++ [{| ai_id := newId; ai_text := "新しいアクション";
                     completed := false |}]))
    (stepsOf st) (stepsOf (handleAddActionItem subStepId newId st))
  ∧ ((∀ ss, ss ∈ stepsOf st → ss_id ss = subStepId →
            newId ∉ map ai_id (orEmpty (actionItems ss))) →
     Forall2
       (λ ss ss', ss' = set_items_status ss (actionItems ss') (status ss)
                  ∧ orEmpty (actionItems ss') = orEmpty (actionItems ss))
       (stepsOf st)
       (stepsOf (handleRemoveActionItem subStepId newId
                   (handleAddActionItem subStepId newId st)))).
Proof.
  split.
  - unfold handleAddActionItem. rewrite stepsOf_update.
    apply Forall2_fmap_r, Forall_Forall2_diag, Forall_forall.
    intros ss _. unfold compose.
    destruct (decide (ss_id ss = subStepId)) as [Heq|Hne].
    + split; [intros; contradiction|]. intros _. split; reflexivity.
    + split; [reflexivity|intros; contradiction].
  - intros Hfresh. unfold handleRemoveActionItem, handleAddActionItem.
    rewrite !stepsOf_update, <- list_fmap_compose.
    apply Forall2_fmap_r, Forall_Forall2_diag, Forall_forall.
    intros ss Hss. unfold compose.
    destruct (decide (ss_id ss = subStepId)) as [Heq|Hne].
    + simpl. destruct (decide (ss_id ss = subStepId)); [|contradiction].
      split; [reflexivity|]. simpl.
      rewrite filter_app, (filter_items_fresh _ _ (Hfresh ss Hss Heq)).
      rewrite filter_cons. simpl.
      destruct (decide (newId ≠ newId)) as [Hn|_]; [by destruct Hn|].
      by rewrite filter_nil, app_nil_r.
    + destruct (decide (ss_id ss = subStepId)); [contradiction|].
      split; [by destruct ss|reflexivity].
Qed.

Lemma add_remove_action_item_witness :
  let st := stateOf (taskOf [mkStep "a" []; mkStep "b" []]) in
  map (λ ss, length (orEmpty (actionItems ss)))
      (stepsOf (handleAddActionItem "a" "i1" st)) = [1%nat; 0%nat]
  ∧ stepsOf (handleRemoveActionItem "a" "i1" (handleAddActionItem "a" "i1" st))
    = stepsOf st.
Proof.
  intros st. split; [reflexivity|].
  destruct (add_remove_action_item "a" "i1" st) as [_ Hback].
  assert (Hfresh : ∀ ss, ss ∈ stepsOf st → ss_id ss = "a" →
                         "i1" ∉ map ai_id (orEmpty (actionItems ss))).
  { intros ss Hss _. apply elem_of_cons in Hss as [->|Hss].
    - apply not_elem_of_nil.
    - apply list_elem_of_singleton in Hss as ->. apply not_elem_of_nil. }
  specialize (Hback Hfresh). apply Forall2_length in Hback. reflexivity.
Defined.

(** ** The layering sees only the graph *)

Lemma rawEdges_graphOf (l : list SubStep) :
  rawEdges l = graphOf l ≫= (λ g, map (λ n, (g.1, n)) g.2).
Proof.
  unfold rawEdges, graphOf. induction l as [|ss l IH]; [reflexivity|].
  rewrite fmap_cons, !bind_cons, IH. reflexivity.
Qed.

Lemma initMaps_ids (l : list SubStep) :
  Layout.initMaps l
  = foldl (λ '(adj, inDegree) i, (<[i := []]> adj, <[i := 0]> inDegree))
          (∅, ∅) (Layout.ids l).
Proof.
  unfold Layout.initMaps, Layout.ids.
  generalize ((∅, ∅) : gmap string (list string) * gmap string Z).
  induction l as [|ss l IH]; intros [adj deg]; [reflexivity|]. simpl. apply IH.
Qed.

Lemma initialQueue_ids (deg : gmap string Z) (l : list SubStep) :
  Layout.initialQueue deg l
  = filter (λ i, deg !! i = Some 0) (Layout.ids l).
Proof.
  unfold Layout.initialQueue, Layout.ids.
  induction l as [|ss l IH]; [reflexivity|].
  simpl. rewrite !filter_cons.
  destruct (decide (deg !! ss_id ss = Some 0)); simpl; by rewrite IH.
Qed.

Lemma topoLevels_graphOf (l l' : list SubStep) :
  graphOf l = graphOf l' → Layout.topoLevels l = Layout.topoLevels l'.
Proof.
  intros Hg.
  assert (Hids : Layout.ids l = Layout.ids l').
  { by rewrite <- !graphOf_ids, Hg. }
  assert (Hlen : length l = length l').
  { apply (f_equal length) in Hids. unfold Layout.ids in Hids.
    by rewrite !length_map in Hids. }
  assert (Hbuild : Layout.buildMaps l = Layout.buildMaps l').
  { unfold Layout.buildMaps.
    by rewrite !foldl_bind_edges, !initMaps_ids, !rawEdges_graphOf, Hids, Hg. }
  assert (Hkahn : Layout.kahnLevels l = Layout.kahnLevels l').
  { unfold Layout.kahnLevels. rewrite Hbuild.
    destruct (Layout.buildMaps l') as [adj deg].
    by rewrite !initialQueue_ids, Hids, Hlen. }
  unfold Layout.topoLevels. rewrite Hkahn.
  destruct (Layout.kahnLevels l') as [[levels visited]|]; [|reflexivity].
  simpl. f_equal. unfold Layout.withRemaining.
  rewrite !remaining_unpeeled, Hlen. unfold unpeeled. by rewrite Hids.
Qed.

Lemma graphOf_command (c : Command) (st : EditorState) :
  keepsGraph c →
  graphOf (stepsOf (run_command st c)) = graphOf (stepsOf st).
Proof.
  destruct c; simpl; try contradiction; intros _; try reflexivity.
  - unfold handleCanvasMouseUp. by destruct (connectingState st).
  - unfold handleSubStepDrop.
    destruct (draggedSubStepIdRef st) as [dragged|]; [|reflexivity].
    destruct (subStepCanvasRef dom) as [canvas|]; [|reflexivity].
    destruct (decide (dragged = "")); [reflexivity|].
    destruct (subStepCardRefs dom !! dragged) as [card|]; [|reflexivity].
    change (graphOf (stepsOf (handleUpdateSubStep dragged
              (λ ss, set_position ss
                       (Some (dropPosition event canvas card
                                (subStepDragOffsetRef st)))) st))
            = graphOf (stepsOf st)).
    rewrite stepsOf_update. by apply graphOf_update.
  - destruct (handleAutoLayoutSubSteps dom st) as [[st' size]|] eqn:Hl;
      [|reflexivity].
    destruct (stepsOf_auto_layout _ _ _ _ Hl) as [->|(np & ->)]; [reflexivity|].
    apply graphOf_applyPositions.
  - rewrite stepsOf_toggle. apply graphOf_map_same. intros ss.
    by destruct (decide (ss_id ss ≠ subStepId)).
  - unfold handleAddActionItem. rewrite stepsOf_update. by apply graphOf_update.
  - unfold handleRemoveActionItem. rewrite stepsOf_update. by apply graphOf_update.
Qed.

(** X11. The layering reads nothing but node ids and outgoing lists, and
    starting or cancelling a connection gesture, dragging and dropping a
    node, the auto layout itself, and toggling, adding or removing action
    items leave both as they are: after any sequence of such commands the
    graph, and with it the layering, is unchanged. *)
Theorem editing_off_graph_keeps_layering (cs : list Command) (st : EditorState) :
  Forall keepsGraph cs →
  graphOf (stepsOf (foldl run_command st cs)) = graphOf (stepsOf st)
  ∧ Layout.topoLevels (stepsOf (foldl run_command st cs))
    = Layout.topoLevels (stepsOf st).
Proof.
  intros Hcs.
  assert (Hg : graphOf (stepsOf (foldl run_command st cs)) = graphOf (stepsOf st)).
  { revert st. induction Hcs as [|c cs Hc _ IH]; intros st; [reflexivity|].
    simpl. rewrite IH. by apply graphOf_command. }
  split; [exact Hg|by apply topoLevels_graphOf].
Qed.

Lemma editing_off_graph_keeps_layering_witness :
  let st := draggingState "2" diamond in
  let cs := [ CmdDrop {| clientX := 400; clientY := 300 |} (domOf wideCanvas diamond);
              CmdAutoLayout (domOf wideCanvas diamond);
              CmdAddActionItem "3" "i1"; CmdToggleActionItem "3" "i1" ] in
  Layout.topoLevels (stepsOf (foldl run_command st cs))
  = Some [["1"; "5"]; ["2"; "4"]; ["3"]]
  ∧ map status (stepsOf (foldl run_command st cs))
    = [Some NOT_STARTED; Some NOT_STARTED; Some COMPLETED; Some NOT_STARTED;
       Some NOT_STARTED].
Proof.
  intros st cs. split; [|vm_compute; reflexivity].
  destruct (editing_off_graph_keeps_layering cs st) as [_ ->].
  - repeat constructor.
  - vm_compute. reflexivity.
Defined.

Lemma applyPositions_idem (np : gmap string Position) (l : list SubStep) :
  Layout.applyPositions np (Layout.applyPositions np l)
  = Layout.applyPositions np l.
Proof.
  unfold Layout.applyPositions. rewrite <- list_fmap_compose.
  apply list_fmap_ext. intros i ss _. unfold compose. simpl.
  by destruct (np !! ss_id ss).
Qed.

(** X12. Running the auto layout a second time, with the canvas measured
    the same, changes nothing: it returns the same sub-steps, positions
    included, and the same size for the inner canvas. *)
Theorem auto_layout_idempotent (dom : Dom) (st st1 : EditorState)
    (size : option InnerCanvas) :
  handleAutoLayoutSubSteps dom st = Some (st1, size) →
  ∃ st2, handleAutoLayoutSubSteps dom st1 = Some (st2, size)
         ∧ stepsOf st2 = stepsOf st1.
Proof.
  unfold handleAutoLayoutSubSteps at 1.
  destruct (subSteps (extendedDetails (editableTask st))) as [[|s l]|] eqn:Hs.
  - intros H. injection H as <- <-. exists st.
    unfold handleAutoLayoutSubSteps. by rewrite Hs.
  - destruct (subStepCanvasRef dom) as [canvas|] eqn:Hc.
    + destruct (Layout.topoLevels (s :: l)) as [levels|] eqn:Ht; [|discriminate].
      simpl.
      set (np := (Layout.placeLevels (clientWidth canvas) levels).2).
      destruct (Layout.requiredSize np) as [w h] eqn:Hr.
      intros H. injection H as <- <-.
      unfold handleAutoLayoutSubSteps. simpl. rewrite Hs, Hc. simpl.
      assert (Ht' : Layout.topoLevels (set_position s
                       match np !! ss_id s with
                       | Some p => Some p
                       | None => position s
                       end :: Layout.applyPositions np l) = Some levels).
      { rewrite <- Ht.
        apply (topoLevels_graphOf (Layout.applyPositions np (s :: l)) (s :: l)).
        apply graphOf_applyPositions. }
      rewrite Ht'. simpl. fold np. rewrite Hr.
      eexists. split; [reflexivity|].
      unfold stepsOf. simpl. rewrite Hs. simpl.
      apply (applyPositions_idem np (s :: l)).
    + intros H. injection H as <- <-. exists st.
      unfold handleAutoLayoutSubSteps. by rewrite Hs, Hc.
  - intros H. injection H as <- <-. exists st.
    unfold handleAutoLayoutSubSteps. by rewrite Hs.
Qed.

Lemma auto_layout_idempotent_witness :
  let dom := domOf wideCanvas diamond in
  ∃ st1 st2 size,
    handleAutoLayoutSubSteps dom (stateOf (taskOf diamond)) = Some (st1, size)
    ∧ handleAutoLayoutSubSteps dom st1 = Some (st2, size)
    ∧ stepsOf st2 = stepsOf st1
    ∧ size = Some {| scrollWidth := 726; scrollHeight := 202 |}.
Proof.
  intros dom.
  destruct (handleAutoLayoutSubSteps dom (stateOf (taskOf diamond)))
    as [[st1 size]|] eqn:H1; [|vm_compute in H1; discriminate].
  destruct (auto_layout_idempotent dom _ st1 size H1) as (st2 & H2 & Heq).
  exists st1, st2, size. split; [reflexivity|]. split; [exact H2|].
  split; [exact Heq|]. vm_compute in H1. by injection H1 as _ <-.
Defined.

(** ** Placement: no overlap, no overflow *)

Section Placement.
Import Layout.

Lemma placeColumn_inv (x y : Z) (L : list string) :
  ∀ (i : nat) (m : gmap string Position),
  (∀ n p, m !! n = Some p →
     (pos_x p + columnWidth ≤ x ∨ pos_y p + cardHeight + vSpacing ≤ y)
     ∨ (pos_x p = x
        ∧ ∃ j, (j < i)%nat ∧ pos_y p = y + Z.of_nat j * (cardHeight + vSpacing))) →
  allApart m →
  (∀ n p, placeColumn x y i L m !! n = Some p →
     m !! n = Some p
     ∨ (pos_x p = x
        ∧ ∃ j, (i ≤ j < i + length L)%nat
               ∧ pos_y p = y + Z.of_nat j * (cardHeight + vSpacing)))
  ∧ allApart (placeColumn x y i L m).
Proof.
  induction L as [|a L IH]; intros i m Hm Hap.
  { simpl. split; [intros n p Hn; by left|exact Hap]. }
  simpl.
  set (q := {| pos_x := x; pos_y := y + Z.of_nat i * (cardHeight + vSpacing) |}).
  assert (Hq : ∀ n p, m !! n = Some p → apart p q).
  { intros n p Hn. unfold apart, q. simpl.
    destruct (Hm n p Hn) as [[Hs|Hs]|(Hx & j & Hj & Hy)].
    - by left.
    - right. right. left. unfold cardHeight, vSpacing in *. lia.
    - right. right. left. rewrite Hy. unfold cardHeight, vSpacing. nia. }
  destruct (IH (S i) (<[a:=q]> m)) as [HA HB].
  - intros n p Hn. destruct (decide (a = n)) as [->|Hne].
    + rewrite lookup_insert_eq in Hn. injection Hn as <-. right.
      split; [reflexivity|]. exists i. split; [lia|reflexivity].
    + rewrite lookup_insert_ne in Hn by exact Hne.
      destruct (Hm n p Hn) as [Hs|(Hx & j & Hj & Hy)]; [by left|].
      right. split; [exact Hx|]. exists j. split; [lia|exact Hy].
  - intros n1 n2 p1 p2 Hne H1 H2.
    destruct (decide (a = n1)) as [<-|Hn1]; destruct (decide (a = n2)) as [<-|Hn2].
    + contradiction.
    + rewrite lookup_insert_eq in H1. injection H1 as <-.
      rewrite lookup_insert_ne in H2 by exact Hn2.
      pose proof (Hq n2 p2 H2) as Hap2. unfold apart in *. lia.
    + rewrite lookup_insert_eq in H2. injection H2 as <-.
      rewrite lookup_insert_ne in H1 by exact Hn1. by eapply Hq.
    + rewrite lookup_insert_ne in H1 by exact Hn1.
      rewrite lookup_insert_ne in H2 by exact Hn2.
      exact (Hap n1 n2 p1 p2 Hne H1 H2).
  - split; [|exact HB]. intros n p Hn.
    destruct (HA n p Hn) as [Hold|(Hx & j & Hj & Hy)].
    + destruct (decide (a = n)) as [->|Hne].
      * rewrite lookup_insert_eq in Hold. injection Hold as <-. right.
        split; [reflexivity|]. exists i. split; [lia|reflexivity].
      * rewrite lookup_insert_ne in Hold by exact Hne. by left.
    + right. split; [exact Hx|]. exists j. split; [lia|exact Hy].
Qed.

Variable canvasWidth : Z.

Lemma placeLevel_inv (c : Cursor) (m : gmap string Position) (L : list string) :
  PackInv canvasWidth c m →
  PackInv canvasWidth (placeLevel canvasWidth (c, m) L).1
          (placeLevel canvasWidth (c, m) L).2.
Proof.
  intros [(Hcx & Hcy & Hch) Hent Hap]. unfold placeLevel. cbn [fst snd].
  set (c' := wrap canvasWidth c).
  assert (Hc' : margin ≤ currentX c' ∧ margin ≤ currentY c'
                ∧ 0 ≤ rowMaxHeight c'
                ∧ (currentX c' = margin ∨ currentX c' + columnWidth ≤ canvasWidth)
                ∧ currentY c ≤ currentY c'
                ∧ ∀ n p, m !! n = Some p →
                    (pos_x p + columnWidth ≤ currentX c'
                     ∧ pos_y p + cardHeight ≤ currentY c' + rowMaxHeight c')
                    ∨ pos_y p + cardHeight + 2 * vSpacing ≤ currentY c').
  { unfold c', wrap.
    destruct (decide (currentX c > margin ∧ currentX c + columnWidth > canvasWidth))
      as [Hw|Hw]; simpl.
    - unfold margin, vSpacing in *. repeat split; try lia.
      intros n p Hn. destruct (Hent n p Hn) as (_ & _ & _ & Hrow).
      right. unfold cardHeight in *. lia.
    - unfold margin in *. repeat split; try lia.
      intros n p Hn. by destruct (Hent n p Hn) as (_ & _ & _ & Hrow). }
  destruct Hc' as (Hx' & Hy' & Hh' & Hfit & Hmono & Hent').
  destruct (placeColumn_inv (currentX c') (currentY c') L 0%nat m) as [HA HB].
  { intros n p Hn. left. destruct (Hent' n p Hn) as [[Hl _]|Hr]; [by left|].
    right. unfold vSpacing in *. lia. }
  { exact Hap. }
  split.
  - unfold advance. simpl. unfold columnWidth, cardWidth, hSpacing. lia.
  - intros n p Hn. unfold advance. simpl.
    destruct (HA n p Hn) as [Hold|(Hx & j & Hj & Hy)].
    + destruct (Hent n p Hold) as (Hpx & Hpy & Hpf & _).
      split; [exact Hpx|]. split; [exact Hpy|]. split; [exact Hpf|].
      destruct (Hent' n p Hold) as [[Hl Hr]|Hr].
      * left. unfold columnWidth, cardWidth, hSpacing in *. lia.
      * by right.
    + split; [lia|]. split.
      { rewrite Hy. unfold cardHeight, vSpacing. lia. }
      split; [by rewrite Hx|]. left. split; [lia|].
      rewrite Hy. unfold columnHeight, cardHeight, vSpacing. simpl in Hj. nia.
  - exact HB.
Qed.

Lemma placeLevels_inv (levels : list (list string)) :
  PackInv canvasWidth (placeLevels canvasWidth levels).1
          (placeLevels canvasWidth levels).2.
Proof.
  induction levels as [|L levels IH] using rev_ind.
  - split.
    + simpl. unfold margin. lia.
    + intros n p Hn. simpl in Hn. by rewrite lookup_empty in Hn.
    + intros n1 n2 p1 p2 _ H1. simpl in H1. by rewrite lookup_empty in H1.
  - rewrite placeLevels_snoc.
    rewrite (surjective_pairing (placeLevels canvasWidth levels)).
    by apply placeLevel_inv.
Qed.

Lemma placeColumn_is_Some (x y : Z) (L : list string) :
  ∀ (i : nat) (m : gmap string Position) (n : string),
  n ∈ L ∨ is_Some (m !! n) → is_Some (placeColumn x y i L m !! n).
Proof.
  induction L as [|a L IH]; intros i m n Hn.
  - destruct Hn as [Hn|Hn]; [inversion Hn|exact Hn].
  - simpl. apply IH. destruct Hn as [Hn|Hn].
    + apply elem_of_cons in Hn as [->|Hn]; [|by left].
      right. rewrite lookup_insert_eq. eauto.
    + right. destruct (decide (a = n)) as [->|Hne].
      * rewrite lookup_insert_eq. eauto.
      * by rewrite lookup_insert_ne.
Qed.

Lemma placeLevels_is_Some (levels : list (list string)) (n : string) :
  n ∈ concat levels → is_Some ((placeLevels canvasWidth levels).2 !! n).
Proof.
  induction levels as [|L levels IH] using rev_ind; [intros H; inversion H|].
  rewrite concat_app, elem_of_app. simpl. rewrite app_nil_r. intros Hn.
  rewrite placeLevels_snoc. unfold placeLevel. cbn [snd].
  apply placeColumn_is_Some. destruct Hn as [Hn|Hn]; [right; by apply IH|by left].
Qed.

End Placement.

Lemma topoLevels_cover (l : list SubStep) (levels : list (list string)) :
  NoDup (Layout.ids l) → Layout.topoLevels l = Some levels →
  concat levels ≡ₚ Layout.ids l.
Proof.
  intros Hids Hlev.
  destruct (kahnLevels_frontiers l Hids)
    as (kl & Hrun & _ & _ & _ & _ & Hnd & Hnodes).
  destruct (topoLevels_shape l kl Hids Hnd Hnodes Hrun) as [Hnil Hcons].
  pose proof (peeled_and_unpeeled l kl Hids Hnd Hnodes) as Hp.
  destruct (decide (unpeeled l kl = [])) as [Hu|Hu].
  - rewrite (Hnil Hu) in Hlev. injection Hlev as <-.
    by rewrite Hu, app_nil_r in Hp.
  - rewrite (Hcons Hu) in Hlev. injection Hlev as <-.
    rewrite concat_app. simpl. by rewrite app_nil_r.
Qed.

Lemma requiredSize_bounds (np : gmap string Position) :
  0 ≤ (Layout.requiredSize np).1 ∧ 0 ≤ (Layout.requiredSize np).2
  ∧ ∀ n p, np !! n = Some p →
      pos_x p + Layout.cardWidth ≤ (Layout.requiredSize np).1
      ∧ pos_y p + Layout.cardHeight ≤ (Layout.requiredSize np).2.
Proof.
  unfold Layout.requiredSize.
  apply (map_fold_weak_ind
           (λ (r : Z * Z) (m : gmap string Position),
              0 ≤ r.1 ∧ 0 ≤ r.2
              ∧ ∀ n p, m !! n = Some p →
                  pos_x p + Layout.cardWidth ≤ r.1
                  ∧ pos_y p + Layout.cardHeight ≤ r.2)).
  - simpl. split; [lia|]. split; [lia|]. intros n p Hn.
    by rewrite lookup_empty in Hn.
  - intros i x m [w h] Hi (Hw & Hh & Hall). simpl in *.
    split; [lia|]. split; [lia|]. intros n p Hn.
    destruct (decide (i = n)) as [->|Hne].
    + rewrite lookup_insert_eq in Hn. injection Hn as <-. lia.
    + rewrite lookup_insert_ne in Hn by exact Hne.
      destruct (Hall n p Hn). lia.
Qed.

(** What the command leaves behind when it has a canvas and the ids are
    unique: every node carries the position the packing computed for it. *)
Lemma auto_layout_result (dom : Dom) (canvas : Canvas) (st st1 : EditorState)
    (size : option InnerCanvas) :
  NoDup (Layout.ids (stepsOf st)) →
  subStepCanvasRef dom = Some canvas →
  handleAutoLayoutSubSteps dom st = Some (st1, size) →
  ∃ levels,
    (∀ ss, ss ∈ stepsOf st1 →
       ∃ p, position ss = Some p
            ∧ (Layout.placeLevels (clientWidth canvas) levels).2 !! ss_id ss
              = Some p)
    ∧ (∀ ic, size = Some ic →
         scrollWidth ic
         = (Layout.requiredSize
              (Layout.placeLevels (clientWidth canvas) levels).2).1 + 20
         ∧ scrollHeight ic
           = (Layout.requiredSize
                (Layout.placeLevels (clientWidth canvas) levels).2).2 + 20).
Proof.
  intros Hids Hc. unfold handleAutoLayoutSubSteps, stepsOf in *. rewrite Hc.
  destruct (subSteps (extendedDetails (editableTask st))) as [[|s l]|] eqn:Hs.
  - intros H. injection H as <- <-. exists []. rewrite Hs. simpl.
    split; [intros ss Hss; inversion Hss|discriminate].
  - destruct (Layout.topoLevels (s :: l)) as [levels|] eqn:Ht; [|discriminate].
    simpl.
    set (np := (Layout.placeLevels (clientWidth canvas) levels).2).
    destruct (Layout.requiredSize np) as [w h] eqn:Hr.
    intros H. injection H as <- <-. exists levels. fold np. split.
    + simpl. rewrite Hs. simpl.
      change (∀ ss, ss ∈ Layout.applyPositions np (s :: l) →
                ∃ p, position ss = Some p ∧ np !! ss_id ss = Some p).
      intros ss' Hss'. unfold Layout.applyPositions in Hss'.
      apply list_elem_of_fmap in Hss' as (ss & -> & Hss). simpl.
      assert (Hin : ss_id ss ∈ concat levels).
      { rewrite (topoLevels_cover (s :: l) levels Hids Ht).
        apply list_elem_of_fmap. by exists ss. }
      destruct (placeLevels_is_Some (clientWidth canvas) levels _ Hin) as [p Hp].
      fold np in Hp. rewrite Hp. by exists p.
    + intros ic Hic. rewrite Hr. simpl.
      destruct (innerCanvas canvas); [|discriminate]. simpl in Hic.
      by injection Hic as <-.
  - intros H. injection H as <- <-. exists []. rewrite Hs. simpl.
    split; [intros ss Hss; inversion Hss|discriminate].
Qed.

(** X13. After the auto layout (with a canvas, on a graph with unique ids)
    every node has a position, at least the margin away from the left and
    the top; a column never sticks out to the right unless it is the first
    of its row, so on a canvas at least one column wide (262) no card
    reaches beyond the canvas width; and the size written to the inner
    canvas covers every card plus 20. *)
Theorem auto_layout_places_every_node (dom : Dom) (canvas : Canvas)
    (st st1 : EditorState) (size : option InnerCanvas) :
  NoDup (Layout.ids (stepsOf st)) →
  subStepCanvasRef dom = Some canvas →
  handleAutoLayoutSubSteps dom st = Some (st1, size) →
  ∀ ss, ss ∈ stepsOf st1 →
    ∃ p, position ss = Some p
      ∧ 10 ≤ pos_x p ∧ 10 ≤ pos_y p
      ∧ (pos_x p = 10 ∨ pos_x p + 252 ≤ clientWidth canvas)
      ∧ (262 ≤ clientWidth canvas → pos_x p + 192 ≤ clientWidth canvas)
      ∧ (∀ ic, size = Some ic →
           pos_x p + 192 + 20 ≤ scrollWidth ic
           ∧ pos_y p + 76 + 20 ≤ scrollHeight ic).
Proof.
  intros Hids Hc Hrun ss Hss.
  destruct (auto_layout_result dom canvas st st1 size Hids Hc Hrun)
    as (levels & Hpos & Hsize).
  destruct (Hpos ss Hss) as (p & Hp & Hnp). exists p. split; [exact Hp|].
  destruct (placeLevels_inv (clientWidth canvas) levels) as [_ Hent _].
  destruct (Hent _ _ Hnp) as (Hx & Hy & Hfit & _).
  unfold Layout.margin, Layout.columnWidth, Layout.cardWidth, Layout.hSpacing in *.
  split; [exact Hx|]. split; [exact Hy|]. split; [exact Hfit|]. split; [lia|].
  intros ic Hic. destruct (Hsize ic Hic) as [-> ->].
  destruct (requiredSize_bounds (Layout.placeLevels (clientWidth canvas) levels).2)
    as (_ & _ & Hall).
  destruct (Hall _ _ Hnp) as [Hw Hh].
  unfold Layout.cardWidth, Layout.cardHeight in *. lia.
Qed.

(** X14. After the auto layout (with a canvas, on a graph with unique ids)
    no two cards overlap: the positions of two different nodes are a
    column width (252) apart horizontally or a card height plus the
    vertical spacing (96) apart vertically. *)
Theorem auto_layout_no_overlap (dom : Dom) (canvas : Canvas)
    (st st1 : EditorState) (size : option InnerCanvas) :
  NoDup (Layout.ids (stepsOf st)) →
  subStepCanvasRef dom = Some canvas →
  handleAutoLayoutSubSteps dom st = Some (st1, size) →
  ∀ ss1 ss2 p1 p2,
    ss1 ∈ stepsOf st1 → ss2 ∈ stepsOf st1 → ss_id ss1 ≠ ss_id ss2 →
    position ss1 = Some p1 → position ss2 = Some p2 →
    pos_x p1 + 252 ≤ pos_x p2 ∨ pos_x p2 + 252 ≤ pos_x p1
    ∨ pos_y p1 + 96 ≤ pos_y p2 ∨ pos_y p2 + 96 ≤ pos_y p1.
Proof.
  intros Hids Hc Hrun ss1 ss2 p1 p2 H1 H2 Hne Hp1 Hp2.
  destruct (auto_layout_result dom canvas st st1 size Hids Hc Hrun)
    as (levels & Hpos & _).
  destruct (Hpos ss1 H1) as (q1 & Hq1 & Hn1).
  destruct (Hpos ss2 H2) as (q2 & Hq2 & Hn2).
  rewrite Hp1 in Hq1. injection Hq1 as <-.
  rewrite Hp2 in Hq2. injection Hq2 as <-.
  destruct (placeLevels_inv (clientWidth canvas) levels) as [_ _ Hap].
  pose proof (Hap _ _ _ _ Hne Hn1 Hn2) as Hapart. unfold apart in Hapart.
  unfold Layout.columnWidth, Layout.cardWidth, Layout.hSpacing,
    Layout.cardHeight, Layout.vSpacing in Hapart. lia.
Qed.

Lemma auto_layout_places_every_node_witness :
  let dom := domOf smallCanvas diamond in
  ∃ st1 size,
    handleAutoLayoutSubSteps dom (stateOf (taskOf diamond)) = Some (st1, size)
    ∧ map position (stepsOf st1)
      = [ Some {| pos_x := 10; pos_y := 10 |}; Some {| pos_x := 10; pos_y := 222 |};
          Some {| pos_x := 10; pos_y := 434 |}; Some {| pos_x := 10; pos_y := 318 |};
          Some {| pos_x := 10; pos_y := 106 |} ]
    ∧ ∀ ss, ss ∈ stepsOf st1 → ∃ p, position ss = Some p ∧ 10 ≤ pos_x p.
Proof.
  intros dom.
  destruct (handleAutoLayoutSubSteps dom (stateOf (taskOf diamond)))
    as [[st1 size]|] eqn:H1; [|vm_compute in H1; discriminate].
  exists st1, size. split; [reflexivity|]. split.
  - vm_compute in H1. by injection H1 as <- _.
  - intros ss Hss.
    assert (Hids : NoDup (Layout.ids (stepsOf (stateOf (taskOf diamond))))).
    { apply (bool_decide_unpack (NoDup _)). vm_compute. exact I. }
    destruct (auto_layout_places_every_node dom smallCanvas _ st1 size
                Hids eq_refl H1 ss Hss) as (p & Hp & Hx & _).
    exists p. split; [exact Hp|exact Hx].
Defined.

Lemma auto_layout_no_overlap_witness :
  let dom := domOf wideCanvas diamond in
  ∃ st1 size,
    handleAutoLayoutSubSteps dom (stateOf (taskOf diamond)) = Some (st1, size)
    ∧ ∀ ss1 ss2 p1 p2,
        ss1 ∈ stepsOf st1 → ss2 ∈ stepsOf st1 → ss_id ss1 ≠ ss_id ss2 →
        position ss1 = Some p1 → position ss2 = Some p2 →
        pos_x p1 + 252 ≤ pos_x p2 ∨ pos_x p2 + 252 ≤ pos_x p1
        ∨ pos_y p1 + 96 ≤ pos_y p2 ∨ pos_y p2 + 96 ≤ pos_y p1.
Proof.
  intros dom.
  destruct (handleAutoLayoutSubSteps dom (stateOf (taskOf diamond)))
    as [[st1 size]|] eqn:H1; [|vm_compute in H1; discriminate].
  exists st1, size. split; [reflexivity|].
  assert (Hids : NoDup (Layout.ids (stepsOf (stateOf (taskOf diamond))))).
  { apply (bool_decide_unpack (NoDup _)). vm_compute. exact I. }
  exact (auto_layout_no_overlap dom wideCanvas _ st1 size Hids eq_refl H1).
Defined.

(** ** Layers and edges *)

Lemma filter_length_zero {A} (P : A → Prop) `{∀ x, Decision (P x)}
    (l : list A) (x : A) :
  length (filter P l) = 0%nat → x ∈ l → ¬ P x.
Proof.
  intros Hlen Hx HP. apply length_zero_iff_nil in Hlen.
  by apply (filter_nil_not_elem_of P l x Hlen HP).
Qed.

Lemma filter_length_pos {A} (P : A → Prop) `{∀ x, Decision (P x)} (l : list A) :
  length (filter P l) ≠ 0%nat → ∃ x, x ∈ l ∧ P x.
Proof.
  destruct (filter P l) as [|x r] eqn:E; [done|]. intros _.
  assert (Hx : x ∈ filter P l) by (rewrite E; apply list_elem_of_here).
  apply list_elem_of_filter in Hx as [HP Hx]. by exists x.
Qed.

Lemma edgesOf_src (l : list SubStep) (e : string * string) :
  e ∈ edgesOf l → e.1 ∈ Layout.ids l.
Proof.
  unfold edgesOf. intros He. apply list_elem_of_filter in He as [_ He].
  by apply rawEdges_src.
Qed.

(** X15. On a graph with unique ids the peeled layers respect the edges:
    an edge into a node of layer [k] starts in an earlier layer; every node
    of a layer after the first has an edge coming from the layer just
    before it; and every node left unpeeled (the trailing layer) has an
    edge coming from another unpeeled node or from itself. *)
Theorem layers_respect_edges (l : list SubStep) :
  NoDup (Layout.ids l) →
  ∃ kl, Layout.kahnLevels l = Some (kl, length (concat kl))
    ∧ (∀ k L e, kl !! k = Some L → e ∈ edgesOf l → e.2 ∈ L →
         e.1 ∈ concat (take k kl))
    ∧ (∀ k L L' v, kl !! k = Some L → kl !! S k = Some L' → v ∈ L' →
         ∃ u, u ∈ L ∧ (u, v) ∈ edgesOf l)
    ∧ (∀ v, v ∈ unpeeled l kl →
         ∃ u, u ∈ unpeeled l kl ∧ (u, v) ∈ edgesOf l).
Proof.
  intros Hids.
  destruct (kahnLevels_frontiers l Hids)
    as (kl & Hrun & Hlayers & _ & Hnext & Hlast & Hnd & Hnodes).
  exists kl. split; [exact Hrun|]. split; [|split].
  - intros k L e HL He Hv. destruct (Hlayers k L HL) as [_ Hperm].
    rewrite Hperm in Hv. unfold zeroInDegreeFrontier in Hv.
    apply list_elem_of_filter in Hv as [[_ Hz] _].
    unfold inDegreeAfterPeeling in Hz.
    pose proof (filter_length_zero _ _ e Hz He) as Hn.
    destruct (decide (e.1 ∈ concat (take k kl))) as [Hin|Hout]; [exact Hin|].
    exfalso. apply Hn. by split.
  - intros k L L' v HL HL' Hv.
    pose proof (Hnext k L L' HL HL') as Hsub.
    rewrite bind_presentTargets in Hsub.
    + assert (Hv' : v ∈ L ≫= presentTargets l).
      { by eapply elem_of_sublist. }
      apply list_elem_of_bind in Hv' as (u & Hvu & Hu).
      exists u. split; [exact Hu|]. unfold presentTargets in Hvu.
      apply list_elem_of_fmap in Hvu as ([u' v'] & -> & He).
      apply list_elem_of_filter in He as [Heq He]. simpl in Heq. by subst.
    + intros x Hx. apply Hnodes, elem_of_concat. exists L.
      split; [by eapply list_elem_of_lookup_2|exact Hx].
  - intros v Hv. unfold unpeeled in Hv.
    apply list_elem_of_filter in Hv as [Hv Hvn].
    assert (Hdeg : inDegreeAfterPeeling l (concat kl) v ≠ 0%nat).
    { intros Hz.
      assert (Hin : v ∈ zeroInDegreeFrontier l (concat kl)).
      { unfold zeroInDegreeFrontier. apply list_elem_of_filter. by split. }
      rewrite Hlast in Hin. inversion Hin. }
    apply filter_length_pos in Hdeg as ([u v'] & He & Hev & Heu).
    simpl in Hev, Heu. subst v'. exists u. split; [|exact He].
    unfold unpeeled. apply list_elem_of_filter. split; [exact Heu|].
    by apply (edgesOf_src l (u, v)).
Qed.

Lemma layers_respect_edges_witness :
  let l := [mkStep "a" ["b"]; mkStep "b" ["c"]; mkStep "c" ["b"]] in
  NoDup (Layout.ids l)
  ∧ edgesOf l = [("a", "b"); ("b", "c"); ("c", "b")]
  ∧ Layout.kahnLevels l = Some ([["a"]], 1%nat)
  ∧ ∃ kl, Layout.kahnLevels l = Some (kl, length (concat kl))
      ∧ ∀ v, v ∈ unpeeled l kl → ∃ u, u ∈ unpeeled l kl ∧ (u, v) ∈ edgesOf l.
Proof.
  intros l.
  assert (Hnd : NoDup (Layout.ids l)).
  { apply (bool_decide_unpack (NoDup _)). vm_compute. exact I. }
  split; [exact Hnd|]. split; [vm_compute; reflexivity|].
  split; [vm_compute; reflexivity|].
  destruct (layers_respect_edges l Hnd) as (kl & Hrun & _ & _ & Hstuck).
  by exists kl.
Defined.

(** ** Connectors *)

Lemma findSubStep_Some (t : string) (l : list SubStep) (x : SubStep) :
  findSubStep t l = Some x → x ∈ l ∧ ss_id x = t.
Proof.
  unfold findSubStep. intros Hf.
  destruct (filter (λ t0, ss_id t0 = t) l) as [|y r] eqn:E; [discriminate|].
  injection Hf as ->.
  assert (Hin : x ∈ filter (λ t0, ss_id t0 = t) l).
  { rewrite E. apply list_elem_of_here. }
  apply list_elem_of_filter in Hin as [Hid Hin]. by split.
Qed.

Lemma findSubStep_unique (l : list SubStep) (ss : SubStep) :
  NoDup (Layout.ids l) → ss ∈ l → findSubStep (ss_id ss) l = Some ss.
Proof.
  unfold findSubStep, Layout.ids.
  induction l as [|x l IH]; intros Hnd Hss; [inversion Hss|].
  simpl in Hnd. apply NoDup_cons in Hnd as [Hx Hnd]. rewrite filter_cons.
  apply elem_of_cons in Hss as [->|Hss].
  - destruct (decide (ss_id x = ss_id x)); [reflexivity|congruence].
  - destruct (decide (ss_id x = ss_id ss)) as [Heq|_]; [|by apply IH].
    exfalso. apply Hx. rewrite Heq. apply list_elem_of_fmap. by exists ss.
Qed.

Lemma shown_node (attached : gmap string Card) (l : list SubStep) (i : string) :
  shown attached l i → i ∈ Layout.ids l ∧ is_Some (attached !! i).
Proof.
  unfold shown. intros H. apply bool_decide_unpack in H as [Hc [p Hp]].
  split; [|exact Hc].
  destruct (findSubStep i l) as [x|] eqn:Hf; [|discriminate].
  apply findSubStep_Some in Hf as [Hin <-].
  apply list_elem_of_fmap. by exists x.
Qed.

(** The connectors from one source are its outgoing ids whose target is
    shown, in order. *)
Lemma connectorsFrom_edges (attached : gmap string Card) (l : list SubStep)
    (sourceSS : SubStep) (sp : Point) (next : list string) :
  map connectorEdge (connectorsFrom attached l sourceSS sp next)
  = map (λ n, (ss_id sourceSS, n)) (filter (λ t, shown attached l t) next).
Proof.
  unfold connectorsFrom.
  induction next as [|t next IH]; [reflexivity|].
  rewrite bind_cons, map_app, IH, filter_cons.
  assert (Hshown : shown attached l t
                   ↔ is_Some (attached !! t) ∧ is_Some (findSubStep t l ≫= position)).
  { unfold shown. apply bool_decide_spec. }
  destruct (decide (shown attached l t)) as [Hs|Hs].
  - apply Hshown in Hs as [[card Hc] [p Hp]]. rewrite Hc.
    destruct (findSubStep t l) as [x|]; [|discriminate]. simpl in Hp.
    rewrite Hp. reflexivity.
  - destruct (findSubStep t l) as [x|] eqn:Hf; [|reflexivity].
    destruct (attached !! t) as [card|] eqn:Hc; [|reflexivity].
    destruct (position x) as [p|] eqn:Hp; [|reflexivity].
    exfalso. apply Hs, Hshown. simpl. rewrite Hp. split; eauto.
Qed.

(** The edges of the connectors, source by source. *)
Lemma connectors_by_source (attached : gmap string Card) (st : EditorState) :
  map connectorEdge (subStepConnectors attached st)
  = stepsOf st ≫= (λ ss,
      if decide (is_Some (attached !! ss_id ss) ∧ is_Some (position ss))
      then map (λ n, (ss_id ss, n))
               (filter (λ t, shown attached (stepsOf st) t) (outgoing ss))
      else []).
Proof.
  unfold subStepConnectors. generalize (stepsOf st) at 2 5 as l0.
  induction l0 as [|ss l0 IH]; [reflexivity|].
  rewrite !bind_cons, map_app, IH. f_equal. unfold outgoing.
  destruct (attached !! ss_id ss) as [card|] eqn:Hc.
  - destruct (position ss) as [p|] eqn:Hp.
    + rewrite decide_True by (split; eauto).
      destruct (nextSubStepIds ss) as [[|t ts]|]; try reflexivity.
      apply connectorsFrom_edges.
    + rewrite decide_False by (intros [_ [p Hp']]; discriminate).
      by destruct (nextSubStepIds ss) as [[|t ts]|].
  - rewrite decide_False by (intros [[c Hc'] _]; discriminate).
    by destruct (nextSubStepIds ss) as [[|t ts]|].
Qed.

Lemma sublist_bind_pointwise {A B} (f g : A → list B) (l0 : list A) :
  (∀ x, x ∈ l0 → f x `sublist_of` g x) → (l0 ≫= f) `sublist_of` (l0 ≫= g).
Proof.
  induction l0 as [|x l0 IH]; intros Hfg; [constructor|].
  rewrite !bind_cons. apply sublist_app.
  - apply Hfg, list_elem_of_here.
  - apply IH. intros y Hy. by apply Hfg, list_elem_of_further.
Qed.

Lemma filter_bind {A B} (P : B → Prop) `{∀ x, Decision (P x)} (f : A → list B)
    (l0 : list A) :
  filter P (l0 ≫= f) = l0 ≫= (λ x, filter P (f x)).
Proof.
  induction l0 as [|x l0 IH]; [reflexivity|].
  by rewrite !bind_cons, filter_app, IH.
Qed.

Lemma filter_map_pair (a : string) (P : string * string → Prop)
    `{∀ e, Decision (P e)} (next : list string) :
  filter P (map (λ n, (a, n)) next)
  = map (λ n, (a, n)) (filter (λ n, P (a, n)) next).
Proof.
  induction next as [|t next IH]; [reflexivity|].
  cbn [map]. rewrite !filter_cons.
  destruct (decide (P (a, t))); cbn [map]; by rewrite IH.
Qed.

Lemma edgesOf_by_source (l : list SubStep) :
  edgesOf l
  = l ≫= (λ ss, map (λ n, (ss_id ss, n))
                    (filter (λ n, n ∈ Layout.ids l) (outgoing ss))).
Proof.
  unfold edgesOf, rawEdges. rewrite filter_bind.
  apply list_bind_ext; [|reflexivity]. intros ss.
  exact (filter_map_pair (ss_id ss) (λ e, e.2 ∈ Layout.ids l) (outgoing ss)).
Qed.

(** Whatever card elements are attached, the connectors are, in order, a
    part of the edges between nodes. *)
Lemma connectors_sound (attached : gmap string Card) (st : EditorState) :
  map connectorEdge (subStepConnectors attached st)
    `sublist_of` edgesOf (stepsOf st).
Proof.
  rewrite connectors_by_source, edgesOf_by_source.
  apply sublist_bind_pointwise. intros ss _.
  destruct (decide (is_Some (attached !! ss_id ss) ∧ is_Some (position ss)));
    [|apply sublist_nil_l].
  apply fmap_sublist.
  induction (outgoing ss) as [|t ts IH]; [constructor|].
  rewrite !filter_cons.
  destruct (decide (shown attached (stepsOf st) t)) as [Hs|Hs].
  - rewrite decide_True by (by apply shown_node in Hs as [? _]).
    by constructor.
  - destruct (decide (t ∈ Layout.ids (stepsOf st))); [by constructor|exact IH].
Qed.

(** On a graph with unique ids the connectors are exactly the edges both
    of whose ends are shown. *)
Lemma connectors_exact (attached : gmap string Card) (st : EditorState) :
  NoDup (Layout.ids (stepsOf st)) →
  map connectorEdge (subStepConnectors attached st)
  = filter (λ e, shown attached (stepsOf st) e.1 ∧ shown attached (stepsOf st) e.2)
           (edgesOf (stepsOf st)).
Proof.
  intros Hnd. rewrite connectors_by_source, edgesOf_by_source, filter_bind.
  set (l := stepsOf st) in *.
  assert (Hgen : ∀ l0, (∀ ss, ss ∈ l0 → ss ∈ l) →
    l0 ≫= (λ ss,
      if decide (is_Some (attached !! ss_id ss) ∧ is_Some (position ss))
      then map (λ n, (ss_id ss, n)) (filter (λ t, shown attached l t) (outgoing ss))
      else [])
    = l0 ≫= (λ ss,
        filter (λ e, shown attached l e.1 ∧ shown attached l e.2)
          (map (λ n, (ss_id ss, n))
               (filter (λ n, n ∈ Layout.ids l) (outgoing ss))))).
  { induction l0 as [|ss l0 IH]; intros Hsub; [reflexivity|].
    rewrite !bind_cons, IH by (intros s Hs; by apply Hsub, list_elem_of_further).
    f_equal.
    assert (Hsrc : shown attached l (ss_id ss)
                   ↔ is_Some (attached !! ss_id ss) ∧ is_Some (position ss)).
    { unfold shown. rewrite bool_decide_spec.
      by rewrite (findSubStep_unique l ss Hnd (Hsub ss (list_elem_of_here _ _))). }
    rewrite (filter_map_pair (ss_id ss)
               (λ e, shown attached l e.1 ∧ shown attached l e.2)).
    rewrite list_filter_filter. cbn [fst snd].
    destruct (decide (is_Some (attached !! ss_id ss) ∧ is_Some (position ss)))
      as [Hok|Hno].
    - f_equal. apply list_filter_iff. intros t. split.
      + intros Ht. split; [split; [by apply Hsrc|exact Ht]|].
        by apply shown_node in Ht as [? _].
      + by intros [[_ Ht] _].
    - rewrite (filter_none _ (outgoing ss)); [reflexivity|].
      intros t _ [[Hs _] _]. by apply Hno, Hsrc. }
  by apply Hgen.
Qed.

Lemma connectors_attached (attached : gmap string Card) (st : EditorState)
    (e : string * string) :
  e ∈ map connectorEdge (subStepConnectors attached st) →
  is_Some (attached !! e.1) ∧ is_Some (attached !! e.2).
Proof.
  intros He. rewrite connectors_by_source in He.
  apply list_elem_of_bind in He as (ss & He & _).
  destruct (decide (is_Some (attached !! ss_id ss) ∧ is_Some (position ss)))
    as [[Hc _]|_]; [|inversion He].
  apply list_elem_of_fmap in He as (t & -> & Ht).
  apply list_elem_of_filter in Ht as [Ht _].
  split; [exact Hc|]. by apply shown_node in Ht as [_ ?].
Qed.

(** X16. Whatever card elements were attached when the list of connectors
    was computed, the connectors are, in order, a part of the edges between
    nodes, each with both end cards attached, so an outgoing id that names
    no node is never drawn. On a graph with unique ids they are exactly the
    edges both of whose ends have a position and an attached card element:
    all the edges only if every node had its card attached at that moment,
    and none when no card was attached yet, as at the first display. *)
Theorem connectors_are_present_edges (attached : gmap string Card)
    (st : EditorState) :
  let l := stepsOf st in
  let drawn := map connectorEdge (subStepConnectors attached st) in
  drawn `sublist_of` edgesOf l
  ∧ (∀ e, e ∈ drawn → is_Some (attached !! e.1) ∧ is_Some (attached !! e.2))
  ∧ (NoDup (Layout.ids l) →
     drawn = filter (λ e, shown attached l e.1 ∧ shown attached l e.2) (edgesOf l))
  ∧ subStepConnectors ∅ st = [].
Proof.
  intros l drawn. split; [apply connectors_sound|].
  split; [apply connectors_attached|]. split; [apply connectors_exact|].
  destruct (subStepConnectors ∅ st) as [|c cs] eqn:E; [reflexivity|].
  destruct (connectors_attached ∅ st (connectorEdge c)) as [[card Hc] _].
  - rewrite E. apply list_elem_of_here.
  - by rewrite lookup_empty in Hc.
Qed.

Lemma connectors_are_present_edges_witness :
  let st := stateOf (taskOf fork) in
  NoDup (Layout.ids (stepsOf st))
  ∧ edgesOf (stepsOf st) = [("a", "b"); ("a", "c")]
  ∧ map connectorEdge (subStepConnectors (cardsOf fork) st)
    = [("a", "b"); ("a", "c")]
  ∧ map connectorEdge (subStepConnectors (delete "b" (cardsOf fork)) st)
    = [("a", "c")].
Proof.
  intros st.
  assert (Hnd : NoDup (Layout.ids (stepsOf st))).
  { apply (bool_decide_unpack (NoDup _)). vm_compute. exact I. }
  split; [exact Hnd|]. split; [vm_compute; reflexivity|]. split.
  - destruct (connectors_are_present_edges (cardsOf fork) st) as (_ & _ & Heq & _).
    rewrite (Heq Hnd). vm_compute. reflexivity.
  - destruct (connectors_are_present_edges (delete "b" (cardsOf fork)) st)
      as (_ & _ & Heq & _).
    rewrite (Heq Hnd). vm_compute. reflexivity.
Defined.

Lemma rawEdges_cons (ss : SubStep) (l : list SubStep) :
  rawEdges (ss :: l) = map (λ n, (ss_id ss, n)) (outgoing ss) ++ rawEdges l.
Proof. reflexivity. Qed.

Lemma rawEdges_delete (a b : string) (l : list SubStep) :
  rawEdges (map (λ ss, if decide (ss_id ss = a)
                       then set_nextSubStepIds ss
                              (filter (λ i, i ≠ b) <$> nextSubStepIds ss)
                       else ss) l)
  = filter (λ e, e ≠ (a, b)) (rawEdges l).
Proof.
  induction l as [|ss l IH]; [reflexivity|].
  cbn [map]. rewrite !rawEdges_cons, filter_app, IH. f_equal.
  destruct (decide (ss_id ss = a)) as [Heq|Hne].
  - rewrite outgoing_filter. simpl. rewrite Heq.
    induction (outgoing ss) as [|t ts IHt]; [reflexivity|].
    simpl. rewrite !filter_cons.
    destruct (decide (t ≠ b)) as [Ht|Ht];
      destruct (decide ((a, t) ≠ (a, b))) as [Hp|Hp]; simpl; rewrite IHt;
      try reflexivity.
    + exfalso. apply Hp. congruence.
    + exfalso. apply Ht. intros ->. by apply Hp.
  - induction (outgoing ss) as [|t ts IHt]; [reflexivity|].
    simpl. rewrite filter_cons.
    destruct (decide ((ss_id ss, t) ≠ (a, b))) as [_|Hp]; [by rewrite <- IHt|].
    exfalso. apply Hp. congruence.
Qed.

Lemma findSubStep_map (g : SubStep → SubStep) (i : string) (l : list SubStep) :
  (∀ ss, ss_id (g ss) = ss_id ss) →
  findSubStep i (map g l) = g <$> findSubStep i l.
Proof.
  intros Hid. unfold findSubStep.
  induction l as [|ss l IH]; [reflexivity|].
  cbn [map]. rewrite !filter_cons, Hid.
  destruct (decide (ss_id ss = i)); [reflexivity|exact IH].
Qed.

(** X17. Deleting a connection through its connector: whatever card
    elements are attached when the connectors are computed again, no
    connector from that source to that target is drawn any more, and what is
    drawn is, in order, a part of the edges there were before, the deleted
    one left out. On a graph with unique ids the connectors are then exactly
    the other former edges both of whose ends are shown: a connector that
    was not drawn before, because a card was not yet attached, can appear. *)
Theorem delete_removes_that_connector (attached : gmap string Card)
    (st : EditorState) (sourceId targetId : string) :
  let l := stepsOf st in
  let st' := handleDeleteConnection sourceId targetId st in
  let drawn := map connectorEdge (subStepConnectors attached st') in
  ((sourceId, targetId) ∉ drawn)
  ∧ drawn `sublist_of` filter (λ e, e ≠ (sourceId, targetId)) (edgesOf l)
  ∧ (NoDup (Layout.ids l) →
     drawn = filter (λ e, e ≠ (sourceId, targetId)
                          ∧ shown attached l e.1 ∧ shown attached l e.2)
                    (edgesOf l)).
Proof.
  intros l st' drawn.
  set (g := λ ss, if decide (ss_id ss = sourceId)
                  then set_nextSubStepIds ss
                         (filter (λ i, i ≠ targetId) <$> nextSubStepIds ss)
                  else ss).
  assert (Hsteps : stepsOf st' = map g l) by reflexivity.
  assert (Hgid : ∀ ss, ss_id (g ss) = ss_id ss).
  { intros ss. unfold g. by destruct (decide (ss_id ss = sourceId)). }
  assert (Hids : Layout.ids (stepsOf st') = Layout.ids l).
  { rewrite Hsteps. by apply ids_map_same. }
  assert (Hedges : edgesOf (stepsOf st')
                   = filter (λ e, e ≠ (sourceId, targetId)) (edgesOf l)).
  { unfold edgesOf. rewrite Hids, Hsteps. unfold g.
    rewrite rawEdges_delete, !list_filter_filter.
    apply list_filter_iff. intros e. tauto. }
  assert (Hsub : drawn `sublist_of`
                   filter (λ e, e ≠ (sourceId, targetId)) (edgesOf l)).
  { rewrite <- Hedges. apply connectors_sound. }
  split; [|split; [exact Hsub|]].
  - intros Hin. eapply elem_of_sublist in Hin; [|exact Hsub].
    apply list_elem_of_filter in Hin as [Hne _]. by apply Hne.
  - intros Hnd. unfold drawn. rewrite connectors_exact by (by rewrite Hids).
    rewrite Hedges, list_filter_filter.
    apply list_filter_iff. intros e.
    assert (Hshown : ∀ i, shown attached (stepsOf st') i = shown attached l i).
    { intros i. unfold shown. rewrite Hsteps, (findSubStep_map g i l Hgid).
      destruct (findSubStep i l) as [x|]; [|reflexivity]. simpl.
      assert (Hp : position (g x) = position x).
      { unfold g. by destruct (decide (ss_id x = sourceId)). }
      by rewrite Hp. }
    rewrite !Hshown. tauto.
Qed.

Lemma delete_removes_that_connector_witness :
  let st := stateOf (taskOf fork) in
  NoDup (Layout.ids (stepsOf st))
  ∧ map connectorEdge (subStepConnectors (delete "b" (cardsOf fork)) st)
    = [("a", "c")]
  ∧ map connectorEdge
      (subStepConnectors (cardsOf fork) (handleDeleteConnection "a" "c" st))
    = [("a", "b")].
Proof.
  intros st.
  assert (Hnd : NoDup (Layout.ids (stepsOf st))).
  { apply (bool_decide_unpack (NoDup _)). vm_compute. exact I. }
  split; [exact Hnd|]. split; [vm_compute; reflexivity|].
  destruct (delete_removes_that_connector (cardsOf fork) st "a" "c")
    as (_ & _ & Heq).
  rewrite (Heq Hnd). vm_compute. reflexivity.
Defined.

(** ** Accepting proposals *)

Section Proposals.
Variable G : Type.
Variable generateUniqueId : string → G → string * G.

Lemma createSubSteps_spec (ps : list Proposal) :
  ∀ (i index : nat) (g : G),
  let created := (createSubSteps G generateUniqueId i index ps g).1 in
  map ss_text created = map prop_title ps
  ∧ map position created
    = map (λ k, Some (gridPosition (i + k))) (seq index (length ps))
  ∧ Forall (λ ss, outgoing ss = [] ∧ status ss = Some NOT_STARTED
                  ∧ actionItems ss = Some []) created.
Proof.
  induction ps as [|p ps IH]; intros i index g; simpl.
  { split; [reflexivity|]. split; [reflexivity|constructor]. }
  destruct (generateUniqueId "sub_ai" g) as [newId g1].
  specialize (IH i (S index) g1). simpl in IH.
  destruct (createSubSteps G generateUniqueId i (S index) ps g1) as [created g2].
  simpl in *. destruct IH as (Ht & Hp & Hall).
  split; [by rewrite Ht|]. split; [by rewrite Hp|].
  constructor; [|exact Hall]. repeat split.
Qed.

Lemma createActionItems_spec (items : list ProposedActionItem) :
  ∀ g : G,
  let created := (createActionItems G generateUniqueId items g).1 in
  map ai_text created = map item_title items
  ∧ Forall (λ it, completed it = false) created.
Proof.
  induction items as [|item items IH]; intros g; simpl.
  { split; [reflexivity|constructor]. }
  destruct (generateUniqueId "action_ai" g) as [newId g1].
  specialize (IH g1). simpl in IH.
  destruct (createActionItems G generateUniqueId items g1) as [created g2].
  simpl in *. destruct IH as [Ht Hall].
  split; [by rewrite Ht|]. by constructor.
Qed.

Lemma addProposedItems_spec (proposed : list ProposedActionItem)
    (existing : list SubStep) :
  ∀ g : G,
  Forall2
    (λ ss ss',
       ss' = set_items_status ss (actionItems ss') (status ss)
       ∧ ∃ new,
           orEmpty (actionItems ss') = orEmpty (actionItems ss) ++ new
           ∧ map ai_text new
             = map item_title
                 (filter (λ item, targetSubStepId item = ss_id ss) proposed)
           ∧ Forall (λ it, completed it = false) new)
    existing (addProposedItems G generateUniqueId existing proposed g).1.
Proof.
  induction existing as [|ss rest IH]; intros g; simpl; [constructor|].
  destruct (filter (λ item, targetSubStepId item = ss_id ss) proposed)
    as [|item items] eqn:Hf.
  - specialize (IH g).
    destruct (addProposedItems G generateUniqueId rest proposed g) as [rest' g2].
    simpl in *. constructor; [|exact IH].
    split; [by destruct ss|]. exists []. rewrite app_nil_r.
    split; [reflexivity|]. split; [by rewrite Hf|constructor].
  - pose proof (createActionItems_spec (item :: items) g) as Hnew.
    destruct (createActionItems G generateUniqueId (item :: items) g)
      as [newItems g1].
    specialize (IH g1).
    destruct (addProposedItems G generateUniqueId rest proposed g1) as [rest' g2].
    simpl in *. constructor; [|exact IH].
    split; [reflexivity|]. exists newItems. simpl.
    destruct Hnew as [Ht Hall]. split; [reflexivity|].
    split; [by rewrite Hf|exact Hall].
Qed.

Lemma rawEdges_app (l1 l2 : list SubStep) :
  rawEdges (l1 ++ l2) = rawEdges l1 ++ rawEdges l2.
Proof. unfold rawEdges. apply bind_app. Qed.

Lemma rawEdges_no_outgoing (l : list SubStep) :
  Forall (λ ss, outgoing ss = []) l → rawEdges l = [].
Proof.
  induction 1 as [|ss l Hss _ IH]; [reflexivity|].
  by rewrite rawEdges_cons, Hss, IH.
Qed.

(** X19. Accepting proposals only appends, whatever ids the generator
    returns: the existing sub-steps keep their order and every field but
    the action items, which receive, after the items already there, one
    item (not completed) for each proposed item addressed to that
    sub-step, in the order proposed, the status being left as it was;
    proposed items addressed to no sub-step are dropped; the new sub-steps
    follow, one per proposal, Not Started, without outgoing ids, on the
    default positions after the last existing index. No edge is added or
    removed, and one undo takes the task back. *)
Theorem confirm_proposals_only_appends (additions : Additions) (g : G)
    (st : EditorState) :
  let st' := (handleConfirmProposals G generateUniqueId additions g st).1 in
  ∃ updated created,
    stepsOf st' = updated ++ created
    ∧ Forall2
        (λ ss ss',
           ss' = set_items_status ss (actionItems ss') (status ss)
           ∧ ∃ new,
               orEmpty (actionItems ss') = orEmpty (actionItems ss) ++ new
               ∧ map ai_text new
                 = map item_title
                     (filter (λ item, targetSubStepId item = ss_id ss)
                             (newActionItems additions))
               ∧ Forall (λ it, completed it = false) new)
        (stepsOf st) updated
    ∧ map ss_text created = map prop_title (newSubSteps additions)
    ∧ map position created
      = map (λ k, Some (gridPosition k))
            (seq (length (stepsOf st)) (length (newSubSteps additions)))
    ∧ Forall (λ ss, outgoing ss = [] ∧ status ss = Some NOT_STARTED
                    ∧ actionItems ss = Some []) created
    ∧ rawEdges (stepsOf st') = rawEdges (stepsOf st)
    ∧ editableTask (handleLocalUndo st') = editableTask st.
Proof.
  intros st'. unfold st', handleConfirmProposals.
  pose proof (createSubSteps_spec (newSubSteps additions)
                (length (stepsOf st)) 0 g) as Hcreated.
  destruct (createSubSteps G generateUniqueId (length (stepsOf st)) 0
              (newSubSteps additions) g) as [created g1].
  pose proof (addProposedItems_spec (newActionItems additions) (stepsOf st) g1)
    as Hupdated.
  destruct (addProposedItems G generateUniqueId (stepsOf st)
              (newActionItems additions) g1) as [updated g2].
  simpl in *. destruct Hcreated as (Ht & Hp & Hall).
  exists updated, created. split; [reflexivity|]. split; [exact Hupdated|].
  split; [exact Ht|]. split.
  { rewrite Hp. clear. generalize (length (stepsOf st)) as i. intros i.
    generalize (length (newSubSteps additions)) as n. intros n.
    replace (seq i n) with (seq (i + 0) n) by (f_equal; lia).
    generalize 0%nat as j.
    induction n as [|n IH]; intros j; [reflexivity|].
    simpl. rewrite IH, Nat.add_succ_r. reflexivity. }
  split; [exact Hall|]. split.
  - change (rawEdges (updated ++ created) = rawEdges (stepsOf st)).
    rewrite rawEdges_app, (rawEdges_no_outgoing created), app_nil_r.
    + assert (Hg : graphOf updated = graphOf (stepsOf st)).
      { clear -Hupdated. induction Hupdated as [|ss ss' l l' [Heq _] _ IH];
          [reflexivity|].
        unfold graphOf in *. simpl. rewrite IH, Heq. reflexivity. }
      by rewrite !rawEdges_graphOf, Hg.
    + eapply Forall_impl; [exact Hall|]. by intros ss (Ho & _).
  - match goal with
    | |- editableTask (handleLocalUndo ?s) = _ =>
        by rewrite (undo_snoc s (localHistory st) (editableTask st) eq_refl)
    end.
Qed.

End Proposals.
